(** * RAG-chatbot: grounding and context-synthesis engine

    A shallow embedding of the metadata sanitizer, merger and lead classifier
    (services/validate_metadata.py, services/session_metadata.py), of the
    context assembler (services/content_manager_or.py, the gate in main.py)
    and of the grounding verifier (utils/safety.py), with the properties
    the specification states about them and further properties the code
    has on the inputs those leave out.

    Python values are modelled as data: a [str] is its list of Unicode code
    points, a JSON-like value is a [pyval], a [dict] used as a map is a
    [gmap], a raised exception is the [Raise] branch of [result].  The
    interpreter's Unicode tables (decimal digits and case mapping beyond
    ASCII, [repr] of a str, [int] of a str) are not part of the repository;
    they enter as the fields of a [unicode] record every definition takes.
    Floats are left out of the values; integers are unbounded, and the
    interpreter's limit on the digits of an int conversion enters where the
    range_number sanitizer is stated ([sanitize_range_number_limited]).
    The order in which the interpreter lists a set enters where the merge
    is applied twice ([merge_and_save_by]).  Calls to the table, the
    search, the templates and the language model are inputs of the
    functions that use their results, and so is the outcome of
    [format_history_or], which decodes JSON ([build_prompt_or_with_history]). *)

From Stdlib Require Import ZArith NArith Ascii String Lia DecimalPos DecimalN.
From stdpp Require Import base numbers option list gmap strings.

Set Warnings "-register-all,-clear-no-such-hyp".
Local Open Scope N_scope.

(** ** Python strings *)

Abbreviation pystr := (list N).

(** The code points of an ASCII literal. *)
Definition u (s : string) : pystr :=
  (λ a, N_of_ascii a) <$> list_ascii_of_string s.
Arguments u _%_string.

Definition pound : N := 163.     (* U+00A3, the pound sign *)
Definition en_dash : N := 8211.  (* U+2013 *)
Definition comma : N := 44.

(** What the interpreter knows about Unicode and the code does not spell out. *)
Record unicode := {
  udigit : N → option N;    (* decimal value of a code point >= 128 in category Nd *)
  ulower : pystr → pystr;   (* str.lower() of a string with a code point >= 128 *)
  urepr : pystr → pystr;    (* repr() of a str *)
  uint : pystr → option Z   (* int() of a str, None when it raises ValueError *)
}.

(** [str.isspace] per code point: the characters [str.strip()] removes. *)
Definition is_space (c : N) : bool :=
  (9 <=? c) && (c <=? 13) || (28 <=? c) && (c <=? 32)
  || (c =? 133) || (c =? 160) || (c =? 5760)
  || (8192 <=? c) && (c <=? 8202)
  || (c =? 8232) || (c =? 8233) || (c =? 8239) || (c =? 8287) || (c =? 12288).

Fixpoint lstrip (s : pystr) : pystr :=
  match s with
  | c :: s' => if is_space c then lstrip s' else s
  | [] => []
  end.

Definition rstrip (s : pystr) : pystr := rev (lstrip (rev s)).

(** [s.strip()] *)
Definition strip (s : pystr) : pystr := rstrip (lstrip s).

(** [s.replace(",", "")] *)
Definition remove_commas (s : pystr) : pystr :=
  filter (λ c, c ≠ comma) s.

(** [a in b] for two strings: [a] occurs in [b] as a contiguous block. *)
Fixpoint starts_with (a b : pystr) : bool :=
  match a, b with
  | [], _ => true
  | x :: a', y :: b' => (x =? y) && starts_with a' b'
  | _ :: _, [] => false
  end.

Fixpoint py_in (a b : pystr) : bool :=
  starts_with a b ||
  match b with
  | [] => false
  | _ :: b' => py_in a b'
  end.

(** [sep.join(parts)] *)
Fixpoint join (sep : pystr) (parts : list pystr) : pystr :=
  match parts with
  | [] => []
  | [p] => p
  | p :: rest => p ++ sep ++ join sep rest
  end.

(** [s.split(",")]: the pieces between commas, at least one piece. *)
Fixpoint split_comma_aux (s cur : pystr) : list pystr :=
  match s with
  | [] => [rev cur]
  | c :: s' => if c =? comma then rev cur :: split_comma_aux s' []
               else split_comma_aux s' (c :: cur)
  end.

Definition split_comma (s : pystr) : list pystr := split_comma_aux s [].

(** ** Decimal numerals *)

Fixpoint uint_codes (d : Decimal.uint) : pystr :=
  match d with
  | Decimal.Nil => []
  | Decimal.D0 d => 48 :: uint_codes d
  | Decimal.D1 d => 49 :: uint_codes d
  | Decimal.D2 d => 50 :: uint_codes d
  | Decimal.D3 d => 51 :: uint_codes d
  | Decimal.D4 d => 52 :: uint_codes d
  | Decimal.D5 d => 53 :: uint_codes d
  | Decimal.D6 d => 54 :: uint_codes d
  | Decimal.D7 d => 55 :: uint_codes d
  | Decimal.D8 d => 56 :: uint_codes d
  | Decimal.D9 d => 57 :: uint_codes d
  end.

(** [str(n)] for a natural number. *)
Definition decimal (n : N) : pystr := uint_codes (N.to_uint n).

(** A comma after every third digit, on the reversed numeral. *)
Fixpoint group3 (l : pystr) : pystr :=
  match l with
  | a :: b :: c :: (_ :: _) as r => a :: b :: c :: comma :: group3 r
  | _ => l
  end.

(** [f"{n:,}"] for a natural number. *)
Definition thousands (n : N) : pystr := rev (group3 (rev (decimal n))).

Definition minus_sign : N := 45.

(** [str(z)] and [f"{z:,}"] for an int. *)
Definition decimal_Z (z : Z) : pystr :=
  match z with
  | Zneg p => minus_sign :: decimal (Npos p)
  | _ => decimal (Z.to_N z)
  end.

Definition thousands_Z (z : Z) : pystr :=
  match z with
  | Zneg p => minus_sign :: thousands (Npos p)
  | _ => thousands (Z.to_N z)
  end.

(** ** Python values and exceptions *)

(** The values [json.loads] produces, floats apart. *)
Inductive pyval :=
  | PNone
  | PBool (b : bool)
  | PInt (z : Z)
  | PStr (s : pystr)
  | PList (l : list pyval)
  | PDict (d : list (pystr * pyval)).

Inductive exn := TypeError | AttributeError | KeyError.

Inductive result (A : Type) :=
  | Ok (a : A)
  | Raise (e : exn).
Arguments Ok {A} a.
Arguments Raise {A} e.

(** Statements run in sequence; the first exception ends the run. *)
#[global] Instance result_bind : MBind result := λ A B k r,
  match r with
  | Ok a => k a
  | Raise e => Raise e
  end.

#[global] Instance result_ret : MRet result := λ A a, Ok a.

(** [bool(v)] *)
Definition truthy (v : pyval) : bool :=
  match v with
  | PNone => false
  | PBool b => b
  | PInt z => negb (z =? 0)%Z
  | PStr s => negb (bool_decide (s = []))
  | PList l => negb (bool_decide (l = []))
  | PDict d => negb (bool_decide (d = []))
  end.

(** ** The field schema (domains/<domain>/fields.json)

    JSON objects the code iterates over are kept as association lists in
    file order; numbers are integers. *)

(** An entry of a weight table: a score, or a sequence of numbers. *)
Inductive wval :=
  | WNum (z : Z)
  | WSeq (l : list Z).

Record field_config := {
  fc_type : option pystr;                      (* config.get("type") *)
  fc_choices : option (list pystr);            (* config["choices"], when present *)
  fc_weights : option (list (pystr * wval))    (* config["weights"], when present *)
}.

Record display_field := {
  df_key : pystr;
  df_label : pystr;
  df_prefix : option pystr;
  df_suffix : option pystr;
  df_format : option pystr
}.

Record field_schema := {
  metadata_fields : list (pystr * field_config);
  lead_score_thresholds : option (list (pystr * Z));
  display_fields : list display_field;
  context_labels : list (pystr * pystr)
}.

(** [d.get(key)] on an association list. *)
Fixpoint dict_get {A} (key : pystr) (d : list (pystr * A)) : option A :=
  match d with
  | [] => None
  | (k, a) :: rest => if bool_decide (k = key) then Some a else dict_get key rest
  end.

(** ** The profile table

    An attribute value of DynamoDB: a string, a string set, or a value of
    another type.  The table keeps, for every user, items sorted by
    timestamp; the code reads the newest only, so the store of one user is
    that item, if there is one. *)
Inductive attr :=
  | AS (s : pystr)
  | ASS (l : list pystr)
  | AOther.

Definition store := option (gmap pystr attr).

Definition control_key (key : pystr) : bool :=
  bool_decide (key = u "user_id") || bool_decide (key = u "timestamp").

(** [for key, value in d.items(): body], the loop state threaded through. *)
Definition for_items {A B : Type} (d : gmap pystr A) (body : pystr → A → B → result B)
    (init : B) : result B :=
  map_fold (λ key value acc, s ← acc; body key value s) (Ok init) d.

(** Only lists and dicts among the values are unhashable. *)
Definition hashable (v : pyval) : bool :=
  match v with
  | PList _ | PDict _ => false
  | _ => true
  end.

(** [a == b] on hashable values: a bool counts as the int it is. *)
Definition py_eq (a b : pyval) : bool :=
  match a, b with
  | PNone, PNone => true
  | PStr s, PStr t => bool_decide (s = t)
  | PBool x, PBool y => bool_decide (x = y)
  | PInt x, PInt y => (x =? y)%Z
  | PBool x, PInt y | PInt y, PBool x => ((if x then 1 else 0) =? y)%Z
  | _, _ => false
  end.

Definition set_add (acc : list pyval) (x : pyval) : list pyval :=
  if existsb (py_eq x) acc then acc else acc ++ [x].

(** ** Listings and messages *)

(** A listing as the search returns it: its payload holds the identifier
    and the address the verifier reads, and the fields the schema displays. *)
Record fact := {
  external_id : pystr;
  address : pystr;
  other_fields : list (pystr * pyval)
}.

(** [payload.get(key)] *)
Definition payload_get (h : fact) (key : pystr) : option pyval :=
  if bool_decide (key = u "external_id") then Some (PStr (external_id h))
  else if bool_decide (key = u "address") then Some (PStr (address h))
  else dict_get key (other_fields h).

Record message := Message { role : pystr; content : pystr }.

Definition newline : N := 10.

Definition warning_sign : pystr := [9888; 65039].  (* U+26A0 U+FE0F *)

Definition listings_header : pystr :=
  warning_sign ++ u " Below is the ONLY set of listings available. You MUST use only these listings when generating your reply. Do not invent or speculate. If none are suitable, say so clearly and suggest adjusting filters."
  ++ [newline; newline].

Definition only_these_listings : pystr :=
  warning_sign ++ u " The assistant must ONLY reference these listings. Do not invent additional options.".

Definition no_listings : pystr :=
  u "There are currently no listings available that match the user's query. You must not invent any new listings. Wait for further input.".

Definition grounding_header : pystr :=
  128204 :: u " The user has already confirmed the following preferences in earlier messages. Do NOT change or ignore these unless the user explicitly says otherwise.".

Definition grounding_footer : pystr :=
  newline :: 128073 :: u " Continue the conversation using this context and only update fields if the user clearly expresses a change.".

(** The reply that replaces a rejected one (U+2019 apostrophes, U+2014 dash). *)
Definition fallback_reply : pystr :=
  u "I" ++ [8217] ++ u "m sorry " ++ [8212] ++ u " I wasn" ++ [8217]
  ++ u "t able to find any additional listings that match your request. Would you like to adjust your preferences?".

(** A call binds its arguments to the parameters before the body runs; a
    parameter without a default that gets no argument raises TypeError. *)
Definition call_2 {A B C : Type} (f : A → B → C) (a : option A) (b : option B)
    : result C :=
  match a, b with
  | Some x, Some y => Ok (f x y)
  | _, _ => Raise TypeError
  end.

Section Interpreter.

Context (U : unicode).

(** [s.lower()]: ASCII letters by the ASCII rule, anything else by the table. *)
Definition ascii_lower (c : N) : N :=
  if (65 <=? c) && (c <=? 90) then c + 32 else c.

Definition lower (s : pystr) : pystr :=
  if forallb (λ c, c <? 128) s then ascii_lower <$> s else ulower U s.

(** The decimal value of a character the pattern [\d] matches. *)
Definition digit_value (c : N) : option N :=
  if c <? 128 then (if (48 <=? c) && (c <=? 57) then Some (c - 48) else None)
  else udigit U c.

Definition is_digit (c : N) : bool :=
  match digit_value c with Some _ => true | None => false end.

(** [re.findall(r"\d{3,}", s)]: the maximal runs of digits, left to right,
    that are at least three long.  [run] holds the current run, reversed. *)
Definition flush (run : pystr) : list pystr :=
  if (3 <=? length run)%nat then [rev run] else [].

Fixpoint findall_aux (s run : pystr) : list pystr :=
  match s with
  | [] => flush run
  | c :: s' => if is_digit c then findall_aux s' (c :: run)
               else flush run ++ findall_aux s' []
  end.

Definition findall_d3 (s : pystr) : list pystr := findall_aux s [].

(** [int(m)] for a run of digits [m]. *)
Definition int_of_digits (m : pystr) : N :=
  fold_left (λ acc c, 10 * acc + default 0 (digit_value c)) m 0.

(** [repr(v)] and [str(v)]. *)
Fixpoint py_repr (v : pyval) : pystr :=
  match v with
  | PNone => u "None"
  | PBool true => u "True"
  | PBool false => u "False"
  | PInt z => decimal_Z z
  | PStr s => urepr U s
  | PList l => u "[" ++ join (u ", ") (map py_repr l) ++ u "]"
  | PDict d =>
      u "{" ++ join (u ", ")
                 (map (λ kv, match kv with
                             | (k, w) => urepr U k ++ u ": " ++ py_repr w
                             end) d)
        ++ u "}"
  end.

Definition py_str (v : pyval) : pystr :=
  match v with
  | PStr s => s
  | _ => py_repr v
  end.

(** ** services/validate_metadata.py: the sanitizers *)

(** [f"£{int(m):,}"] *)
Definition pounds (m : pystr) : pystr := pound :: thousands (int_of_digits m).

(** The function as long as nothing in its [try] raises, which is so when
    no number in it has more digits than the interpreter's limit on int
    conversion; [sanitize_range_number_limited] below adds the [try]. *)
Definition sanitize_range_number (value : pyval) : pyval :=
  if negb (truthy value) then PNone
  else
    let str_val := remove_commas (py_str value) in
    let match_ := findall_d3 str_val in
    match match_ with
    | [lo; hi] => PStr (pounds lo ++ en_dash :: pounds hi)
    | [m] => PStr (pounds m)
    | _ => PNone
    end.

(** A comma-separated string gives its trimmed pieces; a list gives its
    truthy elements, stringified and trimmed; anything else the empty list. *)
Definition sanitize_list (value : pyval) : pyval :=
  match value with
  | PStr s => PList ((λ v, PStr (strip v)) <$> split_comma s)
  | PList l => PList ((λ v, PStr (strip (py_str v))) <$> filter (λ v, truthy v = true) l)
  | _ => PList []
  end.

(** [value[0].strip().lower()] calls [strip] on the first element whatever
    its type: only a str has that method. *)
Definition sanitize_type (value : pyval) : result pyval :=
  match value with
  | PList (first :: _) =>
      match first with
      | PStr s => Ok (PStr (lower (strip s)))
      | _ => Raise AttributeError
      end
  | PStr s => Ok (PStr (lower (strip s)))
  | _ => Ok PNone
  end.

Fixpoint first_choice (v : pystr) (valid_choices : list pystr) : pyval :=
  match valid_choices with
  | [] => PNone
  | choice :: rest =>
      if bool_decide (lower (strip v) = lower choice) then PStr choice
      else first_choice v rest
  end.

Definition normalize_choice (value : pyval) (valid_choices : list pystr) : pyval :=
  match value with
  | PStr s => first_choice s valid_choices
  | _ => PNone
  end.

(** The [string] entry of the registry. *)
Definition sanitize_string (value : pyval) : pyval :=
  match value with
  | PStr s => PStr (strip s)
  | _ => PNone
  end.

(** The registry of sanitizers by field type; [None] is an unregistered type. *)
Definition FIELD_SANITIZERS (field_type : pystr) : option (pyval → result pyval) :=
  if bool_decide (field_type = u "range_number") then Some (λ v, Ok (sanitize_range_number v))
  else if bool_decide (field_type = u "list") then Some (λ v, Ok (sanitize_list v))
  else if bool_decide (field_type = u "type") then Some sanitize_type
  else if bool_decide (field_type = u "string") then Some (λ v, Ok (sanitize_string v))
  else None.

(** [validate_metadata(raw)], with the schema [load_field_schema] returned.
    The loop body, for one declared field: *)
Definition validate_field (raw : gmap pystr pyval) (metadata : gmap pystr pyval)
    (entry : pystr * field_config) : result (gmap pystr pyval) :=
  let '(field, config) := entry in
  let value := default PNone (raw !! field) in
  let field_type := default (u "string") (fc_type config) in
  match fc_choices config with
  | Some choices => Ok (<[field := normalize_choice value choices]> metadata)
  | None =>
      match FIELD_SANITIZERS field_type with
      | Some sanitizer => v ← sanitizer value; Ok (<[field := v]> metadata)
      | None => Ok (<[field := value]> metadata)
      end
  end.

Fixpoint validate_fields (raw metadata : gmap pystr pyval)
    (fields : list (pystr * field_config)) : result (gmap pystr pyval) :=
  match fields with
  | [] => Ok metadata
  | entry :: rest =>
      metadata' ← validate_field raw metadata entry;
      validate_fields raw metadata' rest
  end.

Definition validate_metadata (schema : field_schema) (raw : gmap pystr pyval)
    : result (gmap pystr pyval) :=
  let metadata := {[ u "session_id" := default PNone (raw !! u "session_id") ]} in
  validate_fields raw metadata (metadata_fields schema).

(** ** services/validate_metadata.py: the lead classifier *)

(** [for threshold, s in zip(thresholds, scores): if max_val >= threshold: score += s] *)
Definition add_threshold_scores (max_val : Z) (thresholds scores : list Z) (score : Z) : Z :=
  fold_left (λ sc ts, if (ts.1 <=? max_val)%Z then (sc + ts.2)%Z else sc)
            (zip thresholds scores) score.

(** The categorical loop: the first option equal to the value, case and
    outer blanks apart, adds its weight and ends the loop.  Adding a
    sequence to the int score raises TypeError. *)
Fixpoint add_option_weight (v : pystr) (weights : list (pystr * wval)) (score : Z)
    : result Z :=
  match weights with
  | [] => Ok score
  | (option, weight) :: rest =>
      if bool_decide (lower (strip v) = lower (strip option)) then
        match weight with
        | WNum w => Ok (score + w)%Z
        | WSeq _ => Raise TypeError
        end
      else add_option_weight v rest score
  end.

(** The body of the loop over the schema's fields.  Inside the [try], a
    table whose [thresholds] or [scores] entry is missing or is no sequence
    raises, and the [except] moves on with the score as it was. *)
Definition score_field (metadata : gmap pystr pyval) (score : Z)
    (entry : pystr * field_config) : result Z :=
  let '(key, config) := entry in
  let value := default PNone (metadata !! key) in
  if negb (truthy value) then Ok score
  else
    match fc_weights config with
    | None => Ok score
    | Some weights =>
        if bool_decide (fc_type config = Some (u "range_number"))
           && bool_decide (is_Some (dict_get (u "thresholds") weights))
        then
          match last (findall_d3 (remove_commas (py_str value))) with
          | None => Ok score
          | Some m =>
              let max_val := Z.of_N (int_of_digits m) in
              match dict_get (u "thresholds") weights, dict_get (u "scores") weights with
              | Some (WSeq thresholds), Some (WSeq scores) =>
                  Ok (add_threshold_scores max_val thresholds scores score)
              | _, _ => Ok score
              end
          end
        else add_option_weight (py_str value) weights score
    end.

Fixpoint score_fields (metadata : gmap pystr pyval) (score : Z)
    (fields : list (pystr * field_config)) : result Z :=
  match fields with
  | [] => Ok score
  | entry :: rest =>
      score' ← score_field metadata score entry;
      score_fields metadata score' rest
  end.

Definition default_thresholds : list (pystr * Z) :=
  [(u "Hot", 3%Z); (u "Warm", 1%Z); (u "Cold", 0%Z)].

Definition tier (schema : field_schema) (score : Z) : pystr :=
  let thresholds := default default_thresholds (lead_score_thresholds schema) in
  if (default 3 (dict_get (u "Hot") thresholds) <=? score)%Z then u "Hot"
  else if (default 1 (dict_get (u "Warm") thresholds) <=? score)%Z then u "Warm"
  else u "Cold".

Definition classify_lead (metadata : gmap pystr pyval) (schema : field_schema)
    : result pystr :=
  score ← score_fields metadata 0%Z (metadata_fields schema);
  Ok (tier schema score).

(** ** services/session_metadata.py: the profile store and the merge *)

(** [load_metadata]: the newest item of the user, the two key attributes
    skipped, string and string-set attributes unpacked. *)
Definition load_attr (key : pystr) (value : attr) : option pyval :=
  if control_key key then None
  else match value with
       | AS s => Some (PStr s)
       | ASS l => Some (PList (PStr <$> l))
       | AOther => None
       end.

Definition load_metadata (st : store) : gmap pystr pyval :=
  match st with
  | None => ∅
  | Some item => map_imap load_attr item
  end.

(** [a + value] for a list [value]: only a list can be extended by a list. *)
Definition list_concat (a : pyval) (value : list pyval) : result (list pyval) :=
  match a with
  | PList l => Ok (l ++ value)
  | _ => Raise TypeError
  end.

(** [list(set(xs))].  A set takes hashable elements and keeps one of every
    class of equal ones.  Python leaves the order of the result open; here
    the elements come in the order of their first occurrence, and what is
    stated about list-valued fields compares them as sets.  [list_set_by]
    below leaves the order to the interpreter. *)
Definition list_set (xs : list pyval) : result (list pyval) :=
  if forallb hashable xs then Ok (fold_left set_add xs []) else Raise TypeError.

(** Lines 38-45 of [update_and_save_metadata]: the loop over the new
    metadata, [merged] being the loop state. *)
Definition merge_entry (key : pystr) (value : pyval) (merged : gmap pystr pyval)
    : result (gmap pystr pyval) :=
  match value with
  | PNone => Ok merged
  | PList l =>
      both ← list_concat (default (PList []) (merged !! key)) l;
      uniq ← list_set both;
      Ok (<[key := PList uniq]> merged)
  | _ => Ok (<[key := value]> merged)
  end.

Definition merge_new_metadata (existing_metadata new_metadata : gmap pystr pyval)
    : result (gmap pystr pyval) :=
  for_items new_metadata merge_entry existing_metadata.

(** Lines 79-85 of [save_metadata]. *)
Definition blank_str (value : pyval) : bool :=
  match value with
  | PStr s => bool_decide (strip s = [])
  | _ => false
  end.

Definition save_entry (existing : gmap pystr pyval) (key : pystr) (value : pyval)
    (merged : gmap pystr pyval) : result (gmap pystr pyval) :=
  match value with
  | PNone => Ok merged
  | PList l =>
      both ← list_concat (default (PList []) (existing !! key)) l;
      uniq ← list_set both;
      Ok (<[key := PList uniq]> merged)
  | _ =>
      if blank_str value then Ok merged
      else Ok (<[key := PStr (py_str value)]> merged)
  end.

(** Lines 87-96: the item written, its attributes typed for DynamoDB. *)
Definition item_entry (key : pystr) (value : pyval) (item : gmap pystr attr)
    : gmap pystr attr :=
  match value with
  | PList (x :: l) => <[key := ASS (py_str <$> (x :: l))]> item
  | PStr s => if bool_decide (strip s = []) then item else <[key := AS (strip s)]> item
  | _ => item
  end.

Definition build_item (user_id now : pystr) (merged : gmap pystr pyval) : gmap pystr attr :=
  map_fold item_entry
    (<[u "timestamp" := AS now]> {[ u "user_id" := AS user_id ]}) merged.

(** [save_metadata(user_id, new_metadata)]: the store after the call.  The
    item put carries a fresh timestamp and becomes the newest one. *)
Definition save_metadata (user_id now : pystr) (st : store)
    (new_metadata : gmap pystr pyval) : result store :=
  let existing := load_metadata st in
  merged ← for_items new_metadata (save_entry existing) existing;
  Ok (Some (build_item user_id now merged)).

(** Lines 35-50 of [update_and_save_metadata], from the validated metadata on. *)
Definition merge_and_save (schema : field_schema) (user_id now : pystr) (st : store)
    (new_metadata : gmap pystr pyval) : result store :=
  let existing_metadata := load_metadata st in
  merged ← merge_new_metadata existing_metadata new_metadata;
  tag ← classify_lead merged schema;
  save_metadata user_id now st (<[u "lead_classification" := PStr tag]> merged).

Definition update_and_save_metadata (schema : field_schema) (user_id now : pystr)
    (st : store) (new_raw_metadata : gmap pystr pyval) : result store :=
  new_metadata ← validate_metadata schema new_raw_metadata;
  merge_and_save schema user_id now st new_metadata.

(** The store a turn leaves behind: an exception aborts the turn before
    [put_item], and the store stays as it was. *)
Definition store_after (st : store) (r : result store) : store :=
  match r with
  | Ok st' => st'
  | Raise _ => st
  end.

(** ** utils/safety.py: the grounding verifier *)

Definition listing_keywords : list pystr :=
  [u "listing"; u "property"; u "address"; u "option"; u "match"].

Definition is_reply_grounded (reply_text : pystr) (similar_items : list fact)
    (must_match : bool) : bool :=
  match similar_items with
  | [] => true
  | _ =>
      let known_ids := (λ h, lower (external_id h)) <$> similar_items in
      let known_addresses := (λ h, lower (address h)) <$> similar_items in
      let reply_lower := lower reply_text in
      if py_in (u "would a") reply_lower && py_in (u "also work for you") reply_lower
      then true
      else
        let mentions_known_items :=
          existsb (λ addr, py_in addr reply_lower) known_addresses
          || existsb (λ ext_id, py_in ext_id reply_lower) known_ids in
        let mentions_possible_listing :=
          existsb (λ keyword, py_in keyword reply_lower) listing_keywords in
        if mentions_known_items then true
        else if mentions_possible_listing then negb must_match
        else true
  end.

(** main.py, lines 137-145: the reply that is stored and returned.  The
    verifier is called without [must_match], which then is False. *)
Definition checked_reply (reply : pystr) (similar_items : list fact) : pystr :=
  if negb (is_reply_grounded reply similar_items false) then fallback_reply
  else reply.

(** ** utils/helpers.py and services/prompt_helpers.py *)

Definition has_valid_value (value : pyval) : bool :=
  match value with
  | PStr s => negb (bool_decide (strip s = []))
  | _ => false
  end.

(** [", ".join(value)]: every element has to be a str. *)
Fixpoint str_items (l : list pyval) : result (list pystr) :=
  match l with
  | [] => Ok []
  | PStr s :: rest => ss ← str_items rest; Ok (s :: ss)
  | _ :: _ => Raise TypeError
  end.

(** The text after the label: a list is joined, anything else formatted. *)
Definition preference_text (value : pyval) : result pystr :=
  match value with
  | PList l => ss ← str_items l; Ok (join (u ", ") ss)
  | _ => Ok (py_str value)
  end.

Fixpoint preference_lines (labels : list (pystr * pystr)) (metadata : gmap pystr pyval)
    : result (list pystr) :=
  match labels with
  | [] => Ok []
  | (key, label) :: rest =>
      let value := default PNone (metadata !! key) in
      if truthy value then
        text ← preference_text value;
        lines ← preference_lines rest metadata;
        Ok ((u "- " ++ label ++ u ": " ++ text) :: lines)
      else preference_lines rest metadata
  end.

(** [format_metadata_context_prompt(metadata)]; [labels] is the schema of
    the domain it loads, which is always "real_estate". *)
Definition format_metadata_context_prompt (labels : field_schema)
    (metadata : gmap pystr pyval) : result pystr :=
  if bool_decide (metadata = ∅) then Ok []
  else
    lines ← preference_lines (context_labels labels) metadata;
    Ok (join [newline] ([grounding_header] ++ lines ++ [grounding_footer])).

(** ** services/content_manager_or.py: the context assembler *)

(** [int(value)] inside the [try]: [None] is the [except: pass]. *)
Definition int_of_value (value : pyval) : option Z :=
  match value with
  | PInt z => Some z
  | PBool b => Some (if b then 1 else 0)%Z
  | PStr s => uint U s
  | _ => None
  end.

Definition display_value (payload : fact) (field : display_field) : pystr :=
  let value := default (PStr (u "Unknown")) (payload_get payload (df_key field)) in
  let unknown := match value with PStr s => bool_decide (s = u "Unknown") | _ => false end in
  let value :=
    if negb unknown && bool_decide (df_format field = Some (u "number")) then
      match int_of_value value with
      | Some z => PStr (thousands_Z z)
      | None => value
      end
    else value in
  if negb unknown
  then default [] (df_prefix field) ++ py_str value ++ default [] (df_suffix field)
  else py_str value.

Definition property_lines (display : list display_field) (total : nat)
    (idx : nat) (item : fact) : list pystr :=
  [u "Property " ++ decimal (N.of_nat idx) ++ u " of " ++ decimal (N.of_nat total) ++ u ":"]
  ++ ((λ field, u "- " ++ df_label field ++ u ": " ++ display_value item field) <$> display)
  ++ [[]].

Definition format_similar_items_or (similar_items : list fact) (schema : field_schema)
    : pystr :=
  let display := display_fields schema in
  match similar_items with
  | [] => u "There are currently no matching listings."
  | _ =>
      let n := length similar_items in
      let lines :=
        [u "There " ++ (if bool_decide (n = 1%nat) then u "is" else u "are") ++ u " "
           ++ decimal (N.of_nat n) ++ u " matching listing"
           ++ (if bool_decide (1 < n)%nat then u "s" else []) ++ u " available:"; []]
        ++ mjoin (imap (λ i item, property_lines display n (S i) item) similar_items)
        ++ [only_these_listings] in
      join [newline] lines
  end.

(** [build_prompt_or]; [system_prompt] is the rendered template and
    [history_messages] what [format_history_or(history)] returned
    ([build_prompt_or_with_history] below takes the outcome of that call,
    which can be an exception).  The call of [format_similar_items_or]
    passes the listings and nothing else. *)
Definition build_prompt_or (labels : field_schema) (system_prompt : pystr)
    (current_message : pystr) (history_messages : list message)
    (similar_items : list fact) (session_metadata : gmap pystr pyval)
    : result (list message) :=
  let messages := [Message (u "system") (strip system_prompt)] in
  let messages :=
    messages ++ filter (λ msg, role msg ≠ u "system") history_messages in
  messages ←
    (if bool_decide (session_metadata = ∅) then Ok messages
     else
       grounding ← format_metadata_context_prompt labels session_metadata;
       Ok (messages ++ [Message (u "user") grounding]));
  messages ←
    (match similar_items with
     | _ :: _ =>
         listings_text ← call_2 format_similar_items_or (Some similar_items) None;
         Ok (messages ++ [Message (u "user") (listings_header ++ listings_text)])
     | [] => Ok (messages ++ [Message (u "user") no_listings])
     end);
  match last messages with
  | Some (Message r c) =>
      if bool_decide (r = u "user") && bool_decide (c = current_message)
      then Ok messages
      else Ok (messages ++ [Message (u "user") current_message])
  | None => Ok (messages ++ [Message (u "user") current_message])
  end.

(** main.py, lines 107-128: the gate on the profile read back after the
    merge, the choice of the listings and the prompt built from them. *)
Definition inject_similar_items (session_metadata : gmap pystr pyval) : bool :=
  has_valid_value (default PNone (session_metadata !! u "location"))
  && has_valid_value (default PNone (session_metadata !! u "urgency"))
  && has_valid_value (default PNone (session_metadata !! u "budget")).

Definition shown_items (current_similar_items previous_similar_items : list fact)
    : list fact :=
  match current_similar_items with
  | [] => previous_similar_items
  | _ => current_similar_items
  end.

Definition similar_items_for_prompt (session_metadata : gmap pystr pyval)
    (similar_items : list fact) : list fact :=
  if inject_similar_items session_metadata then similar_items else [].

Definition turn_prompt (labels : field_schema) (system_prompt message_ : pystr)
    (history_messages : list message) (st : store)
    (current_similar_items previous_similar_items : list fact)
    : result (list message) :=
  let session_metadata := load_metadata st in
  let similar_items := shown_items current_similar_items previous_similar_items in
  build_prompt_or labels system_prompt message_ history_messages
    (similar_items_for_prompt session_metadata similar_items) session_metadata.

(** ** What the specification says, for comparison with the code *)

(** Section 4.1: zero matches, null; one match, a single amount; two or
    more, the first two as a range. *)
Definition spec_range_number (value : pyval) : pyval :=
  match findall_d3 (remove_commas (py_str value)) with
  | [] => PNone
  | [m] => PStr (pounds m)
  | lo :: hi :: _ => PStr (pounds lo ++ en_dash :: pounds hi)
  end.

(** Section 4.3: among the thresholds not exceeding the value, the score
    of the highest one; nothing when there is none. *)
Definition spec_threshold_score (max_val : Z) (thresholds scores : list Z) : Z :=
  let best :=
    fold_left (λ (best : option (Z * Z)) ts,
                 if (ts.1 <=? max_val)%Z then
                   match best with
                   | Some b => if (b.1 <=? ts.1)%Z then Some ts else best
                   | None => Some ts
                   end
                 else best)
              (zip thresholds scores) None in
  match best with
  | Some b => b.2
  | None => 0%Z
  end.

(** [a] occurs in [b]: what [a in b] decides. *)
Definition occurs_in (a b : pystr) : Prop := ∃ p q, b = p ++ a ++ q.

(** A profile value that is a string with something other than blanks. *)
Definition valid_value (metadata : gmap pystr pyval) (key : pystr) : Prop :=
  ∃ s, metadata !! key = Some (PStr s) ∧ strip s ≠ [].

Definition complete_profile (metadata : gmap pystr pyval) : Prop :=
  valid_value metadata (u "location")
  ∧ valid_value metadata (u "urgency")
  ∧ valid_value metadata (u "budget").

End Interpreter.

(** ** The merge, key by key

    What one pass of each loop leaves at a key, and the words the
    statements about the merge use. *)

(** What a pass of each loop leaves at one key. *)
Definition merge_value (old : option pyval) (value : pyval) : result (option pyval) :=
  match value with
  | PNone => Ok old
  | PList l =>
      both ← list_concat (default (PList []) old) l;
      uniq ← list_set both;
      Ok (Some (PList uniq))
  | _ => Ok (Some value)
  end.

Definition save_value (U : unicode) (existing_k : option pyval)
    (value : pyval) (old : option pyval) : result (option pyval) :=
  match value with
  | PNone => Ok old
  | PList l =>
      both ← list_concat (default (PList []) existing_k) l;
      uniq ← list_set both;
      Ok (Some (PList uniq))
  | _ => if blank_str value then Ok old else Ok (Some (PStr (py_str U value)))
  end.

Definition stored_value (U : unicode) (value : pyval) : option pyval :=
  match value with
  | PList (x :: l) => Some (PList (PStr <$> (py_str U <$> x :: l)))
  | PStr s => if bool_decide (strip s = []) then None else Some (PStr (strip s))
  | _ => None
  end.

(** [list(set(xs))] on strings: the elements in order of first occurrence. *)
Definition dedup_add (acc : list pystr) (x : pystr) : list pystr :=
  if bool_decide (x ∈ acc) then acc else acc ++ [x].

Definition dedup (xs : list pystr) : list pystr := fold_left dedup_add xs [].

Definition lead_key : pystr := u "lead_classification".

(** A profile value that is not empty: a string with more than blanks, or a
    list with an element. *)
Definition nonempty_value (v : pyval) : Prop :=
  match v with
  | PStr s => strip s ≠ []
  | PList l => l ≠ []
  | _ => False
  end.

(** An incoming value that is null or empty, or no value at all. *)
Definition incoming_empty (mv : option pyval) : Prop :=
  match mv with
  | None | Some PNone | Some (PList []) => True
  | Some (PStr s) => strip s = []
  | _ => False
  end.

(** The same string but for outer blanks; the same elements. *)
Definition same_content (v v' : pyval) : Prop :=
  match v, v' with
  | PStr s, PStr s' => strip s' = strip s
  | PList l, PList l' => ∀ x, x ∈ l' ↔ x ∈ l
  | _, _ => False
  end.

(** A value as the table holds it after a save: a stripped, non-blank
    string, or a non-empty list of distinct strings. *)
Definition persisted_value (v : pyval) : Prop :=
  (∃ s, v = PStr s ∧ strip s = s ∧ s ≠ [])
  ∨ (∃ l, v = PList (PStr <$> l) ∧ NoDup l ∧ l ≠ []).

Definition persisted_profile (P : gmap pystr pyval) : Prop :=
  ∀ k v, P !! k = Some v → persisted_value v.

(** A value a registered sanitizer returns: null, a string, a list of strings. *)
Definition sanitized_value (v : pyval) : Prop :=
  v = PNone ∨ (∃ s, v = PStr s) ∨ (∃ l, v = PList (PStr <$> l)).

Definition sanitized_metadata (M : gmap pystr pyval) : Prop :=
  ∀ k v, M !! k = Some v → sanitized_value v.

(** Two profiles with the same keys, the same strings and, as sets, the
    same lists. *)
Definition profile_equiv (P Q : gmap pystr pyval) : Prop :=
  ∀ k, match P !! k, Q !! k with
       | Some (PList a), Some (PList b) => ∀ x, x ∈ a ↔ x ∈ b
       | x, y => x = y
       end.

(** The two loops at one key, from the value the key had. *)
Definition merge_key (pk mk : option pyval) : result (option pyval) :=
  match mk with
  | Some v => merge_value pk v
  | None => Ok pk
  end.

Definition save_key (U : unicode) (pk v1 : option pyval) : result (option pyval) :=
  match v1 with
  | Some v => save_value U pk v pk
  | None => Ok pk
  end.

(** ** The range_number sanitizer under the interpreter's limit on int conversion

    [int] of a str and [str] of an int raise ValueError when the number has
    more digits than [sys.get_int_max_str_digits()]: 4300 unless
    configured, 0 where the limit is switched off (or the interpreter
    predates it), and never another value under 640.  Numbers of up to 640
    digits are not checked.  [sanitize_range_number] above is the function
    as long as nothing in its [try] raises; the definitions here add the
    [try] and what raises in it. *)

(** A number of [digits] digits converts. *)
Definition fits (max_str_digits digits : nat) : bool :=
  (digits <=? 640)%nat || (max_str_digits =? 0)%nat || (digits <=? max_str_digits)%nat.

(** [str(v)] returns: no int printed in it has too many digits. *)
Fixpoint str_returns (max_str_digits : nat) (v : pyval) : bool :=
  match v with
  | PInt z => fits max_str_digits (length (decimal (Z.abs_N z)))
  | PList l => forallb (str_returns max_str_digits) l
  | PDict d =>
      forallb (λ kv, match kv with (_, w) => str_returns max_str_digits w end) d
  | _ => true
  end.

(** [str(value)] and [int(m)] inside the [try]: [None] is the ValueError
    the [except] swallows. *)
Definition str_in_try (U : unicode) (max_str_digits : nat) (value : pyval)
    : option pystr :=
  if str_returns max_str_digits value then Some (py_str U value) else None.

Definition int_in_try (U : unicode) (max_str_digits : nat) (m : pystr)
    : option N :=
  if fits max_str_digits (length m) then Some (int_of_digits U m) else None.

(** [sanitize_range_number(value)], lines 33-43: the [try] returns for two
    matches and for one; an exception in it, or any other number of
    matches, leads to the [return None] after it. *)
Definition sanitize_range_number_limited (U : unicode) (max_str_digits : nat)
    (value : pyval) : pyval :=
  if negb (truthy value) then PNone
  else
    default PNone
      (str_val ← str_in_try U max_str_digits value;
       match findall_d3 U (remove_commas str_val) with
       | [lo; hi] =>
           low ← int_in_try U max_str_digits lo;
           high ← int_in_try U max_str_digits hi;
           Some (PStr (pound :: thousands low ++ en_dash :: pound :: thousands high))
       | [m] =>
           n ← int_in_try U max_str_digits m;
           Some (PStr (pound :: thousands n))
       | _ => None
       end).

(** ** The context assembler with the outcome of [format_history_or]

    [build_prompt_or] calls [format_history_or(history)] right after the
    system message (line 138).  That function decodes the stored messages
    with [json.loads] and reads the result as a dict; on a stored message
    that decodes to something else it raises, and nothing catches it.
    [formatted] is the outcome of that call: the messages it returns, or
    the exception it raises, which ends [build_prompt_or] before the
    profile and the listings are looked at. *)
Definition build_prompt_or_with_history (U : unicode) (labels : field_schema)
    (system_prompt current_message : pystr) (formatted : result (list message))
    (similar_items : list fact) (session_metadata : gmap pystr pyval)
    : result (list message) :=
  history_messages ← formatted;
  build_prompt_or U labels system_prompt current_message history_messages
    similar_items session_metadata.

Definition turn_prompt_with_history (U : unicode) (labels : field_schema)
    (system_prompt message_ : pystr) (formatted : result (list message)) (st : store)
    (current_similar_items previous_similar_items : list fact)
    : result (list message) :=
  let session_metadata := load_metadata st in
  let similar_items := shown_items current_similar_items previous_similar_items in
  build_prompt_or_with_history U labels system_prompt message_ formatted
    (similar_items_for_prompt session_metadata similar_items) session_metadata.

(** ** The merge with the order of a set left open

    [list(set(xs))] gives the elements of the set in an order the
    interpreter chooses: it follows the hashes, and those of a str change
    from one process to the next.  [order] stands for that choice, a
    function that rearranges the list of the elements; the definitions
    below are [merge_entry], [save_entry], [save_metadata] and
    [merge_and_save] with that choice made explicit, and the ones above
    are the case [first_seen]. *)
Definition set_order : Type := list pyval → list pyval.

Definition reorders (order : set_order) : Prop := ∀ xs, order xs ≡ₚ xs.

Definition first_seen : set_order := λ xs, xs.

Definition reversed : set_order := reverse.

Definition list_set_by (order : set_order) (xs : list pyval) : result (list pyval) :=
  if forallb hashable xs then Ok (order (fold_left set_add xs [])) else Raise TypeError.

Definition merge_entry_by (order : set_order) (key : pystr) (value : pyval)
    (merged : gmap pystr pyval) : result (gmap pystr pyval) :=
  match value with
  | PNone => Ok merged
  | PList l =>
      both ← list_concat (default (PList []) (merged !! key)) l;
      uniq ← list_set_by order both;
      Ok (<[key := PList uniq]> merged)
  | _ => Ok (<[key := value]> merged)
  end.

Definition merge_new_metadata_by (order : set_order)
    (existing_metadata new_metadata : gmap pystr pyval) : result (gmap pystr pyval) :=
  for_items new_metadata (merge_entry_by order) existing_metadata.

Definition save_entry_by (U : unicode) (order : set_order) (existing : gmap pystr pyval)
    (key : pystr) (value : pyval) (merged : gmap pystr pyval)
    : result (gmap pystr pyval) :=
  match value with
  | PNone => Ok merged
  | PList l =>
      both ← list_concat (default (PList []) (existing !! key)) l;
      uniq ← list_set_by order both;
      Ok (<[key := PList uniq]> merged)
  | _ =>
      if blank_str value then Ok merged
      else Ok (<[key := PStr (py_str U value)]> merged)
  end.

Definition save_metadata_by (U : unicode) (order : set_order) (user_id now : pystr)
    (st : store) (new_metadata : gmap pystr pyval) : result store :=
  let existing := load_metadata st in
  merged ← for_items new_metadata (save_entry_by U order existing) existing;
  Ok (Some (build_item U user_id now merged)).

Definition merge_and_save_by (U : unicode) (order : set_order) (schema : field_schema)
    (user_id now : pystr) (st : store) (new_metadata : gmap pystr pyval)
    : result store :=
  let existing_metadata := load_metadata st in
  merged ← merge_new_metadata_by order existing_metadata new_metadata;
  tag ← classify_lead U merged schema;
  save_metadata_by U order user_id now st (<[u "lead_classification" := PStr tag]> merged).

(** What a pass of each loop leaves at one key. *)
Definition merge_value_by (order : set_order) (old : option pyval) (value : pyval)
    : result (option pyval) :=
  match value with
  | PNone => Ok old
  | PList l =>
      both ← list_concat (default (PList []) old) l;
      uniq ← list_set_by order both;
      Ok (Some (PList uniq))
  | _ => Ok (Some value)
  end.

Definition save_value_by (U : unicode) (order : set_order) (existing_k : option pyval)
    (value : pyval) (old : option pyval) : result (option pyval) :=
  match value with
  | PNone => Ok old
  | PList l =>
      both ← list_concat (default (PList []) existing_k) l;
      uniq ← list_set_by order both;
      Ok (Some (PList uniq))
  | _ => if blank_str value then Ok old else Ok (Some (PStr (py_str U value)))
  end.

Definition merge_key_by (order : set_order) (pk mk : option pyval)
    : result (option pyval) :=
  match mk with
  | Some v => merge_value_by order pk v
  | None => Ok pk
  end.

Definition save_key_by (U : unicode) (order : set_order) (pk v1 : option pyval)
    : result (option pyval) :=
  match v1 with
  | Some v => save_value_by U order pk v pk
  | None => Ok pk
  end.

(** The same entry of two profiles: the same value, or lists with the
    same elements. *)
Definition entry_equiv (x y : option pyval) : Prop :=
  match x, y with
  | Some (PList a), Some (PList b) => ∀ v, v ∈ a ↔ v ∈ b
  | _, _ => x = y
  end.

(** An entry of a profile in the making: nothing, or a sanitized value. *)
Definition sanitized_entry (x : option pyval) : Prop :=
  ∀ v, x = Some v → sanitized_value v.

(** No field the classifier scores holds a list. *)
Definition scored_scalar (schema : field_schema) (P : gmap pystr pyval) : Prop :=
  ∀ k config l, (k, config) ∈ metadata_fields schema →
    is_Some (fc_weights config) → P !! k ≠ Some (PList l).

(** ** Words of the further statements *)

(** An ASCII digit. *)
Definition ascii_digit (c : N) : Prop := 48 ≤ c ≤ 57.

(** The value [validate_metadata] stores for a field: the dispatch of the
    loop body, without the assignment. *)
Definition field_value (U : unicode) (config : field_config) (value : pyval)
    : result pyval :=
  match fc_choices config with
  | Some choices => Ok (normalize_choice U value choices)
  | None =>
      match FIELD_SANITIZERS U (default (u "string") (fc_type config)) with
      | Some sanitizer => sanitizer value
      | None => Ok value
      end
  end.

(** A raw value [sanitize_type] cannot take: a list whose first element is
    no string, for a field of type [type] without choices. *)
Definition bad_type_value (config : field_config) (value : pyval) : Prop :=
  fc_choices config = None
  ∧ default (u "string") (fc_type config) = u "type"
  ∧ ∃ first rest, value = PList (first :: rest) ∧ ∀ s, first ≠ PStr s.

(** A field with choices or with one of the four registered types. *)
Definition registered (config : field_config) : Prop :=
  is_Some (fc_choices config)
  ∨ default (u "string") (fc_type config)
    ∈ [u "range_number"; u "list"; u "type"; u "string"].

(** The three tags, and a weight table the categorical loop can add up. *)
Definition tiers : list pystr := [u "Hot"; u "Warm"; u "Cold"].

Definition numeric_table (config : field_config) : Prop :=
  ∀ weights, fc_weights config = Some weights →
    Forall (λ entry, ∃ w, entry.2 = WNum w) weights
    ∨ (fc_type config = Some (u "range_number")
       ∧ is_Some (dict_get (u "thresholds") weights)).

(** The stores a conversation can leave behind: the empty table, and what
    a turn of [update_and_save_metadata] leaves of such a store. *)
Inductive reachable (U : unicode) (schema : field_schema) : store → Prop :=
  | reachable_empty : reachable U schema None
  | reachable_turn (st : store) (user_id now : pystr) (raw : gmap pystr pyval) :
      reachable U schema st →
      sanitized_value (default PNone (raw !! u "session_id")) →
      reachable U schema
        (store_after st (update_and_save_metadata U schema user_id now st raw)).

(** A list with an element that is no string: what [", ".join] refuses. *)
Definition mixed_list (value : pyval) : Prop :=
  ∃ l x, value = PList l ∧ x ∈ l ∧ ∀ s, x ≠ PStr s.

(** An interpreter table that knows ASCII only; closed examples use it. *)
Definition ascii_only : unicode :=
  {| udigit := λ _, None; ulower := λ s, s; urepr := λ s, 39 :: s ++ [39];
     uint := λ _, None |}.

(** Schemas and inputs of the closed examples. *)
Definition budget_config : field_config :=
  {| fc_type := Some (u "range_number"); fc_choices := None;
     fc_weights := Some [(u "thresholds", WSeq [100000; 200000]%Z);
                         (u "scores", WSeq [1; 2]%Z)] |}.

Definition kind_config : field_config :=
  {| fc_type := Some (u "type"); fc_choices := None; fc_weights := None |}.

Definition example_schema : field_schema :=
  {| metadata_fields := [(u "budget", budget_config); (u "property_type", kind_config)];
     lead_score_thresholds := None;
     display_fields := [];
     context_labels := [(u "budget", u "Budget")] |}.

Definition sum_Z (l : list Z) : Z := foldr Z.add 0%Z l.

Definition park_lane : fact :=
  {| external_id := u "LS-1001"; address := u "12 Park Lane, Leeds";
     other_fields := [(u "price", PInt 250000)] |}.

(** A stored profile with a location only. *)
Definition leeds_only : store :=
  Some (<[u "location" := AS (u "Leeds")]>
         (<[u "timestamp" := AS (u "2025-04-20T12:34:56+00:00")]>
           {[ u "user_id" := AS (u "u1") ]})).

Definition listing_schema : field_schema :=
  {| metadata_fields := [];
     lead_score_thresholds := None;
     display_fields :=
       [ {| df_key := u "address"; df_label := u "Address"; df_prefix := None;
            df_suffix := None; df_format := None |};
         {| df_key := u "price"; df_label := u "Price"; df_prefix := Some [pound];
            df_suffix := None; df_format := Some (u "number") |};
         {| df_key := u "bedrooms"; df_label := u "Bedrooms"; df_prefix := None;
            df_suffix := None; df_format := None |} ];
     context_labels := [] |}.

(** A schema with a budget, a field with choices and a list field. *)
Definition urgency_config : field_config :=
  {| fc_type := Some (u "string");
     fc_choices := Some [u "High"; u "Medium"; u "Low"];
     fc_weights := Some [(u "high", WNum 2); (u "medium", WNum 1)] |}.

Definition features_config : field_config :=
  {| fc_type := Some (u "list"); fc_choices := None; fc_weights := None |}.

Definition lead_schema : field_schema :=
  {| metadata_fields := [(u "budget", budget_config); (u "urgency", urgency_config);
                         (u "features", features_config)];
     lead_score_thresholds := None;
     display_fields := [];
     context_labels := [(u "budget", u "Budget"); (u "features", u "Features")] |}.

(** What the extractor returned for a turn, and what the sanitizers make of it. *)
Definition keen_raw : gmap pystr pyval :=
  <[u "budget" := PInt 250000]> {[ u "urgency" := PStr (u " medium ") ]}.

Definition keen_metadata : gmap pystr pyval :=
  <[u "features" := PList []]>
    (<[u "urgency" := PStr (u "Medium")]>
      (<[u "budget" := PStr (pound :: u "250,000")]>
        {[ u "session_id" := PNone ]})).

(** A stored profile with a list. *)
Definition garden_flat : store :=
  Some (<[u "features" := ASS [u "garden"]]>
         (<[u "timestamp" := AS (u "2025-04-20T12:34:56+00:00")]>
           {[ u "user_id" := AS (u "u1") ]})).

(** A listing that came without an address. *)
Definition no_address : fact :=
  {| external_id := u "LS-1002"; address := []; other_fields := [] |}.

(** A schema that declares the tag's key as a field, scored on the tag. *)
Definition tag_config : field_config :=
  {| fc_type := Some (u "string"); fc_choices := None;
     fc_weights := Some [(u "cold", WNum 5)] |}.

Definition tag_schema : field_schema :=
  {| metadata_fields := [(u "lead_classification", tag_config)];
     lead_score_thresholds := None;
     display_fields := [];
     context_labels := [] |}.

(** A schema that scores the urgency, and a stored profile it tags Hot. *)
Definition urgency_scored : field_config :=
  {| fc_type := Some (u "string"); fc_choices := None;
     fc_weights := Some [(u "high", WNum 3)] |}.

Definition urgency_schema : field_schema :=
  {| metadata_fields := [(u "urgency", urgency_scored)];
     lead_score_thresholds := None;
     display_fields := [];
     context_labels := [] |}.

Definition hot_lead : store :=
  Some (<[u "lead_classification" := AS (u "Hot")]>
         (<[u "urgency" := AS (u "high")]>
           (<[u "timestamp" := AS (u "2025-04-20T12:34:56+00:00")]>
             {[ u "user_id" := AS (u "u1") ]}))).

(** * Properties *)

Section Properties.

Context (U : unicode).

(** ** The range_number sanitizer *)

Lemma falsy_no_match (value : pyval) :
  truthy value = false → findall_d3 U (remove_commas (py_str U value)) = [].
Proof.
  destruct value as [|[]|z|s|l|d]; simpl; try discriminate; try reflexivity.
  - intros Hz. apply negb_false_iff, Z.eqb_eq in Hz. subst z. reflexivity.
  - intros Hs. apply negb_false_iff, bool_decide_eq_true in Hs. subst s. reflexivity.
  - intros Hl. apply negb_false_iff, bool_decide_eq_true in Hl. subst l. reflexivity.
  - intros Hd. apply negb_false_iff, bool_decide_eq_true in Hd. subst d. reflexivity.
Qed.

Lemma falsy_str_returns (max_str_digits : nat) (value : pyval) :
  truthy value = false → str_returns max_str_digits value = true.
Proof.
  destruct value as [|[]|z|s|l|d]; simpl; try done.
  - intros Hz. apply negb_false_iff, Z.eqb_eq in Hz. by subst z.
  - intros Hl. apply negb_false_iff, bool_decide_eq_true in Hl. by subst l.
  - intros Hd. apply negb_false_iff, bool_decide_eq_true in Hd. by subst d.
Qed.

Lemma fits_no_limit (digits : nat) : fits 0 digits = true.
Proof. unfold fits. by destruct (digits <=? 640)%nat. Qed.

Lemma str_returns_no_limit (value : pyval) : str_returns 0 value = true.
Proof.
  revert value. fix str_returns_no_limit 1.
  intros value. destruct value as [| | | |l|d]; simpl; try done.
  - apply fits_no_limit.
  - induction l as [|v l IH]; simpl; [done|].
    by rewrite str_returns_no_limit.
  - induction d as [|[k w] d IH]; simpl; [done|].
    by rewrite str_returns_no_limit.
Qed.

(** Without a limit, and with one that every number meets, the function
    is [sanitize_range_number]. *)
Lemma sanitize_range_number_no_limit (value : pyval) :
  sanitize_range_number_limited U 0 value = sanitize_range_number U value.
Proof.
  unfold sanitize_range_number_limited, sanitize_range_number, str_in_try, int_in_try.
  destruct (negb (truthy value)); [done|].
  assert (H : str_returns 0 value = true) by apply str_returns_no_limit.
  rewrite H. simpl.
  destruct (findall_d3 U _) as [|lo [|hi [|]]]; try done; by rewrite !fits_no_limit.
Qed.

Lemma sanitize_range_number_within (max_str_digits : nat) (value : pyval) :
  str_returns max_str_digits value = true →
  Forall (λ m, fits max_str_digits (length m) = true)
         (findall_d3 U (remove_commas (py_str U value))) →
  sanitize_range_number_limited U max_str_digits value = sanitize_range_number U value.
Proof.
  intros Hstr Hfit.
  unfold sanitize_range_number_limited, sanitize_range_number, str_in_try, int_in_try.
  destruct (negb (truthy value)); [done|]. rewrite Hstr. simpl.
  destruct (findall_d3 U _) as [|lo [|hi [|]]]; try done.
  - apply Forall_cons in Hfit as [-> _]. done.
  - apply Forall_cons in Hfit as [-> Hfit]. apply Forall_cons in Hfit as [-> _]. done.
Qed.

(** C3 (as amended): the sanitizer is decided by the runs of three or more
    digits found once the commas are gone: none gives null, one a single
    amount, exactly two a low-high range, three or more null again; and
    null as well when the value or a run it converts has more digits than
    the interpreter's limit on int conversion.  The three inputs the
    specification names give the results it names. *)
Theorem sanitize_range_number_by_matches :
  (∀ (max_str_digits : nat) (value : pyval),
     sanitize_range_number_limited U max_str_digits value =
     if str_returns max_str_digits value then
       match findall_d3 U (remove_commas (py_str U value)) with
       | [] => PNone
       | [m] =>
           if fits max_str_digits (length m)
           then PStr (pound :: thousands (int_of_digits U m))
           else PNone
       | [lo; hi] =>
           if fits max_str_digits (length lo) && fits max_str_digits (length hi)
           then PStr (pound :: thousands (int_of_digits U lo)
                      ++ en_dash :: pound :: thousands (int_of_digits U hi))
           else PNone
       | _ :: _ :: _ :: _ => PNone
       end
     else PNone)
  ∧ sanitize_range_number_limited U 4300 (PStr (u "250,000"))
    = PStr (pound :: u "250,000")
  ∧ sanitize_range_number_limited U 4300 (PStr (u "between 250000 and 300,000"))
    = PStr (pound :: u "250,000" ++ en_dash :: pound :: u "300,000")
  ∧ sanitize_range_number_limited U 4300 (PStr (u "no numbers")) = PNone.
Proof.
  split; [|repeat split; vm_compute; reflexivity].
  intros max_str_digits value.
  unfold sanitize_range_number_limited, str_in_try, int_in_try.
  destruct (truthy value) eqn:Ht; simpl.
  - destruct (str_returns max_str_digits value); [|done]. simpl.
    destruct (findall_d3 U _) as [|m [|hi [|]]]; try done.
    + by destruct (fits max_str_digits (length m)).
    + by destruct (fits max_str_digits (length m)), (fits max_str_digits (length hi)).
  - rewrite falsy_str_returns, falsy_no_match by done. reflexivity.
Qed.

(** ** The sanitizer as a whole *)

Lemma validate_field_dom raw metadata entry metadata' :
  validate_field U raw metadata entry = Ok metadata' →
  dom metadata' = {[ entry.1 ]} ∪ dom metadata.
Proof.
  destruct entry as [field config]. unfold validate_field. simpl.
  destruct (fc_choices config) as [choices|].
  - intros [= <-]. apply dom_insert_L.
  - destruct (FIELD_SANITIZERS U _) as [sanitizer|].
    + destruct (sanitizer _) as [v|e]; simpl; [|discriminate].
      intros [= <-]. apply dom_insert_L.
    + intros [= <-]. apply dom_insert_L.
Qed.

Lemma validate_fields_dom raw fields : ∀ metadata metadata',
  validate_fields U raw metadata fields = Ok metadata' →
  dom metadata' = list_to_set fields.*1 ∪ dom metadata.
Proof.
  induction fields as [|entry rest IH]; intros metadata metadata'; simpl.
  - intros [= <-]. set_solver.
  - destruct (validate_field U raw metadata entry) as [m1|e] eqn:Hstep; simpl;
      [|discriminate].
    intros Hrest. rewrite (IH _ _ Hrest), (validate_field_dom _ _ _ _ Hstep).
    set_solver.
Qed.

(** C8 (as amended): the keys of the sanitized metadata are the fixed key
    session_id and the fields the schema declares, and no other. *)
Theorem validate_metadata_keys (schema : field_schema)
    (raw metadata : gmap pystr pyval) :
  validate_metadata U schema raw = Ok metadata →
  dom metadata = {[ u "session_id" ]} ∪ list_to_set (metadata_fields schema).*1.
Proof.
  unfold validate_metadata. intros H.
  rewrite (validate_fields_dom _ _ _ _ H), dom_singleton_L. set_solver.
Qed.

(** C9: a field of type [type] whose raw value is a list starting with an
    int makes the sanitizer raise AttributeError. *)
Theorem validate_metadata_raises :
  validate_metadata U example_schema {[ u "property_type" := PList [PInt 1] ]}
  = Raise AttributeError.
Proof. vm_compute. reflexivity. Qed.

(** ** The classifier's threshold tables *)

Lemma add_threshold_scores_sum max_val thresholds scores score :
  add_threshold_scores max_val thresholds scores score
  = (score + sum_Z (snd <$> filter (λ ts, (ts.1 ≤ max_val)%Z) (zip thresholds scores)))%Z.
Proof.
  unfold add_threshold_scores.
  generalize (zip thresholds scores) as pairs. intros pairs. revert score.
  induction pairs as [|[t s] pairs IH]; intros score; simpl.
  - lia.
  - rewrite IH. rewrite filter_cons. simpl.
    destruct (Z.leb_spec t max_val); destruct (decide (t ≤ max_val)%Z); try lia.
    rewrite fmap_cons. simpl. apply eq_sym, Z.add_assoc.
Qed.

(** C2 (as amended): for a range_number field with a threshold table and a
    string value, the classifier reads the last number of the string and
    adds the scores of all the thresholds not exceeding it, paired in
    order; a string without a number adds nothing. *)
Theorem classify_lead_threshold_score (metadata : gmap pystr pyval)
    (key : pystr) (config : field_config) (weights : list (pystr * wval))
    (thresholds scores : list Z) (v : pystr) (score : Z) :
  fc_type config = Some (u "range_number") →
  fc_weights config = Some weights →
  dict_get (u "thresholds") weights = Some (WSeq thresholds) →
  dict_get (u "scores") weights = Some (WSeq scores) →
  metadata !! key = Some (PStr v) →
  score_field U metadata score (key, config)
  = Ok (score +
        match last (findall_d3 U (remove_commas v)) with
        | Some m =>
            sum_Z (snd <$> filter (λ ts, (ts.1 ≤ Z.of_N (int_of_digits U m))%Z)
                                  (zip thresholds scores))
        | None => 0
        end)%Z.
Proof.
  intros Htype Hweights Hth Hsc Hval. unfold score_field.
  rewrite Hval, Hweights, Htype, Hth, Hsc. simpl.
  destruct (bool_decide (v = [])) eqn:Hv; simpl.
  - apply bool_decide_eq_true in Hv. subst v. simpl. f_equal. lia.
  - destruct (last _) as [m|]; [|f_equal; lia].
    by rewrite add_threshold_scores_sum.
Qed.

(** ** The grounding verifier *)

Lemma starts_with_spec (a b : pystr) :
  starts_with a b = true ↔ ∃ q, b = a ++ q.
Proof.
  revert b. induction a as [|x a IH]; intros b; simpl.
  - split; [eauto|done].
  - destruct b as [|y b].
    + split; [done|]. intros [q Hq]. discriminate.
    + rewrite andb_true_iff, N.eqb_eq, IH. split.
      * intros [-> [q ->]]. eauto.
      * intros [q [= -> ->]]. eauto.
Qed.

Lemma py_in_spec (a b : pystr) : py_in a b = true ↔ occurs_in a b.
Proof.
  unfold occurs_in. induction b as [|y b IH]; simpl.
  - rewrite orb_false_r, starts_with_spec. split.
    + intros [q ->]. by exists [], q.
    + intros [p [q Hpq]]. symmetry in Hpq.
      apply app_eq_nil in Hpq as [-> Hpq]. apply app_eq_nil in Hpq as [-> ->].
      by exists [].
  - rewrite orb_true_iff, starts_with_spec, IH. split.
    + intros [[q ->]|[p [q ->]]]; [by exists [], q|by exists (y :: p), q].
    + intros [[|z p] [q Hpq]]; simpl in Hpq.
      * left. eauto.
      * injection Hpq as -> ->. right. eauto.
Qed.

Lemma existsb_py_in (candidates : list pystr) (text : pystr) :
  existsb (λ c, py_in c text) candidates = true
  ↔ ∃ c, c ∈ candidates ∧ occurs_in c text.
Proof.
  rewrite existsb_exists. setoid_rewrite py_in_spec.
  by setoid_rewrite <- list_elem_of_In.
Qed.

Lemma accept_unless (q1 q2 k w mm : bool) (Q1 Q2 K W : Prop) :
  (q1 = true ↔ Q1) → (q2 = true ↔ Q2) → (k = true ↔ K) → (w = true ↔ W) →
  (if q1 && q2 then true else if k then true else if w then negb mm else true) = false
  ↔ ¬ (Q1 ∧ Q2) ∧ ¬ K ∧ W ∧ mm = true.
Proof.
  intros H1 H2 H3 H4.
  destruct q1, q2, k, w, mm; simpl; intuition discriminate.
Qed.

Lemma mentions_known_spec (items : list fact) (reply_lower : pystr) :
  existsb (λ addr, py_in addr reply_lower) ((λ h, lower U (address h)) <$> items)
  || existsb (λ ext_id, py_in ext_id reply_lower)
       ((λ h, lower U (external_id h)) <$> items) = true
  ↔ ∃ h, h ∈ items ∧ (occurs_in (lower U (external_id h)) reply_lower
                       ∨ occurs_in (lower U (address h)) reply_lower).
Proof.
  rewrite orb_true_iff, !existsb_py_in. split.
  - intros [[c [Hc Hin]]|[c [Hc Hin]]];
      apply list_elem_of_fmap in Hc as [h [-> Hh]]; eauto.
  - intros [h [Hh [Hin|Hin]]]; [right|left];
      eexists; (split; [apply list_elem_of_fmap; eauto|done]).
Qed.

(** C7 (as amended): the verifier rejects a reply exactly when there are
    listings, the reply is no clarifying question ("would a" with "also
    work for you"), it contains no known identifier or address, it
    contains one of the listing words, and strict mode is set; any other
    reply is accepted.  Containment is between lower-cased strings. *)
Theorem is_reply_grounded_decision (reply_text : pystr)
    (similar_items : list fact) (must_match : bool) :
  is_reply_grounded U reply_text similar_items must_match = false
  ↔ similar_items ≠ []
    ∧ ¬ (occurs_in (u "would a") (lower U reply_text)
         ∧ occurs_in (u "also work for you") (lower U reply_text))
    ∧ ¬ (∃ h, h ∈ similar_items
              ∧ (occurs_in (lower U (external_id h)) (lower U reply_text)
                 ∨ occurs_in (lower U (address h)) (lower U reply_text)))
    ∧ (∃ keyword, keyword ∈ listing_keywords
                  ∧ occurs_in keyword (lower U reply_text))
    ∧ must_match = true.
Proof.
  unfold is_reply_grounded.
  destruct similar_items as [|h0 rest].
  { split; [discriminate|]. intros [Hne _]. done. }
  set (items := h0 :: rest).
  rewrite (accept_unless _ _ _ _ must_match
             _ _ _ _
             (py_in_spec (u "would a") (lower U reply_text))
             (py_in_spec (u "also work for you") (lower U reply_text))
             (mentions_known_spec items (lower U reply_text))
             (existsb_py_in listing_keywords (lower U reply_text))).
  split; [intros H; split; [done|exact H]|intros [_ H]; exact H].
Qed.

(** C10: without strict mode the verifier accepts every reply for every
    set of listings, and the turn keeps the generated reply. *)
Theorem is_reply_grounded_default (reply_text : pystr) (similar_items : list fact) :
  is_reply_grounded U reply_text similar_items false = true
  ∧ checked_reply U reply_text similar_items = reply_text.
Proof.
  assert (H : is_reply_grounded U reply_text similar_items false = true).
  { unfold is_reply_grounded. destruct similar_items; [done|].
    destruct (py_in _ _ && py_in _ _); [done|].
    destruct (existsb _ _ || existsb _ _); [done|].
    by destruct (existsb _ _). }
  split; [done|]. unfold checked_reply. by rewrite H.
Qed.

(** ** The context assembler and the gate on the profile *)

Lemma load_metadata_values (st : store) (key : pystr) (value : pyval) :
  load_metadata st !! key = Some value →
  (∃ s, value = PStr s) ∨ (∃ l, value = PList (PStr <$> l)).
Proof.
  destruct st as [item|]; simpl; [|by rewrite lookup_empty].
  rewrite map_lookup_imap. destruct (item !! key) as [a|]; simpl; [|done].
  unfold load_attr. destruct (control_key key); [done|].
  destruct a; intros [= <-]; eauto.
Qed.

Lemma str_items_strs (l : list pystr) : str_items (PStr <$> l) = Ok l.
Proof. induction l as [|s l IH]; csimpl; [done|]. by rewrite IH. Qed.

Lemma str_items_raise (l : list pyval) (e : exn) :
  str_items l = Raise e → e = TypeError.
Proof.
  induction l as [|v l IH]; simpl; [done|].
  destruct v; try (by intros [= <-]).
  destruct (str_items l); simpl; [done|]. intros [= <-]. by apply IH.
Qed.

Lemma preference_lines_loaded (labels : list (pystr * pystr)) (st : store) :
  ∃ lines, preference_lines U labels (load_metadata st) = Ok lines.
Proof.
  induction labels as [|[key label] rest [lines IH]]; simpl; [eauto|].
  rewrite IH.
  destruct (load_metadata st !! key) as [value|] eqn:Hkey; simpl; [|eauto].
  destruct (load_metadata_values _ _ _ Hkey) as [[s ->]|[l ->]].
  - destruct (truthy (PStr s)); simpl; eauto.
  - destruct (truthy _); [|eauto]. unfold preference_text.
    rewrite str_items_strs. simpl. eauto.
Qed.

Lemma preference_lines_raise labels metadata e :
  preference_lines U labels metadata = Raise e → e = TypeError.
Proof.
  induction labels as [|[key label] rest IH]; simpl; [done|].
  destruct (truthy _); [|done].
  destruct (preference_text U _) as [text|e1] eqn:Htext; simpl.
  - destruct (preference_lines U rest metadata); simpl; [done|].
    intros [= <-]. by apply IH.
  - intros [= <-]. unfold preference_text in Htext.
    destruct (default PNone (metadata !! key)); try discriminate.
    destruct (str_items l) eqn:Hl; simpl in Htext; [done|].
    injection Htext as <-. by apply (str_items_raise l).
Qed.

Lemma has_valid_value_spec (metadata : gmap pystr pyval) (key : pystr) :
  has_valid_value (default PNone (metadata !! key)) = true ↔ valid_value metadata key.
Proof.
  unfold valid_value. destruct (metadata !! key) as [[| | |s| |]|]; simpl;
    try (split; [discriminate|by intros [s' [[=] _]]]).
  rewrite negb_true_iff, bool_decide_eq_false. split.
  - intros Hs. eauto.
  - by intros [s' [[= <-] Hs]].
Qed.

Lemma inject_similar_items_spec (metadata : gmap pystr pyval) :
  inject_similar_items metadata = true ↔ complete_profile metadata.
Proof.
  unfold inject_similar_items, complete_profile.
  rewrite !andb_true_iff, !has_valid_value_spec. tauto.
Qed.

(** Up to the listings: the grounding message, if any, is built or raises
    TypeError itself. *)
Ltac through_grounding :=
  unfold build_prompt_or;
  destruct (bool_decide (_ = ∅)); simpl; [done|];
  unfold format_metadata_context_prompt;
  destruct (bool_decide (_ = ∅)); simpl; [done|];
  let Hlines := fresh "Hlines" in
  destruct (preference_lines _ _ _) as [lines|e] eqn:Hlines; simpl; [done|];
  by rewrite (preference_lines_raise _ _ _ Hlines).

(** C1: with one listing or more to show, the assembler raises TypeError
    where it formats them, whatever the profile, and builds no context:
    the call of [format_similar_items_or] lacks the schema argument. *)
Theorem build_prompt_or_with_listings_raises (labels : field_schema)
    (system_prompt current_message : pystr) (history_messages : list message)
    (h : fact) (rest : list fact) (session_metadata : gmap pystr pyval) :
  build_prompt_or U labels system_prompt current_message history_messages
    (h :: rest) session_metadata = Raise TypeError.
Proof.
  unfold build_prompt_or.
  destruct (bool_decide (session_metadata = ∅)); simpl; [done|].
  unfold format_metadata_context_prompt.
  destruct (bool_decide (session_metadata = ∅)); simpl; [done|].
  destruct (preference_lines U _ _) as [lines|e] eqn:Hlines; simpl; [done|].
  by rewrite (preference_lines_raise _ _ _ Hlines).
Qed.

(** The same at the level of the turn: a complete profile and a listing
    found or shown before end the turn in that exception. *)
Lemma turn_prompt_with_listings_raises (labels : field_schema)
    (system_prompt message_ : pystr) (history_messages : list message) (st : store)
    (current_similar_items previous_similar_items : list fact) :
  complete_profile (load_metadata st) →
  shown_items current_similar_items previous_similar_items ≠ [] →
  turn_prompt U labels system_prompt message_ history_messages st
    current_similar_items previous_similar_items = Raise TypeError.
Proof.
  intros Hcomplete Hshown. unfold turn_prompt, similar_items_for_prompt.
  apply inject_similar_items_spec in Hcomplete. rewrite Hcomplete.
  destruct (shown_items _ _) as [|h rest]; [done|].
  through_grounding.
Qed.

(** Without listings, and with a profile read from the table, the context
    is built from any formatted history and holds the no-listings message. *)
Lemma build_prompt_or_no_listings (labels : field_schema)
    (system_prompt current_message : pystr) (history_messages : list message)
    (st : store) :
  ∃ context,
    build_prompt_or U labels system_prompt current_message history_messages []
      (load_metadata st) = Ok context
    ∧ Message (u "user") no_listings ∈ context.
Proof.
  unfold build_prompt_or, format_metadata_context_prompt.
  destruct (preference_lines_loaded (context_labels labels) st) as [lines ->].
  destruct (bool_decide (load_metadata st = ∅)); simpl;
    match goal with
    | |- context [last ?l] => destruct (last l) as [[r c]|]
    end;
    try destruct (bool_decide _ && bool_decide _);
    eexists; (split; [reflexivity|]); set_solver.
Qed.

(** C4: listings reach the assembler only when the profile read back has
    non-blank string values for location, urgency and budget; when one of
    the three is missing or blank and the history is formatted, the
    context is built and holds the user-role message that no listings are
    available and none may be invented.  When the history cannot be
    formatted the turn ends in that exception, with or without listings. *)
Theorem listings_only_for_complete_profile (labels : field_schema)
    (system_prompt message_ : pystr) (formatted : result (list message)) (st : store)
    (current_similar_items previous_similar_items : list fact) :
  (similar_items_for_prompt (load_metadata st)
     (shown_items current_similar_items previous_similar_items) ≠ []
   → complete_profile (load_metadata st))
  ∧ (¬ complete_profile (load_metadata st) →
     match formatted with
     | Ok history_messages =>
         ∃ context,
           turn_prompt_with_history U labels system_prompt message_ formatted st
             current_similar_items previous_similar_items = Ok context
           ∧ Message (u "user") no_listings ∈ context
     | Raise e =>
         turn_prompt_with_history U labels system_prompt message_ formatted st
           current_similar_items previous_similar_items = Raise e
     end).
Proof.
  split.
  - unfold similar_items_for_prompt.
    destruct (inject_similar_items _) eqn:Hgate; [|done].
    intros _. by apply inject_similar_items_spec.
  - intros Hincomplete. destruct formatted as [history_messages|e]; [|done].
    unfold turn_prompt_with_history, build_prompt_or_with_history,
      similar_items_for_prompt.
    destruct (inject_similar_items _) eqn:Hgate.
    { by apply inject_similar_items_spec in Hgate. }
    apply build_prompt_or_no_listings.
Qed.

End Properties.

(** * The profile merge *)

(** ** Blank strings *)

Lemma lstrip_nil (s : pystr) : lstrip s = [] ↔ Forall (λ c, is_space c = true) s.
Proof.
  induction s as [|c s IH]; simpl; [by split|].
  destruct (is_space c) eqn:Hc.
  - rewrite IH. split; [by constructor|by inversion 1].
  - split; [done|]. inversion 1; congruence.
Qed.

Lemma lstrip_head (s : pystr) :
  match lstrip s with [] => True | c :: _ => is_space c = false end.
Proof.
  induction s as [|c s IH]; simpl; [done|]. by destruct (is_space c) eqn:Hc.
Qed.

Lemma lstrip_fixed (c : N) (s : pystr) : is_space c = false → lstrip (c :: s) = c :: s.
Proof. intros Hc. simpl. by rewrite Hc. Qed.

Lemma strip_nil (s : pystr) : strip s = [] ↔ Forall (λ c, is_space c = true) s.
Proof.
  unfold strip, rstrip. rewrite <- lstrip_nil.
  split.
  - intros H. apply (f_equal (@rev N)) in H. rewrite rev_involutive in H. simpl in H.
    apply lstrip_nil in H. rewrite Forall_forall in H.
    pose proof (lstrip_head s) as Hh. destruct (lstrip s) as [|c t]; [done|].
    rewrite H in Hh; [done|]. apply list_elem_of_In, in_rev. rewrite rev_involutive. by left.
  - intros ->. done.
Qed.

Lemma lstrip_idemp (s : pystr) : lstrip (lstrip s) = lstrip s.
Proof.
  pose proof (lstrip_head s). destruct (lstrip s) as [|c t]; [done|].
  by apply lstrip_fixed.
Qed.

Lemma lstrip_suffix (s : pystr) : ∃ p, s = p ++ lstrip s ∧ Forall (λ c, is_space c = true) p.
Proof.
  induction s as [|c s (p & Hp & Hall)]; simpl; [by exists []|].
  destruct (is_space c) eqn:Hc.
  - exists (c :: p). split; [by rewrite Hp at 1|by constructor].
  - by exists [].
Qed.

(** Left stripping leaves a string that ends with a non-blank as it ends. *)
Lemma lstrip_app_nonspace (s : pystr) (c : N) (t : pystr) :
  is_space c = false → lstrip (s ++ c :: t) = lstrip s ++ c :: t.
Proof.
  intros Hc. induction s as [|d s IH]; simpl; [by rewrite Hc|].
  by destruct (is_space d).
Qed.

Lemma strip_head (s : pystr) :
  match strip s with [] => True | c :: _ => is_space c = false end.
Proof.
  unfold strip, rstrip.
  destruct (lstrip_suffix (rev (lstrip s))) as (p & Hp & Hall).
  apply (f_equal (@rev N)) in Hp. rewrite rev_involutive, rev_app_distr in Hp.
  pose proof (lstrip_head s) as Hs. rewrite Hp in Hs.
  by destruct (rev (lstrip (rev (lstrip s)))).
Qed.

Lemma strip_idemp (s : pystr) : strip (strip s) = strip s.
Proof.
  assert (Hl : lstrip (strip s) = strip s).
  { pose proof (strip_head s). destruct (strip s); [done|]. by apply lstrip_fixed. }
  unfold strip at 1. rewrite Hl. unfold strip, rstrip.
  by rewrite rev_involutive, lstrip_idemp.
Qed.

Lemma strip_cons_nonblank (s : pystr) :
  (∃ c, c ∈ s ∧ is_space c = false) → strip s ≠ [].
Proof.
  intros (c & Hin & Hc) Hnil. apply strip_nil in Hnil.
  rewrite Forall_forall in Hnil. specialize (Hnil c Hin). congruence.
Qed.

(** ** Numerals are not blank *)

Lemma uint_codes_digits (d : Decimal.uint) :
  Forall (λ c, is_space c = false) (uint_codes d).
Proof. induction d; simpl; constructor; done. Qed.

Lemma decimal_nonblank (n : N) : strip (decimal n) ≠ [].
Proof.
  apply strip_cons_nonblank. unfold decimal.
  pose proof (uint_codes_digits (N.to_uint n)) as Hd.
  assert (Hn : N.to_uint n ≠ Decimal.Nil).
  { destruct n; simpl; [done|]. apply DecimalPos.Unsigned.to_uint_nonnil. }
  destruct (N.to_uint n); try done; simpl in *;
    eexists; (split; [apply list_elem_of_here|by inversion Hd]).
Qed.

Lemma decimal_Z_nonblank (z : Z) : strip (decimal_Z z) ≠ [].
Proof.
  destruct z; simpl; try apply decimal_nonblank.
  apply strip_cons_nonblank. exists minus_sign. split; [apply list_elem_of_here|done].
Qed.

(** ** The loops, key by key *)

Section Loops.
Context (U : unicode).

Lemma for_items_lookup {A} (d : gmap pystr A)
    (body : pystr → A → gmap pystr pyval → result (gmap pystr pyval))
    (f : pystr → A → option pyval → result (option pyval))
    (init : gmap pystr pyval) :
  (∀ k v s, match f k v (s !! k) with
            | Ok w => ∃ s', body k v s = Ok s' ∧ s' !! k = w
                            ∧ ∀ j, j ≠ k → s' !! j = s !! j
            | Raise e => body k v s = Raise e
            end) →
  match for_items d body init with
  | Ok s => ∀ k, match d !! k with
                 | Some v => f k v (init !! k) = Ok (s !! k)
                 | None => s !! k = init !! k
                 end
  | Raise e => ∃ k v, d !! k = Some v ∧ f k v (init !! k) = Raise e
  end.
Proof.
  intros Hbody. unfold for_items.
  apply (map_fold_weak_ind (λ r m,
    match r with
    | Ok s => ∀ k, match m !! k with
                   | Some v => f k v (init !! k) = Ok (s !! k)
                   | None => s !! k = init !! k
                   end
    | Raise e => ∃ k v, m !! k = Some v ∧ f k v (init !! k) = Raise e
    end)).
  - intros k. by rewrite lookup_empty.
  - intros i x m [s|e] Hi IH; simpl.
    + pose proof (IH i) as Hsi. rewrite Hi in Hsi.
      specialize (Hbody i x s). rewrite Hsi in Hbody.
      destruct (f i x (init !! i)) as [w|e] eqn:Hf.
      * destruct Hbody as (s' & -> & Hw & Hother). intros k.
        destruct (decide (k = i)) as [->|Hne].
        -- by rewrite lookup_insert_eq, Hw.
        -- rewrite lookup_insert_ne by done. rewrite Hother by done. apply IH.
      * rewrite Hbody. exists i, x. by rewrite lookup_insert_eq.
    + destruct IH as (k & v & Hk & Hf). exists k, v. split; [|done].
      rewrite lookup_insert_ne; [done|]. intros ->. congruence.
Qed.

Lemma merge_entry_keywise (k : pystr) (v : pyval) (s : gmap pystr pyval) :
  match merge_value (s !! k) v with
  | Ok w => ∃ s', merge_entry k v s = Ok s' ∧ s' !! k = w
                  ∧ ∀ j, j ≠ k → s' !! j = s !! j
  | Raise e => merge_entry k v s = Raise e
  end.
Proof.
  unfold merge_value, merge_entry.
  destruct v; try (eexists; split; [done|]; split;
                   [by rewrite ?lookup_insert_eq|intros j Hj; by rewrite ?lookup_insert_ne]).
  destruct (list_concat _ _) as [both|e]; simpl; [|done].
  destruct (list_set both) as [uniq|e]; simpl; [|done].
  eexists; split; [done|]; split;
    [by rewrite lookup_insert_eq|intros j Hj; by rewrite lookup_insert_ne].
Qed.

Lemma save_entry_keywise (existing : gmap pystr pyval) (k : pystr) (v : pyval)
    (s : gmap pystr pyval) :
  match save_value U (existing !! k) v (s !! k) with
  | Ok w => ∃ s', save_entry U existing k v s = Ok s' ∧ s' !! k = w
                  ∧ ∀ j, j ≠ k → s' !! j = s !! j
  | Raise e => save_entry U existing k v s = Raise e
  end.
Proof.
  unfold save_value, save_entry.
  destruct v; try destruct (blank_str _);
    try (eexists; split; [done|]; split;
         [by rewrite ?lookup_insert_eq|intros j Hj; by rewrite ?lookup_insert_ne]).
  destruct (list_concat _ _) as [both|e]; simpl; [|done].
  destruct (list_set both) as [uniq|e]; simpl; [|done].
  eexists; split; [done|]; split;
    [by rewrite lookup_insert_eq|intros j Hj; by rewrite lookup_insert_ne].
Qed.

Lemma merge_new_metadata_lookup (existing new : gmap pystr pyval) :
  match merge_new_metadata existing new with
  | Ok merged => ∀ k, match new !! k with
                      | Some v => merge_value (existing !! k) v = Ok (merged !! k)
                      | None => merged !! k = existing !! k
                      end
  | Raise e => ∃ k v, new !! k = Some v ∧ merge_value (existing !! k) v = Raise e
  end.
Proof.
  apply (for_items_lookup new merge_entry (λ _ v old, merge_value old v)).
  intros k v s. apply merge_entry_keywise.
Qed.

Lemma save_loop_lookup (existing new : gmap pystr pyval) :
  match for_items new (save_entry U existing) existing with
  | Ok merged => ∀ k, match new !! k with
                      | Some v => save_value U (existing !! k) v (existing !! k)
                                  = Ok (merged !! k)
                      | None => merged !! k = existing !! k
                      end
  | Raise e => ∃ k v, new !! k = Some v
                      ∧ save_value U (existing !! k) v (existing !! k) = Raise e
  end.
Proof.
  apply (for_items_lookup new (save_entry U existing) (λ k, save_value U (existing !! k))).
  intros k v s. apply save_entry_keywise.
Qed.

Lemma build_item_lookup (user_id now : pystr) (merged : gmap pystr pyval) (k : pystr) :
  control_key k = false →
  build_item U user_id now merged !! k
  = match merged !! k with
    | Some (PList (x :: l)) => Some (ASS (py_str U <$> x :: l))
    | Some (PStr s) => if bool_decide (strip s = []) then None else Some (AS (strip s))
    | _ => None
    end.
Proof.
  intros Hk. unfold build_item.
  assert (Hinit : (<[u "timestamp" := AS now]> {[ u "user_id" := AS user_id ]}
                    : gmap pystr attr) !! k = None).
  { unfold control_key in Hk. apply orb_false_iff in Hk as [H1 H2].
    apply bool_decide_eq_false in H1, H2.
    rewrite lookup_insert_ne by done. by rewrite lookup_singleton_ne. }
  revert Hinit. generalize (<[u "timestamp" := AS now]> {[ u "user_id" := AS user_id ]}
                             : gmap pystr attr).
  intros init Hinit.
  apply (map_fold_weak_ind (λ r m,
    r !! k = match m !! k with
             | Some (PList (x :: l)) => Some (ASS (py_str U <$> x :: l))
             | Some (PStr s) => if bool_decide (strip s = []) then None else Some (AS (strip s))
             | _ => None
             end)).
  - by rewrite lookup_empty.
  - intros i x m r Hi IH. destruct (decide (k = i)) as [->|Hne].
    + rewrite lookup_insert_eq. rewrite Hi in IH. unfold item_entry.
      destruct x as [| | |s|[|y l]|]; try done.
      * destruct (bool_decide (strip s = [])); [done|]. by rewrite lookup_insert_eq.
      * by rewrite lookup_insert_eq.
    + rewrite lookup_insert_ne by done. rewrite <- IH. unfold item_entry.
      destruct x as [| | |s|[|y l]|]; try done.
      * destruct (bool_decide (strip s = [])); [done|]. by rewrite lookup_insert_ne.
      * by rewrite lookup_insert_ne.
Qed.

Lemma load_metadata_control (st : store) (k : pystr) :
  control_key k = true → load_metadata st !! k = None.
Proof.
  intros Hk. destruct st as [item|]; simpl; [|by rewrite lookup_empty].
  rewrite map_lookup_imap. destruct (item !! k); simpl; [|done].
  unfold load_attr. by rewrite Hk.
Qed.

Lemma load_build_item (user_id now : pystr) (merged : gmap pystr pyval) (k : pystr) :
  load_metadata (Some (build_item U user_id now merged)) !! k
  = if control_key k then None else merged !! k ≫= stored_value U.
Proof.
  destruct (control_key k) eqn:Hk; [by apply load_metadata_control|].
  simpl. rewrite map_lookup_imap, build_item_lookup by done.
  unfold load_attr. rewrite Hk.
  destruct (merged !! k) as [[| | |s|[|y l]|]|]; simpl; try done.
  by destruct (bool_decide (strip s = [])).
Qed.

End Loops.

(** ** Sets of strings *)

Lemma existsb_py_eq_str (x : pystr) (acc : list pystr) :
  existsb (py_eq (PStr x)) (PStr <$> acc) = bool_decide (x ∈ acc).
Proof.
  induction acc as [|y acc IH]; csimpl.
  - first [done | symmetry; apply bool_decide_eq_false_2, not_elem_of_nil].
  - rewrite IH. destruct (decide (x = y)) as [->|Hne].
    + rewrite bool_decide_eq_true_2 by done. simpl. symmetry.
      apply bool_decide_eq_true. apply list_elem_of_here.
    + rewrite (bool_decide_eq_false_2 (x = y)) by done. simpl.
      apply bool_decide_ext. rewrite elem_of_cons. naive_solver.
Qed.

Lemma fold_set_add_strs (xs acc : list pystr) :
  fold_left set_add (PStr <$> xs) (PStr <$> acc) = PStr <$> fold_left dedup_add xs acc.
Proof.
  revert acc. induction xs as [|x xs IH]; intros acc; csimpl; [done|].
  unfold set_add at 2, dedup_add at 2. rewrite existsb_py_eq_str.
  destruct (bool_decide (x ∈ acc)); [apply IH|].
  rewrite <- IH. by rewrite fmap_app.
Qed.

Lemma list_set_strs (xs : list pystr) :
  list_set (PStr <$> xs) = Ok (PStr <$> dedup xs).
Proof.
  unfold list_set.
  assert (H : forallb hashable (PStr <$> xs) = true).
  { induction xs; csimpl; done. }
  rewrite H. f_equal. apply (fold_set_add_strs xs []).
Qed.

Lemma fold_dedup_absorb (xs acc : list pystr) :
  (∀ x, x ∈ xs → x ∈ acc) → fold_left dedup_add xs acc = acc.
Proof.
  induction xs as [|x xs IH]; intros Hin; simpl; [done|].
  unfold dedup_add at 2. rewrite bool_decide_eq_true_2 by (apply Hin; left).
  apply IH. intros y Hy. apply Hin. by right.
Qed.

Lemma fold_dedup_fresh (e acc : list pystr) :
  NoDup (acc ++ e) → fold_left dedup_add e acc = acc ++ e.
Proof.
  revert acc. induction e as [|x e IH]; intros acc Hnd; simpl.
  - by rewrite app_nil_r.
  - unfold dedup_add at 2.
    apply NoDup_app in Hnd as (Hacc & Hdisj & He).
    rewrite bool_decide_eq_false_2.
    + rewrite IH; [by rewrite <- app_assoc|].
      rewrite <- app_assoc. simpl. apply NoDup_app. split_and!; done.
    + intros Hx. apply (Hdisj x Hx). left.
Qed.

Lemma fold_dedup_extends (xs acc : list pystr) :
  NoDup acc →
  ∃ e, fold_left dedup_add xs acc = acc ++ e ∧ NoDup (acc ++ e)
       ∧ (∀ x, x ∈ e → x ∈ xs) ∧ (∀ x, x ∈ xs → x ∈ acc ++ e).
Proof.
  revert acc. induction xs as [|x xs IH]; intros acc Hnd; simpl.
  - exists []. rewrite app_nil_r. split_and!; [done|done|done|].
    intros x Hx. by apply elem_of_nil in Hx.
  - unfold dedup_add at 2. destruct (decide (x ∈ acc)) as [Hin|Hnin].
    + rewrite bool_decide_eq_true_2 by done.
      destruct (IH acc Hnd) as (e & He & Hnd' & Hsub & Hall).
      exists e. split_and!; [done|done|..].
      * intros y Hy. right. by apply Hsub.
      * intros y [->|Hy]%elem_of_cons; [apply elem_of_app; by left|by apply Hall].
    + rewrite bool_decide_eq_false_2 by done.
      assert (Hnd1 : NoDup (acc ++ [x])).
      { apply NoDup_app. split_and!; [done| |apply NoDup_singleton].
        intros y Hy ->%list_elem_of_singleton. done. }
      destruct (IH _ Hnd1) as (e & He & Hnd' & Hsub & Hall).
      exists (x :: e). rewrite <- app_assoc in He, Hnd'. simpl in He, Hnd'.
      split_and!; [done|done|..].
      * intros y [->|Hy]%elem_of_cons; [left|right; by apply Hsub].
      * intros y [->|Hy]%elem_of_cons.
        -- apply elem_of_app. right. left.
        -- specialize (Hall y Hy). rewrite <- app_assoc in Hall. done.
Qed.

Lemma dedup_spec (xs : list pystr) : NoDup (dedup xs) ∧ ∀ x, x ∈ dedup xs ↔ x ∈ xs.
Proof.
  unfold dedup. destruct (fold_dedup_extends xs [] (NoDup_nil_2)) as (e & -> & Hnd & Hsub & Hall).
  simpl in *. split; [done|]. intros x. split; [apply Hsub|apply Hall].
Qed.

Lemma dedup_app (p a : list pystr) :
  dedup (p ++ a) = fold_left dedup_add a (dedup p).
Proof. unfold dedup. by rewrite fold_left_app. Qed.

(** Deduplicating again after the same list was put in front changes nothing. *)
Lemma dedup_again (p a : list pystr) : dedup (p ++ dedup (p ++ a)) = dedup (p ++ a).
Proof.
  rewrite !dedup_app.
  destruct (fold_dedup_extends a (dedup p) (proj1 (dedup_spec p)))
    as (e & -> & Hnd & _ & _).
  rewrite fold_left_app.
  rewrite (fold_dedup_absorb (dedup p) (dedup p)) by done.
  by apply fold_dedup_fresh.
Qed.

(** A duplicate-free list takes nothing from a list of its own elements. *)
Lemma dedup_absorb (q a : list pystr) :
  NoDup q → (∀ x, x ∈ a → x ∈ q) → dedup (q ++ a) = q.
Proof.
  intros Hnd Hsub. rewrite dedup_app.
  assert (Hq : dedup q = q).
  { unfold dedup. by rewrite (fold_dedup_fresh q []). }
  rewrite Hq. by apply fold_dedup_absorb.
Qed.

Lemma dedup_nil_inv (xs : list pystr) : dedup xs = [] → xs = [].
Proof.
  intros H. destruct xs as [|x xs]; [done|].
  pose proof (proj2 (dedup_spec (x :: xs)) x) as [_ Hx].
  rewrite H in Hx. exfalso. eapply not_elem_of_nil, Hx. left.
Qed.

(** Adding to a set never loses what is in it. *)
Lemma fold_set_add_prefix (xs acc : list pyval) :
  ∃ e, fold_left set_add xs acc = acc ++ e.
Proof.
  revert acc. induction xs as [|x xs IH]; intros acc; simpl.
  - exists []. by rewrite app_nil_r.
  - unfold set_add at 2. destruct (existsb _ _); [apply IH|].
    destruct (IH (acc ++ [x])) as [e ->]. exists (x :: e). by rewrite <- app_assoc.
Qed.

Lemma list_set_nonempty (xs uniq : list pyval) :
  list_set xs = Ok uniq → xs ≠ [] → uniq ≠ [].
Proof.
  unfold list_set. destruct (forallb hashable xs); [|done]. intros [= <-] Hne.
  destruct xs as [|x xs]; [done|]. simpl. unfold set_add at 2. simpl.
  destruct (fold_set_add_prefix xs [x]) as [e ->]. done.
Qed.

(** ** What a turn stores *)

Section Stored.
Context (U : unicode).

Lemma py_str_strs (l : list pystr) : py_str U <$> (PStr <$> l) = l.
Proof. induction l as [|s l IH]; csimpl; [done|]. by rewrite IH. Qed.

Lemma py_str_nonblank (v : pyval) :
  blank_str v = false → v ≠ PNone → (∀ l, v ≠ PList l) → strip (py_str U v) ≠ [].
Proof.
  intros Hb Hn Hl. destruct v as [|[]|z|s|l|d]; simpl in *; try done.
  - apply decimal_Z_nonblank.
  - by apply bool_decide_eq_false in Hb.
  - by specialize (Hl l).
  - apply strip_cons_nonblank. exists 123. split; [|done].
    unfold u. simpl. apply list_elem_of_here.
Qed.

Lemma tier_nonblank (schema : field_schema) (score : Z) :
  strip (tier schema score) = tier schema score ∧ strip (tier schema score) ≠ [].
Proof.
  unfold tier. destruct (_ <=? _)%Z; [by vm_compute|].
  destruct (_ <=? _)%Z; by vm_compute.
Qed.

Lemma classify_lead_tag (m : gmap pystr pyval) (schema : field_schema) (tag : pystr) :
  classify_lead U m schema = Ok tag → strip tag = tag ∧ strip tag ≠ [].
Proof.
  unfold classify_lead. destruct (score_fields U m 0%Z _) as [score|e]; simpl; [|done].
  intros [= <-]. apply tier_nonblank.
Qed.

(** The steps of a turn that does not raise. *)
Lemma merge_and_save_inv schema user_id now st M st' :
  merge_and_save U schema user_id now st M = Ok st' →
  ∃ m1 tag m2,
    merge_new_metadata (load_metadata st) M = Ok m1
    ∧ classify_lead U m1 schema = Ok tag
    ∧ for_items (<[lead_key := PStr tag]> m1)
        (save_entry U (load_metadata st)) (load_metadata st) = Ok m2
    ∧ st' = Some (build_item U user_id now m2).
Proof.
  unfold merge_and_save, save_metadata.
  destruct (merge_new_metadata _ _) as [m1|e] eqn:H1; simpl; [|done].
  destruct (classify_lead U m1 schema) as [tag|e] eqn:H2; simpl; [|done].
  destruct (for_items _ _ _) as [m2|e] eqn:H3; simpl; [|done].
  intros [= <-]. by exists m1, tag, m2.
Qed.

Lemma lead_key_not_control : control_key lead_key = false.
Proof. by vm_compute. Qed.

Lemma loaded_not_control (st : store) (k : pystr) (v : pyval) :
  load_metadata st !! k = Some v → control_key k = false.
Proof.
  intros Hk. destruct (control_key k) eqn:Hc; [|done].
  by rewrite load_metadata_control in Hk.
Qed.

(** What is stored for a key that had a value, from what the save loop saw. *)
Lemma stored_after_save (P : gmap pystr pyval) (k : pystr) (v v1 : pyval)
    (w : option pyval) :
  P !! k = Some v → nonempty_value v →
  ((∃ s, v = PStr s) ∨ (∃ l, v = PList (PStr <$> l))) →
  save_value U (P !! k) v1 (P !! k) = Ok w →
  ∃ v', w ≫= stored_value U = Some v' ∧ nonempty_value v'.
Proof.
  intros Hk Hne Hty. unfold save_value. rewrite Hk.
  assert (Hold : ∃ v', Some v ≫= stored_value U = Some v' ∧ nonempty_value v').
  { destruct Hty as [[s ->]|[l ->]]; simpl in *.
    - rewrite bool_decide_eq_false_2 by done. eexists. split; [done|].
      simpl. by rewrite strip_idemp.
    - destruct l as [|x l]; [done|]. csimpl. eexists. split; [done|]. done. }
  assert (Hscalar : ∀ v1, v1 ≠ PNone → (∀ l, v1 ≠ PList l) →
            (if blank_str v1 then Ok (Some v) else Ok (Some (PStr (py_str U v1)))) = Ok w →
            ∃ v', w ≫= stored_value U = Some v' ∧ nonempty_value v').
  { intros v2 Hn Hl. destruct (blank_str v2) eqn:Hb; intros [= <-]; [done|].
    pose proof (py_str_nonblank v2 Hb Hn Hl) as Hnb. simpl.
    rewrite bool_decide_eq_false_2 by done. eexists. split; [done|].
    simpl. by rewrite strip_idemp. }
  destruct v1 as [|b|z|s1|l1|d]; try (apply Hscalar; done).
  - intros [= <-]. done.
  - simpl. destruct Hty as [[s ->]|[l ->]]; simpl; [done|].
    destruct (list_set _) as [uniq|e] eqn:Hset; simpl; [|done].
    intros [= <-]. simpl.
    assert (Huniq : uniq ≠ []).
    { apply (list_set_nonempty _ _ Hset). simpl in Hne.
      destruct l; [done|]. csimpl. done. }
    destruct uniq as [|x uniq]; [done|]. eexists. split; [done|]. done.
Qed.

End Stored.

(** ** Monotonicity *)

Section Monotone.
Context (U : unicode).

Lemma bind_some {A B} (f : A → option B) (x : A) : Some x ≫= f = f x.
Proof. done. Qed.

Lemma elem_of_dedup (x : pystr) (xs : list pystr) : x ∈ dedup xs ↔ x ∈ xs.
Proof. apply dedup_spec. Qed.

Lemma stored_str (s : pystr) :
  strip s ≠ [] → stored_value U (PStr s) = Some (PStr (strip s)).
Proof. intros Hs. simpl. by rewrite bool_decide_eq_false_2. Qed.

Lemma stored_strs (l : list pystr) :
  l ≠ [] → stored_value U (PList (PStr <$> l)) = Some (PList (PStr <$> l)).
Proof.
  intros Hl. destruct l as [|x l]; [done|]. csimpl.
  by rewrite py_str_strs.
Qed.

Lemma fmap_PStr_nil (l : list pystr) : PStr <$> l = [] → l = [].
Proof. by destruct l. Qed.

(** The save loop on a list of strings, for a key that holds one or none. *)
Lemma save_value_strs (P : gmap pystr pyval) (k : pystr) (l r : list pystr) :
  default (PList []) (P !! k) = PList (PStr <$> l) →
  save_value U (P !! k) (PList (PStr <$> r)) (P !! k)
  = Ok (Some (PList (PStr <$> dedup (l ++ r)))).
Proof.
  intros Hk. unfold save_value. rewrite Hk. simpl.
  by rewrite <- fmap_app, list_set_strs.
Qed.

Lemma merge_value_strs (old : option pyval) (l a : list pystr) :
  default (PList []) old = PList (PStr <$> l) →
  merge_value old (PList (PStr <$> a)) = Ok (Some (PList (PStr <$> dedup (l ++ a)))).
Proof.
  intros Hk. unfold merge_value. rewrite Hk. simpl.
  by rewrite <- fmap_app, list_set_strs.
Qed.

Lemma elem_of_strs (x : pyval) (l l' : list pystr) :
  (∀ y, y ∈ l' ↔ y ∈ l) → x ∈ PStr <$> l' ↔ x ∈ PStr <$> l.
Proof.
  intros H. rewrite !list_elem_of_fmap. by setoid_rewrite H.
Qed.

Lemma same_content_refl (v : pyval) :
  ((∃ s, v = PStr s) ∨ (∃ l, v = PList (PStr <$> l))) → same_content v v.
Proof. by intros [[s ->]|[l ->]]. Qed.

(** What does hold at every key but the tag's: a key with a non-empty
    value keeps a non-empty value through a turn, whatever the incoming
    metadata; a null or empty incoming value leaves the content as it is,
    and a list only gains elements, those of the incoming list. *)
Lemma merge_and_save_monotone (schema : field_schema) (user_id now : pystr)
    (st : store) (M : gmap pystr pyval) (k : pystr) (v : pyval) :
  load_metadata st !! k = Some v →
  nonempty_value v →
  ∃ v',
    load_metadata (store_after st (merge_and_save U schema user_id now st M)) !! k
    = Some v'
    ∧ nonempty_value v'
    ∧ (k ≠ lead_key → incoming_empty (M !! k) → same_content v v')
    ∧ (k ≠ lead_key → ∀ l a,
         v = PList (PStr <$> l) → M !! k = Some (PList (PStr <$> a)) →
         ∃ l', v' = PList (PStr <$> l')
               ∧ (∀ x, x ∈ l → x ∈ l') ∧ (∀ x, x ∈ l' → x ∈ l ∨ x ∈ a)).
Proof.
  intros Hk Hne.
  pose proof (load_metadata_values _ _ _ Hk) as Hty.
  pose proof (loaded_not_control _ _ _ Hk) as Hctl.
  destruct (merge_and_save U schema user_id now st M) as [st'|e] eqn:E; simpl.
  2:{ exists v. split_and!; [done|done|..].
      - intros _ _. by apply same_content_refl.
      - intros _ l a -> _. exists l. split_and!; [done|done|]. intros x Hx. by left. }
  apply merge_and_save_inv in E as (m1 & tag & m2 & H1 & H2 & H3 & ->).
  rewrite load_build_item, Hctl.
  pose proof (merge_new_metadata_lookup (load_metadata st) M) as L1.
  rewrite H1 in L1. specialize (L1 k). rewrite Hk in L1.
  pose proof (save_loop_lookup U (load_metadata st) (<[lead_key:=PStr tag]> m1)) as L3.
  rewrite H3 in L3. specialize (L3 k).
  assert (Hm1 : ∃ v0, m1 !! k = Some v0).
  { destruct (M !! k) as [mv|]; [|eauto].
    destruct mv; simpl in L1; try (injection L1 as <-; eauto).
    destruct (list_concat _ _); simpl in L1; [|done].
    destruct (list_set _); simpl in L1; [|done]. injection L1 as <-. eauto. }
  destruct Hm1 as [v0 Hm1].
  assert (Hm1' : ∃ v1, <[lead_key:=PStr tag]> m1 !! k = Some v1
                       ∧ (k ≠ lead_key → v1 = v0)).
  { destruct (decide (k = lead_key)) as [->|Hlk].
    - rewrite lookup_insert_eq. eexists. split; [done|]. done.
    - rewrite lookup_insert_ne by done. eauto. }
  destruct Hm1' as (v1 & Hv1 & Hv10). rewrite Hv1 in L3.
  destruct (stored_after_save U _ _ _ _ _ Hk Hne Hty L3) as (v' & Hv' & Hne').
  exists v'. split_and!; [done|done|..].
  - intros Hlk Hempty. rewrite (Hv10 Hlk) in L3. clear Hv10 Hv1.
    rewrite Hm1 in L1.
    destruct Hty as [[s ->]|[l ->]].
    + (* a string value *)
      assert (Hcase : v0 = PStr s ∨ blank_str v0 = true).
      { destruct (M !! k) as [[| | |s0|[|]|]|]; simpl in Hempty, L1; try done;
          try (injection L1 as <-; auto).
        right. simpl. by apply bool_decide_eq_true. }
      assert (Hw : m2 !! k = Some (PStr s)).
      { rewrite Hk in L3. destruct Hcase as [->|Hb].
        - simpl in L3. simpl in Hne. rewrite bool_decide_eq_false_2 in L3 by done.
          by injection L3 as <-.
        - destruct v0; simpl in Hb; try done. unfold save_value in L3.
          simpl in L3. rewrite Hb in L3. by injection L3 as <-. }
      rewrite Hw, bind_some, stored_str in Hv' by done.
      injection Hv' as <-. simpl. apply strip_idemp.
    + (* a list value *)
      assert (Hl : l ≠ []). { intros ->. by apply Hne. }
      assert (Hcase : blank_str v0 = true ∨ ∃ r, v0 = PList (PStr <$> r)
                                               ∧ ∀ x, x ∈ r → x ∈ l).
      { destruct (M !! k) as [[| | |s0|[|]|]|]; simpl in Hempty, L1; try done.
        - injection L1 as <-. right. eauto.
        - injection L1 as <-. left. simpl. by apply bool_decide_eq_true.
        - rewrite app_nil_r in L1. rewrite list_set_strs in L1. simpl in L1.
          injection L1 as <-. right. exists (dedup l). split; [done|].
          intros x. apply dedup_spec.
        - injection L1 as ->. right. eauto. }
      assert (Hw : ∃ l', m2 !! k = Some (PList (PStr <$> l')) ∧ ∀ x, x ∈ l' ↔ x ∈ l).
      { destruct Hcase as [Hb|(r & -> & Hr)].
        - destruct v0; simpl in Hb; try done. unfold save_value in L3.
          simpl in L3. rewrite Hb in L3. injection L3 as <-. rewrite Hk. eauto.
        - rewrite (save_value_strs _ _ l r) in L3 by (by rewrite Hk).
          injection L3 as <-. eexists. split; [done|]. intros x.
          rewrite (proj2 (dedup_spec _)), elem_of_app. naive_solver. }
      destruct Hw as (l' & Hw & Hl').
      assert (Hl'ne : l' ≠ []).
      { intros ->. destruct l as [|x l]; [done|].
        eapply not_elem_of_nil, Hl'. left. }
      rewrite Hw, bind_some, stored_strs in Hv' by done.
      injection Hv' as <-. simpl. intros x. by apply elem_of_strs.
  - intros Hlk l a -> HM. rewrite (Hv10 Hlk) in L3. clear Hv10 Hv1.
    rewrite HM in L1.
    rewrite (merge_value_strs _ l a) in L1 by done. rewrite Hm1 in L1.
    injection L1 as <-.
    rewrite (save_value_strs _ _ l _) in L3 by (by rewrite Hk).
    injection L3 as HL3. rewrite <- HL3, bind_some in Hv'.
    assert (Hl : l ≠ []). { intros ->. by apply Hne. }
    assert (Hq : dedup (l ++ dedup (l ++ a)) ≠ []).
    { intros Hq%dedup_nil_inv. by apply app_eq_nil in Hq as [-> _]. }
    rewrite stored_strs in Hv' by done. injection Hv' as <-.
    eexists. split; [done|]. split.
    + intros x Hx. rewrite elem_of_dedup, elem_of_app. by left.
    + intros x. rewrite elem_of_dedup, elem_of_app, elem_of_dedup, elem_of_app. tauto.
Qed.

End Monotone.

(** ** A blank value and the tag *)

Section Blank.
Context (U : unicode).

(** C6: a turn whose extraction gives a blank string for a scored field
    keeps the stored value of the field and degrades the stored tag: the
    loop of [update_and_save_metadata] skips null only, so the blank
    string replaces the value the classifier reads, while the loop of
    [save_metadata] skips it.  A null or absent value leaves the tag. *)
Theorem update_and_save_blank_degrades_tag :
  load_metadata hot_lead
  = <[u "lead_classification" := PStr (u "Hot")]> {[ u "urgency" := PStr (u "high") ]}
  ∧ classify_lead U (load_metadata hot_lead) urgency_schema = Ok (u "Hot")
  ∧ load_metadata
      (store_after hot_lead
         (update_and_save_metadata U urgency_schema (u "u1")
            (u "2025-04-20T12:35:10+00:00") hot_lead {[ u "urgency" := PStr (u "  ") ]}))
    = <[u "lead_classification" := PStr (u "Cold")]> {[ u "urgency" := PStr (u "high") ]}
  ∧ load_metadata
      (store_after hot_lead
         (update_and_save_metadata U urgency_schema (u "u1")
            (u "2025-04-20T12:35:10+00:00") hot_lead {[ u "urgency" := PNone ]}))
    = load_metadata hot_lead
  ∧ load_metadata
      (store_after hot_lead
         (update_and_save_metadata U urgency_schema (u "u1")
            (u "2025-04-20T12:35:10+00:00") hot_lead ∅))
    = load_metadata hot_lead.
Proof. split_and!; vm_compute; reflexivity. Qed.
End Blank.

(** ** Idempotence *)

Section Idempotence.
Context (U : unicode).

Lemma profile_equiv_refl (P : gmap pystr pyval) : profile_equiv P P.
Proof. intros k. by destruct (P !! k) as [[]|]. Qed.

(** The score of a field reads the metadata at the key of the field only. *)
Lemma score_fields_ext (m m' : gmap pystr pyval) (fields : list (pystr * field_config)) :
  (∀ k, k ∈ fields.*1 → m !! k = m' !! k) →
  ∀ score, score_fields U m score fields = score_fields U m' score fields.
Proof.
  induction fields as [|[key config] rest IH]; intros Hagree score; simpl; [done|].
  rewrite (Hagree key) by (csimpl; left).
  destruct (if negb _ then _ else _) as [score'|e]; simpl; [|done].
  apply IH. intros k Hk. apply Hagree. csimpl. by right.
Qed.

Lemma classify_lead_ext (m m' : gmap pystr pyval) (schema : field_schema) :
  (∀ k, k ∈ (metadata_fields schema).*1 → m !! k = m' !! k) →
  classify_lead U m schema = classify_lead U m' schema.
Proof. intros H. unfold classify_lead. by rewrite (score_fields_ext m m'). Qed.

(** Whether a turn raises does not depend on the clock. *)
Lemma merge_and_save_raise_now schema user_id now now' st M e :
  merge_and_save U schema user_id now st M = Raise e →
  merge_and_save U schema user_id now' st M = Raise e.
Proof.
  unfold merge_and_save, save_metadata.
  destruct (merge_new_metadata _ _) as [m1|]; simpl; [|done].
  destruct (classify_lead U m1 schema) as [tag|]; simpl; [|done].
  by destruct (for_items _ _ _).
Qed.

Lemma turn_keys schema user_id now st M st' :
  merge_and_save U schema user_id now st M = Ok st' →
  ∃ (m1 : gmap pystr pyval) (tag : pystr) (m2 : gmap pystr pyval),
    classify_lead U m1 schema = Ok tag
    ∧ (∀ k, merge_key (load_metadata st !! k) (M !! k) = Ok (m1 !! k))
    ∧ (∀ k, save_key U (load_metadata st !! k) (<[lead_key:=PStr tag]> m1 !! k)
            = Ok (m2 !! k))
    ∧ (∀ k, load_metadata st' !! k
            = if control_key k then None else m2 !! k ≫= stored_value U).
Proof.
  intros (m1 & tag & m2 & H1 & H2 & H3 & ->)%merge_and_save_inv.
  exists m1, tag, m2. split_and!; [done|..].
  - intros k. pose proof (merge_new_metadata_lookup (load_metadata st) M) as L.
    rewrite H1 in L. specialize (L k). unfold merge_key.
    destruct (M !! k); [done|by rewrite L].
  - intros k.
    pose proof (save_loop_lookup U (load_metadata st) (<[lead_key:=PStr tag]> m1)) as L.
    rewrite H3 in L. specialize (L k). unfold save_key.
    destruct (<[lead_key:=PStr tag]> m1 !! k); [done|by rewrite L].
  - intros k. apply load_build_item.
Qed.

Lemma stored_persisted (v : pyval) :
  persisted_value v → stored_value U v = Some v.
Proof.
  intros [(s & -> & Hs & Hne)|(l & -> & Hnd & Hne)].
  - rewrite stored_str by (by rewrite Hs). by rewrite Hs.
  - by apply stored_strs.
Qed.

Lemma save_key_str (pk : option pyval) (s : pystr) :
  strip s ≠ [] → save_key U pk (Some (PStr s)) = Ok (Some (PStr s)).
Proof. intros Hs. simpl. by rewrite bool_decide_eq_false_2. Qed.

Lemma save_key_blank (pk : option pyval) (s : pystr) :
  strip s = [] → save_key U pk (Some (PStr s)) = Ok pk.
Proof. intros Hs. simpl. by rewrite bool_decide_eq_true_2. Qed.

Lemma save_key_strs (pk : option pyval) (p r : list pystr) :
  default (PList []) pk = PList (PStr <$> p) →
  save_key U pk (Some (PList (PStr <$> r)))
  = Ok (Some (PList (PStr <$> dedup (p ++ r)))).
Proof.
  intros Hk. unfold save_key, save_value. rewrite Hk. simpl.
  by rewrite <- fmap_app, list_set_strs.
Qed.

(** What is stored for a list of strings holds that list, or nothing. *)
Lemma stored_list (r : list pystr) :
  default (PList []) (stored_value U (PList (PStr <$> r))) = PList (PStr <$> r)
  ∧ ∀ v, stored_value U (PList (PStr <$> r)) = Some v →
         v = PList (PStr <$> r) ∧ r ≠ [].
Proof.
  destruct r as [|x r]; [done|]. rewrite stored_strs by done. by split; [|intros v [= <-]].
Qed.

(** Saving what the key holds already stores it as it is. *)
Lemma save_key_same (pk m2k : option pyval) :
  (∀ v, pk = Some v → persisted_value v) →
  save_key U pk pk = Ok m2k → m2k ≫= stored_value U = pk.
Proof.
  intros Hpk. destruct pk as [v|]; [|by intros [= <-]].
  destruct (Hpk v eq_refl) as [(s & -> & Hs & Hne)|(l & -> & Hnd & Hne)].
  - rewrite save_key_str by (by rewrite Hs). intros [= <-].
    apply (stored_persisted (PStr s)). left. eauto.
  - rewrite (save_key_strs _ l l) by done. intros [= <-].
    rewrite dedup_absorb by done.
    apply (stored_persisted (PList (PStr <$> l))). right. eauto.
Qed.

(** One key through two turns with the same incoming metadata. *)
Lemma key_round (pk mk m1k m2k : option pyval) (tag : pystr) (lead : bool) :
  (∀ v, pk = Some v → persisted_value v) →
  (∀ v, mk = Some v → sanitized_value v) →
  strip tag = tag → strip tag ≠ [] →
  merge_key pk mk = Ok m1k →
  save_key U pk (if lead then Some (PStr tag) else m1k) = Ok m2k →
  (∀ v, m2k ≫= stored_value U = Some v → persisted_value v)
  ∧ (lead = false →
     ∀ m1bk, merge_key (m2k ≫= stored_value U) mk = Ok m1bk → m1bk = m1k)
  ∧ (∀ m2bk,
       save_key U (m2k ≫= stored_value U) (if lead then Some (PStr tag) else m1k)
       = Ok m2bk →
       m2bk ≫= stored_value U = m2k ≫= stored_value U).
Proof.
  intros Hpk Hmk Htag Htagne Hmerge Hsave.
  destruct lead.
  { (* the derived tag *)
    rewrite save_key_str in Hsave by done. injection Hsave as <-.
    rewrite bind_some, stored_str, Htag by done.
    split_and!; [|done|].
    - intros v [= <-]. left. exists tag. split_and!; [done|done|].
      intros ->. by apply Htagne.
    - intros m2bk. rewrite save_key_str by done. intros [= <-].
      by rewrite bind_some, stored_str, Htag. }
  assert (Hnoop : m1k = pk →
    (∀ m1bk, merge_key pk mk = Ok m1bk → m1bk = pk) →
    (∀ v, m2k ≫= stored_value U = Some v → persisted_value v)
    ∧ (false = false →
       ∀ m1bk, merge_key (m2k ≫= stored_value U) mk = Ok m1bk → m1bk = m1k)
    ∧ (∀ m2bk, save_key U (m2k ≫= stored_value U) m1k = Ok m2bk →
               m2bk ≫= stored_value U = m2k ≫= stored_value U)).
  { intros -> Hm. rewrite (save_key_same pk m2k Hpk Hsave).
    split_and!; [done|by intros _|].
    intros m2bk Hb. by apply save_key_same. }
  destruct mk as [mv|]; [|injection Hmerge as <-; apply Hnoop; [done|by intros ? [= <-]]].
  destruct (Hmk mv eq_refl) as [->|[[s0 ->]|[a ->]]].
  - (* null *)
    injection Hmerge as <-. apply Hnoop; [done|by intros ? [= <-]].
  - (* a string *)
    injection Hmerge as <-.
    destruct (decide (strip s0 = [])) as [Hb|Hnb].
    + rewrite save_key_blank in Hsave by done. injection Hsave as <-.
      assert (Hst : pk ≫= stored_value U = pk).
      { destruct pk as [v|]; [|done]. rewrite bind_some.
        by apply stored_persisted, Hpk. }
      rewrite Hst. split_and!; [done|by intros _ m1bk [= <-]|].
      intros m2bk. rewrite save_key_blank by done. by intros [= <-].
    + rewrite save_key_str in Hsave by done. injection Hsave as <-.
      rewrite bind_some, stored_str by done.
      split_and!; [|by intros _ m1bk [= <-]|].
      * intros v [= <-]. left. exists (strip s0). split_and!; [done|apply strip_idemp|done].
      * intros m2bk. rewrite save_key_str by done. intros [= <-].
        by rewrite bind_some, stored_str.
  - (* a list *)
    assert (Hp : ∃ p, default (PList []) pk = PList (PStr <$> p) ∧ NoDup p).
    { destruct pk as [v|]; [|exists []; split; [done|constructor]].
      destruct (Hpk v eq_refl) as [(s & -> & _)|(l & -> & Hnd & _)]; [done|eauto]. }
    destruct Hp as (p & Hp & Hnd).
    unfold merge_key in Hmerge. rewrite (merge_value_strs _ p a) in Hmerge by done.
    injection Hmerge as <-.
    rewrite (save_key_strs _ p _) in Hsave by done. injection Hsave as <-.
    rewrite dedup_again, bind_some.
    set (r := dedup (p ++ a)).
    destruct (stored_list r) as [Hr Hv].
    assert (Hndr : NoDup r) by apply dedup_spec.
    split_and!.
    + intros v Hsv. destruct (Hv v Hsv) as [-> Hne]. right. eauto.
    + intros _ m1bk. unfold merge_key. rewrite (merge_value_strs _ r a) by done.
      intros [= <-]. rewrite dedup_absorb; [done|done|].
      intros x Hx. apply elem_of_dedup, elem_of_app. by right.
    + intros m2bk. rewrite (save_key_strs _ r r) by done. intros [= <-].
      by rewrite dedup_absorb.
Qed.

Lemma lookup_lead (m : gmap pystr pyval) (tag : pystr) (k : pystr) :
  <[lead_key:=PStr tag]> m !! k
  = if bool_decide (k = lead_key) then Some (PStr tag) else m !! k.
Proof.
  case_bool_decide as Hk.
  - subst k. apply lookup_insert_eq.
  - by rewrite lookup_insert_ne.
Qed.

(** The table holds persisted profiles only: the empty table does, and a
    turn with sanitized metadata keeps it so. *)
Lemma persisted_profile_empty : persisted_profile (load_metadata None).
Proof. intros k v. simpl. by rewrite lookup_empty. Qed.

Lemma merge_and_save_persisted (schema : field_schema) (user_id now : pystr)
    (st : store) (M : gmap pystr pyval) :
  sanitized_metadata M →
  persisted_profile (load_metadata st) →
  persisted_profile
    (load_metadata (store_after st (merge_and_save U schema user_id now st M))).
Proof.
  intros HM HP.
  destruct (merge_and_save U schema user_id now st M) as [st1|e] eqn:E1; simpl;
    [|done].
  apply turn_keys in E1 as (m1 & tag & m2 & Hc1 & Hm1 & Hs1 & Hl1).
  destruct (classify_lead_tag U _ _ _ Hc1) as [Htag Htagne].
  intros k v. rewrite Hl1. destruct (control_key k); [done|].
  pose proof (Hs1 k) as Hsave. rewrite lookup_lead in Hsave.
  destruct (key_round (load_metadata st !! k) (M !! k) (m1 !! k) (m2 !! k) tag
              (bool_decide (k = lead_key)) (HP k) (HM k) Htag Htagne (Hm1 k) Hsave)
    as (Hpersisted & _ & _).
  apply Hpersisted.
Qed.

(** With the sets in order of first occurrence: on a persisted profile, a
    second turn with the same sanitized metadata leaves the profile the
    first turn wrote, the derived tag included, provided the schema does
    not declare the tag's key as a field of its own. *)
Lemma merge_and_save_twice_first_seen (schema : field_schema)
    (user_id now now' : pystr) (st : store) (M : gmap pystr pyval) :
  sanitized_metadata M →
  persisted_profile (load_metadata st) →
  lead_key ∉ (metadata_fields schema).*1 →
  profile_equiv
    (load_metadata
       (store_after (store_after st (merge_and_save U schema user_id now st M))
          (merge_and_save U schema user_id now'
             (store_after st (merge_and_save U schema user_id now st M)) M)))
    (load_metadata (store_after st (merge_and_save U schema user_id now st M))).
Proof.
  intros HM HP Hlead.
  destruct (merge_and_save U schema user_id now st M) as [st1|e] eqn:E1; simpl.
  2:{ rewrite (merge_and_save_raise_now _ _ _ now' _ _ _ E1). apply profile_equiv_refl. }
  destruct (merge_and_save U schema user_id now' st1 M) as [st2|e] eqn:E2; simpl;
    [|apply profile_equiv_refl].
  apply turn_keys in E1 as (m1 & tag & m2 & Hc1 & Hm1 & Hs1 & Hl1).
  apply turn_keys in E2 as (m1b & tagb & m2b & Hc2 & Hm2 & Hs2 & Hl2).
  destruct (classify_lead_tag U _ _ _ Hc1) as [Htag Htagne].
  assert (Hround : ∀ k, control_key k = false →
    (k ≠ lead_key → m1b !! k = m1 !! k)
    ∧ (<[lead_key:=PStr tagb]> m1b !! k = <[lead_key:=PStr tag]> m1 !! k →
       load_metadata st2 !! k = load_metadata st1 !! k)).
  { intros k Hctl.
    pose proof (Hs1 k) as Hsave. rewrite lookup_lead in Hsave.
    destruct (key_round (load_metadata st !! k) (M !! k) (m1 !! k) (m2 !! k) tag
                (bool_decide (k = lead_key)) (HP k) (HM k) Htag Htagne (Hm1 k) Hsave)
      as (_ & Hmerge & Hstore).
    pose proof (Hl1 k) as Hl1k. rewrite Hctl in Hl1k.
    rewrite <- Hl1k in Hmerge, Hstore. split.
    - intros Hne. apply Hmerge; [by apply bool_decide_eq_false|apply Hm2].
    - intros Heq. pose proof (Hs2 k) as Hsave2. rewrite Heq, lookup_lead in Hsave2.
      specialize (Hstore _ Hsave2). by rewrite Hl2, Hctl, Hstore. }
  assert (Hagree : ∀ k, k ≠ lead_key → m1b !! k = m1 !! k).
  { intros k Hne. destruct (control_key k) eqn:Hctl; [|by apply Hround].
    pose proof (Hm1 k) as H1. pose proof (Hm2 k) as H2.
    rewrite load_metadata_control in H1, H2 by done. congruence. }
  assert (tagb = tag) as ->.
  { rewrite (classify_lead_ext m1b m1) in Hc2; [congruence|].
    intros k Hk. apply Hagree. by intros ->. }
  intros k.
  assert (Hk : load_metadata st2 !! k = load_metadata st1 !! k).
  { destruct (control_key k) eqn:Hctl.
    - by rewrite !load_metadata_control.
    - apply Hround; [done|]. rewrite !lookup_lead. case_bool_decide; [done|].
      by apply Hagree. }
  rewrite Hk. by destruct (load_metadata st1 !! k) as [[]|].
Qed.

End Idempotence.

Lemma merge_and_save_by_first_seen (U : unicode) :
  merge_and_save_by U first_seen = merge_and_save U.
Proof. reflexivity. Qed.

(** ** Idempotence, whatever the order of the sets *)

Section Order.
Context (U : unicode).

(** *** Entries *)

Lemma sanitized_entry_cases (x : option pyval) :
  sanitized_entry x →
  x = None ∨ x = Some PNone ∨ (∃ s, x = Some (PStr s))
  ∨ (∃ l, x = Some (PList (PStr <$> l))).
Proof.
  intros Hx. destruct x as [v|]; [|by left].
  destruct (Hx v eq_refl) as [->|[[s ->]|[l ->]]]; eauto.
Qed.

Lemma sanitized_entry_loaded (st : store) (k : pystr) :
  sanitized_entry (load_metadata st !! k).
Proof.
  intros v Hv. destruct (load_metadata_values _ _ _ Hv) as [[s ->]|[l ->]];
    [right; left|right; right]; eauto.
Qed.

Lemma entry_equiv_refl (x : option pyval) : entry_equiv x x.
Proof. by destruct x as [[]|]. Qed.

Lemma entry_equiv_sym (x y : option pyval) : entry_equiv x y → entry_equiv y x.
Proof.
  destruct x as [[| | | |la|]|], y as [[| | | |lb|]|]; simpl; try done;
    intros H v; by rewrite H.
Qed.

Lemma entry_equiv_trans (x y z : option pyval) :
  entry_equiv x y → entry_equiv y z → entry_equiv x z.
Proof.
  destruct x as [[| | | |la|]|], y as [[| | | |lb|]|], z as [[| | | |lc|]|]; simpl;
    try done; try congruence; intros H1 H2 v; by rewrite H1.
Qed.

Lemma entry_equiv_strs (l l' : list pystr) :
  entry_equiv (Some (PList (PStr <$> l))) (Some (PList (PStr <$> l')))
  ↔ ∀ x, x ∈ l ↔ x ∈ l'.
Proof.
  simpl. split.
  - intros H x. specialize (H (PStr x)). rewrite !list_elem_of_fmap in H.
    split; intros Hx.
    + destruct (proj1 H) as (y & [= ->] & Hy); eauto.
    + destruct (proj2 H) as (y & [= ->] & Hy); eauto.
  - intros H v. by apply elem_of_strs.
Qed.

(** An entry equivalent to a sanitized one, itself sanitized. *)
Lemma entry_equiv_inv (x y : option pyval) :
  sanitized_entry x → sanitized_entry y → entry_equiv x y →
  (x = y ∧ ∀ l, x ≠ Some (PList l))
  ∨ (∃ l l', x = Some (PList (PStr <$> l)) ∧ y = Some (PList (PStr <$> l'))
             ∧ ∀ s, s ∈ l ↔ s ∈ l').
Proof.
  intros Hx Hy Hxy.
  destruct (sanitized_entry_cases x Hx) as [->|[->|[[s ->]|[l ->]]]];
    try (left; split; [exact Hxy|done]).
  right. destruct (sanitized_entry_cases y Hy) as [->|[->|[[s ->]|[l' ->]]]]; try done.
  exists l, l'. split_and!; [done|done|]. by apply entry_equiv_strs.
Qed.

Lemma profile_equiv_entries (P Q : gmap pystr pyval) :
  profile_equiv P Q ↔ ∀ k, entry_equiv (P !! k) (Q !! k).
Proof.
  unfold profile_equiv, entry_equiv.
  split; intros H k; specialize (H k);
    by destruct (P !! k) as [[]|], (Q !! k) as [[]|].
Qed.

(** *** The sets, rearranged *)

Lemma strs_of_elems (ys : list pyval) (l : list pystr) :
  (∀ y, y ∈ ys ↔ y ∈ PStr <$> l) →
  ∃ l', ys = PStr <$> l' ∧ ∀ x, x ∈ l' ↔ x ∈ l.
Proof.
  intros H.
  exists (omap (λ v, match v with PStr s => Some s | _ => None end) ys). split.
  - assert (Hall : Forall (λ y, ∃ s, y = PStr s) ys).
    { apply Forall_forall. intros y Hy. apply H in Hy.
      apply list_elem_of_fmap in Hy as (s & -> & _). eauto. }
    clear H. induction Hall as [|y ys [s ->] _ IH]; csimpl; [done|]. by rewrite <- IH.
  - intros x. rewrite list_elem_of_omap. split.
    + intros (y & Hy & Hs). destruct y; try done. injection Hs as ->.
      apply H in Hy. apply list_elem_of_fmap in Hy as (s' & [= ->] & Hin). done.
    + intros Hx. exists (PStr x). split; [|done]. apply H, list_elem_of_fmap. eauto.
Qed.

Lemma list_set_by_strs (order : set_order) (xs : list pystr) :
  reorders order →
  ∃ r, list_set_by order (PStr <$> xs) = Ok (PStr <$> r) ∧ ∀ x, x ∈ r ↔ x ∈ xs.
Proof.
  intros Horder. pose proof (list_set_strs xs) as H. unfold list_set in H.
  unfold list_set_by. destruct (forallb hashable _); [|done]. injection H as ->.
  destruct (strs_of_elems (order (PStr <$> dedup xs)) (dedup xs)) as (r & -> & Hr).
  { intros y. by rewrite (Horder _). }
  exists r. split; [done|]. intros x. by rewrite Hr, elem_of_dedup.
Qed.

(** *** The loops, key by key *)

Lemma merge_entry_by_keywise (order : set_order) (k : pystr) (v : pyval)
    (s : gmap pystr pyval) :
  match merge_value_by order (s !! k) v with
  | Ok w => ∃ s', merge_entry_by order k v s = Ok s' ∧ s' !! k = w
                  ∧ ∀ j, j ≠ k → s' !! j = s !! j
  | Raise e => merge_entry_by order k v s = Raise e
  end.
Proof.
  unfold merge_value_by, merge_entry_by.
  destruct v; try (eexists; split; [done|]; split;
                   [by rewrite ?lookup_insert_eq|intros j Hj; by rewrite ?lookup_insert_ne]).
  destruct (list_concat _ _) as [both|e]; simpl; [|done].
  destruct (list_set_by order both) as [uniq|e]; simpl; [|done].
  eexists; split; [done|]; split;
    [by rewrite lookup_insert_eq|intros j Hj; by rewrite lookup_insert_ne].
Qed.

Lemma save_entry_by_keywise (order : set_order) (existing : gmap pystr pyval)
    (k : pystr) (v : pyval) (s : gmap pystr pyval) :
  match save_value_by U order (existing !! k) v (s !! k) with
  | Ok w => ∃ s', save_entry_by U order existing k v s = Ok s' ∧ s' !! k = w
                  ∧ ∀ j, j ≠ k → s' !! j = s !! j
  | Raise e => save_entry_by U order existing k v s = Raise e
  end.
Proof.
  unfold save_value_by, save_entry_by.
  destruct v; try destruct (blank_str _);
    try (eexists; split; [done|]; split;
         [by rewrite ?lookup_insert_eq|intros j Hj; by rewrite ?lookup_insert_ne]).
  destruct (list_concat _ _) as [both|e]; simpl; [|done].
  destruct (list_set_by order both) as [uniq|e]; simpl; [|done].
  eexists; split; [done|]; split;
    [by rewrite lookup_insert_eq|intros j Hj; by rewrite lookup_insert_ne].
Qed.

(** Each loop returns exactly when it returns at every key, with what it
    leaves there. *)
Lemma merge_loop_by_keys (order : set_order) (existing new : gmap pystr pyval) :
  match merge_new_metadata_by order existing new with
  | Ok merged => ∀ k, merge_key_by order (existing !! k) (new !! k) = Ok (merged !! k)
  | Raise e => ∃ k, merge_key_by order (existing !! k) (new !! k) = Raise e
  end.
Proof.
  pose proof (for_items_lookup new (merge_entry_by order)
                (λ _ v old, merge_value_by order old v) existing
                (λ k v s, merge_entry_by_keywise order k v s)) as L.
  fold (merge_new_metadata_by order existing new) in L.
  destruct (merge_new_metadata_by order existing new) as [merged|e].
  - intros k. specialize (L k). unfold merge_key_by.
    destruct (new !! k); [done|by rewrite L].
  - destruct L as (k & v & Hk & Hr). exists k. unfold merge_key_by. by rewrite Hk.
Qed.

Lemma save_loop_by_keys (order : set_order) (existing new : gmap pystr pyval) :
  match for_items new (save_entry_by U order existing) existing with
  | Ok merged => ∀ k, save_key_by U order (existing !! k) (new !! k) = Ok (merged !! k)
  | Raise e => ∃ k, save_key_by U order (existing !! k) (new !! k) = Raise e
  end.
Proof.
  pose proof (for_items_lookup new (save_entry_by U order existing)
                (λ k, save_value_by U order (existing !! k)) existing
                (λ k v s, save_entry_by_keywise order existing k v s)) as L.
  destruct (for_items new _ existing) as [merged|e].
  - intros k. specialize (L k). unfold save_key_by.
    destruct (new !! k); [done|by rewrite L].
  - destruct L as (k & v & Hk & Hr). exists k. unfold save_key_by. by rewrite Hk.
Qed.

(** *** One key, two orders *)

Lemma merge_key_sim (order order' : set_order) (pk pk' mk : option pyval) :
  reorders order → reorders order' →
  sanitized_entry pk → sanitized_entry pk' → entry_equiv pk pk' →
  sanitized_entry mk →
  match merge_key_by order pk mk, merge_key_by order' pk' mk with
  | Ok a, Ok b => entry_equiv a b ∧ sanitized_entry a ∧ sanitized_entry b
  | Raise _, Raise _ => True
  | _, _ => False
  end.
Proof.
  intros Ho Ho' Hpk Hpk' Heq Hmk. unfold merge_key_by.
  destruct (sanitized_entry_cases mk Hmk) as [->|[->|[[s ->]|[a ->]]]]; simpl.
  1,2: by split_and!.
  { split_and!; [done|..]; intros v [= <-]; right; left; eauto. }
  destruct (entry_equiv_inv pk pk' Hpk Hpk' Heq) as [[<- Hnl]|(l & l' & -> & -> & Hll)].
  - destruct (sanitized_entry_cases pk Hpk) as [->|[->|[[s ->]|[l ->]]]]; simpl;
      try done.
    + destruct (list_set_by_strs order a Ho) as (r & -> & Hr).
      destruct (list_set_by_strs order' a Ho') as (r' & -> & Hr'). simpl.
      split_and!.
      * apply entry_equiv_strs. intros x. by rewrite Hr, Hr'.
      * intros v [= <-]. right. right. eauto.
      * intros v [= <-]. right. right. eauto.
    + by destruct (Hnl (PStr <$> l)).
  - simpl. rewrite <- !fmap_app.
    destruct (list_set_by_strs order (l ++ a) Ho) as (r & -> & Hr).
    destruct (list_set_by_strs order' (l' ++ a) Ho') as (r' & -> & Hr'). simpl.
    split_and!.
    + apply entry_equiv_strs. intros x. rewrite Hr, Hr', !elem_of_app, Hll. done.
    + intros v [= <-]. right. right. eauto.
    + intros v [= <-]. right. right. eauto.
Qed.

Lemma stored_equiv (x y : option pyval) :
  sanitized_entry x → sanitized_entry y → entry_equiv x y →
  entry_equiv (x ≫= stored_value U) (y ≫= stored_value U).
Proof.
  intros Hx Hy Heq.
  destruct (entry_equiv_inv x y Hx Hy Heq) as [[<- _]|(l & l' & -> & -> & Hll)].
  { apply entry_equiv_refl. }
  rewrite !bind_some.
  destruct l as [|a l], l' as [|a' l']; [done|..].
  - exfalso. eapply not_elem_of_nil, Hll. left.
  - exfalso. eapply not_elem_of_nil, Hll. left.
  - rewrite !(stored_strs U) by done. by apply entry_equiv_strs.
Qed.

Lemma save_key_sim (order order' : set_order) (pk pk' v v' : option pyval) :
  reorders order → reorders order' →
  sanitized_entry pk → sanitized_entry pk' → entry_equiv pk pk' →
  sanitized_entry v → sanitized_entry v' → entry_equiv v v' →
  match save_key_by U order pk v, save_key_by U order' pk' v' with
  | Ok a, Ok b => entry_equiv (a ≫= stored_value U) (b ≫= stored_value U)
  | Raise _, Raise _ => True
  | _, _ => False
  end.
Proof.
  intros Ho Ho' Hpk Hpk' Heq Hv Hv' Hveq. unfold save_key_by.
  destruct (entry_equiv_inv v v' Hv Hv' Hveq) as [[<- Hnl]|(r & r' & -> & -> & Hrr)].
  - destruct (sanitized_entry_cases v Hv) as [->|[->|[[s ->]|[l ->]]]]; simpl.
    + by apply stored_equiv.
    + by apply stored_equiv.
    + destruct (bool_decide (strip s = [])); [by apply stored_equiv|].
      apply entry_equiv_refl.
    + by destruct (Hnl (PStr <$> l)).
  - simpl.
    destruct (entry_equiv_inv pk pk' Hpk Hpk' Heq) as [[<- Hpnl]|(l & l' & -> & -> & Hll)].
    + destruct (sanitized_entry_cases pk Hpk) as [->|[->|[[s ->]|[l ->]]]]; simpl;
        try done.
      * destruct (list_set_by_strs order r Ho) as (q & -> & Hq).
        destruct (list_set_by_strs order' r' Ho') as (q' & -> & Hq').
        apply (stored_equiv (Some (PList (PStr <$> q))) (Some (PList (PStr <$> q')))).
        -- intros w [= <-]. right. right. eauto.
        -- intros w [= <-]. right. right. eauto.
        -- apply entry_equiv_strs. intros x. by rewrite Hq, Hq', Hrr.
      * by destruct (Hpnl (PStr <$> l)).
    + simpl. rewrite <- !fmap_app.
      destruct (list_set_by_strs order (l ++ r) Ho) as (q & -> & Hq).
      destruct (list_set_by_strs order' (l' ++ r') Ho') as (q' & -> & Hq').
      apply (stored_equiv (Some (PList (PStr <$> q))) (Some (PList (PStr <$> q')))).
      * intros w [= <-]. right. right. eauto.
      * intros w [= <-]. right. right. eauto.
      * apply entry_equiv_strs. intros x.
        by rewrite Hq, Hq', !elem_of_app, Hll, Hrr.
Qed.

(** *** Lists stay where they are *)

Lemma merge_key_by_scalar (order : set_order) (pk mk m1k : option pyval) :
  (∀ l, pk ≠ Some (PList l)) → (∀ l, mk ≠ Some (PList l)) →
  merge_key_by order pk mk = Ok m1k → ∀ l, m1k ≠ Some (PList l).
Proof.
  intros Hpk Hmk. unfold merge_key_by, merge_value_by.
  destruct mk as [[| | | |a|]|]; try (intros [= <-]; done).
  by destruct (Hmk a).
Qed.

Lemma save_key_by_scalar (order : set_order) (pk v m2k : option pyval) :
  (∀ l, pk ≠ Some (PList l)) → (∀ l, v ≠ Some (PList l)) →
  save_key_by U order pk v = Ok m2k →
  ∀ l, m2k ≫= stored_value U ≠ Some (PList l).
Proof.
  intros Hpk Hv. unfold save_key_by, save_value_by.
  assert (Hold : ∀ l, pk ≫= stored_value U ≠ Some (PList l)).
  { destruct pk as [[| | |s|a|]|]; simpl; try done.
    - by destruct (bool_decide (strip s = [])).
    - by destruct (Hpk a). }
  destruct v as [[| | |s|a|]|]; simpl.
  7: by intros [= <-].
  5: by destruct (Hv a).
  all: try (intros [= <-]; done).
  all: try (intros [= <-] l; simpl; by destruct (bool_decide _)).
  destruct (bool_decide (strip s = [])); intros [= <-]; [done|].
  intros l. simpl. by destruct (bool_decide _).
Qed.

End Order.

Section Turns.
Context (U : unicode).

(** *** The classifier reads the scored fields only *)

Lemma score_field_equiv (m m' : gmap pystr pyval) (score : Z) (key : pystr)
    (config : field_config) :
  entry_equiv (m !! key) (m' !! key) →
  (is_Some (fc_weights config) → ∀ l, m !! key ≠ Some (PList l)) →
  score_field U m score (key, config) = score_field U m' score (key, config).
Proof.
  intros Heq Hw. unfold score_field.
  destruct (fc_weights config) as [weights|] eqn:Hweights.
  - assert (m' !! key = m !! key) as ->; [|done].
    assert (Hnl : ∀ l, m !! key ≠ Some (PList l)) by (apply Hw; eauto).
    destruct (m !! key) as [[| | | |la|]|], (m' !! key) as [[| | | |lb|]|];
      simpl in Heq; try done; try congruence; by destruct (Hnl la).
  - by destruct (negb _), (negb _).
Qed.

Lemma score_fields_equiv (m m' : gmap pystr pyval)
    (fields : list (pystr * field_config)) :
  (∀ k, entry_equiv (m !! k) (m' !! k)) →
  (∀ k config l, (k, config) ∈ fields → is_Some (fc_weights config) →
     m !! k ≠ Some (PList l)) →
  ∀ score, score_fields U m score fields = score_fields U m' score fields.
Proof.
  intros Heq. induction fields as [|[key config] rest IH]; intros Hw score;
    cbn [score_fields]; [done|].
  rewrite (score_field_equiv m m' score key config (Heq key)).
  2:{ intros Hsome l. apply (Hw key config l); [left|done]. }
  destruct (score_field U m' score (key, config)) as [score'|e]; simpl; [|done].
  apply IH. intros k c l Hin. apply Hw. by right.
Qed.

Lemma classify_lead_equiv (m m' : gmap pystr pyval) (schema : field_schema) :
  (∀ k, entry_equiv (m !! k) (m' !! k)) →
  scored_scalar schema m →
  classify_lead U m schema = classify_lead U m' schema.
Proof.
  intros Heq Hw. unfold classify_lead.
  by rewrite (score_fields_equiv m m' (metadata_fields schema) Heq Hw).
Qed.

(** *** A turn, two orders *)

Lemma lead_entry (m : gmap pystr pyval) (tag : pystr) (k : pystr) :
  sanitized_entry (m !! k) → sanitized_entry (<[lead_key:=PStr tag]> m !! k).
Proof.
  intros Hm. rewrite (lookup_lead m tag k). case_bool_decide; [|done].
  intros v [= <-]. right. left. eauto.
Qed.

Lemma lead_equiv (m m' : gmap pystr pyval) (tag : pystr) (k : pystr) :
  entry_equiv (m !! k) (m' !! k) →
  entry_equiv (<[lead_key:=PStr tag]> m !! k) (<[lead_key:=PStr tag]> m' !! k).
Proof. intros Hm. rewrite !lookup_lead. by case_bool_decide. Qed.

(** Two turns with the same metadata on profiles that differ in the order
    of their lists only: both raise, or both return, with profiles that
    differ in the order of their lists only. *)
Lemma merge_and_save_by_sim (order order' : set_order) (schema : field_schema)
    (user_id user_id' now now' : pystr) (st st' : store) (M : gmap pystr pyval) :
  reorders order → reorders order' →
  sanitized_metadata M →
  profile_equiv (load_metadata st) (load_metadata st') →
  scored_scalar schema (load_metadata st) →
  scored_scalar schema M →
  match merge_and_save_by U order schema user_id now st M,
        merge_and_save_by U order' schema user_id' now' st' M with
  | Ok s, Ok s' => profile_equiv (load_metadata s) (load_metadata s')
  | Raise _, Raise _ => True
  | _, _ => False
  end.
Proof.
  intros Ho Ho' HM HP HwP HwM. unfold merge_and_save_by, save_metadata_by.
  set (P := load_metadata st) in *. set (P' := load_metadata st') in *.
  assert (Hkey : ∀ k,
    match merge_key_by order (P !! k) (M !! k), merge_key_by order' (P' !! k) (M !! k) with
    | Ok a, Ok b => entry_equiv a b ∧ sanitized_entry a ∧ sanitized_entry b
    | Raise _, Raise _ => True
    | _, _ => False
    end).
  { intros k. apply merge_key_sim; [done|done|apply sanitized_entry_loaded
      |apply sanitized_entry_loaded|by apply (proj1 (profile_equiv_entries _ _))|exact (HM k)]. }
  pose proof (merge_loop_by_keys order P M) as L1.
  pose proof (merge_loop_by_keys order' P' M) as L1'.
  destruct (merge_new_metadata_by order P M) as [m1|e1],
           (merge_new_metadata_by order' P' M) as [m1'|e1']; simpl.
  4: done.
  2:{ destruct L1' as [k Hk]. specialize (Hkey k). by rewrite L1, Hk in Hkey. }
  2:{ destruct L1 as [k Hk]. specialize (Hkey k). by rewrite L1', Hk in Hkey. }
  assert (Hm1 : ∀ k, entry_equiv (m1 !! k) (m1' !! k)
                     ∧ sanitized_entry (m1 !! k) ∧ sanitized_entry (m1' !! k)).
  { intros k. specialize (Hkey k). by rewrite L1, L1' in Hkey. }
  assert (Hscalar : scored_scalar schema m1).
  { intros k config l Hin Hsome. revert l.
    apply (merge_key_by_scalar order (P !! k) (M !! k)); [| |apply L1].
    - intros l. by apply (HwP k config).
    - intros l. by apply (HwM k config). }
  rewrite <- (classify_lead_equiv m1 m1' schema (λ k, proj1 (Hm1 k)) Hscalar).
  destruct (classify_lead U m1 schema) as [tag|e]; simpl; [|done].
  fold lead_key.
  assert (Hsave : ∀ k,
    match save_key_by U order (P !! k) (<[lead_key:=PStr tag]> m1 !! k),
          save_key_by U order' (P' !! k) (<[lead_key:=PStr tag]> m1' !! k) with
    | Ok a, Ok b => entry_equiv (a ≫= stored_value U) (b ≫= stored_value U)
    | Raise _, Raise _ => True
    | _, _ => False
    end).
  { intros k. destruct (Hm1 k) as (Heq & Hs & Hs').
    apply save_key_sim; [done|done|apply sanitized_entry_loaded
      |apply sanitized_entry_loaded|by apply (proj1 (profile_equiv_entries _ _))
      |by apply lead_entry|by apply lead_entry|by apply lead_equiv]. }
  pose proof (save_loop_by_keys U order P (<[lead_key:=PStr tag]> m1)) as L2.
  pose proof (save_loop_by_keys U order' P' (<[lead_key:=PStr tag]> m1')) as L2'.
  destruct (for_items (<[lead_key:=PStr tag]> m1) _ P) as [m2|e2],
           (for_items (<[lead_key:=PStr tag]> m1') _ P') as [m2'|e2'];
    cbn [mbind result_bind].
  4: done.
  2:{ destruct L2' as [k Hk]. specialize (Hsave k). by rewrite L2, Hk in Hsave. }
  2:{ destruct L2 as [k Hk]. specialize (Hsave k). by rewrite L2', Hk in Hsave. }
  apply (proj2 (profile_equiv_entries _ _)). intros k. rewrite !load_build_item.
  destruct (control_key k); [done|].
  specialize (Hsave k). by rewrite L2, L2' in Hsave.
Qed.

(** A turn puts no list where the classifier reads. *)
Lemma merge_and_save_by_scalar (order : set_order) (schema : field_schema)
    (user_id now : pystr) (st st1 : store) (M : gmap pystr pyval) :
  merge_and_save_by U order schema user_id now st M = Ok st1 →
  scored_scalar schema (load_metadata st) →
  scored_scalar schema M →
  scored_scalar schema (load_metadata st1).
Proof.
  unfold merge_and_save_by, save_metadata_by.
  pose proof (merge_loop_by_keys order (load_metadata st) M) as L1.
  destruct (merge_new_metadata_by order _ M) as [m1|e1]; simpl; [|done].
  destruct (classify_lead U m1 schema) as [tag|e]; simpl; [|done].
  fold lead_key.
  pose proof (save_loop_by_keys U order (load_metadata st) (<[lead_key:=PStr tag]> m1)) as L2.
  destruct (for_items _ _ _) as [m2|e2]; simpl; [|done].
  intros [= <-] HwP HwM k config l Hin Hsome. revert l.
  rewrite load_build_item. destruct (control_key k); [done|].
  apply (save_key_by_scalar U order (load_metadata st !! k)
           (<[lead_key:=PStr tag]> m1 !! k)); [| |apply L2].
  - intros l. by apply (HwP k config).
  - rewrite lookup_lead. case_bool_decide; [done|].
    apply (merge_key_by_scalar order (load_metadata st !! k) (M !! k)); [| |apply L1].
    + intros l. by apply (HwP k config).
    + intros l. by apply (HwM k config).
Qed.

Lemma profile_equiv_sym (P Q : gmap pystr pyval) : profile_equiv P Q → profile_equiv Q P.
Proof.
  rewrite !profile_equiv_entries. intros H k. by apply entry_equiv_sym.
Qed.

Lemma profile_equiv_trans (P Q R : gmap pystr pyval) :
  profile_equiv P Q → profile_equiv Q R → profile_equiv P R.
Proof.
  rewrite !profile_equiv_entries. intros H1 H2 k. by eapply entry_equiv_trans.
Qed.

End Turns.

Section Twice.
Context (U : unicode).

(** C5 (as amended): on a profile as the table holds it, a second turn
    with the same sanitized metadata leaves the profile the first turn
    wrote, the derived tag included and lists compared as sets, whatever
    order the interpreter gives the sets in either turn, provided the
    schema does not declare the tag's key as a field of its own and no
    field the classifier scores holds a list. *)
Theorem merge_and_save_idempotent (order order' : set_order) (schema : field_schema)
    (user_id now now' : pystr) (st : store) (M : gmap pystr pyval) :
  reorders order → reorders order' →
  sanitized_metadata M →
  persisted_profile (load_metadata st) →
  lead_key ∉ (metadata_fields schema).*1 →
  scored_scalar schema (load_metadata st) →
  scored_scalar schema M →
  profile_equiv
    (load_metadata
       (store_after (store_after st (merge_and_save_by U order schema user_id now st M))
          (merge_and_save_by U order' schema user_id now'
             (store_after st (merge_and_save_by U order schema user_id now st M)) M)))
    (load_metadata (store_after st (merge_and_save_by U order schema user_id now st M))).
Proof.
  intros Ho Ho' HM HP Hlead HwP HwM.
  assert (Hfirst : reorders first_seen) by (by intros xs).
  pose proof (merge_and_save_twice_first_seen U schema user_id now now' st M HM HP Hlead)
    as Hfixed.
  pose proof (merge_and_save_by_sim U order first_seen schema user_id user_id now now
                st st M Ho Hfirst HM (profile_equiv_refl _) HwP HwM) as Hsim1.
  change (merge_and_save_by U first_seen schema user_id now st M)
    with (merge_and_save U schema user_id now st M) in Hsim1.
  destruct (merge_and_save_by U order schema user_id now st M) as [st1|e1] eqn:E1;
    cbn [store_after].
  - destruct (merge_and_save U schema user_id now st M) as [st1f|e1f] eqn:E1f; [|done].
    cbn [store_after] in Hfixed.
    pose proof (merge_and_save_by_scalar U order schema user_id now st st1 M E1 HwP HwM)
      as Hw1.
    pose proof (merge_and_save_by_sim U order' first_seen schema user_id user_id now' now'
                  st1 st1f M Ho' Hfirst HM Hsim1 Hw1 HwM) as Hsim2.
    change (merge_and_save_by U first_seen schema user_id now' st1f M)
      with (merge_and_save U schema user_id now' st1f M) in Hsim2.
    destruct (merge_and_save_by U order' schema user_id now' st1 M) as [st2|e2];
      cbn [store_after]; [|apply profile_equiv_refl].
    destruct (merge_and_save U schema user_id now' st1f M) as [st2f|e2f]; [|done].
    cbn [store_after] in Hfixed.
    eapply profile_equiv_trans; [exact Hsim2|].
    eapply profile_equiv_trans; [exact Hfixed|].
    by apply profile_equiv_sym.
  - destruct (merge_and_save U schema user_id now st M) as [st1f|e1f] eqn:E1f; [done|].
    pose proof (merge_and_save_by_sim U order' first_seen schema user_id user_id now' now
                  st st M Ho' Hfirst HM (profile_equiv_refl _) HwP HwM) as Hsim2.
    change (merge_and_save_by U first_seen schema user_id now st M)
      with (merge_and_save U schema user_id now st M) in Hsim2.
    rewrite E1f in Hsim2.
    destruct (merge_and_save_by U order' schema user_id now' st M) as [st2|e2];
      [done|]. apply profile_equiv_refl.
Qed.
End Twice.

(** * Beyond the claims

    The sanitizers, the classifier, the merge and the assembler on the
    inputs the statements above leave out. *)

(** ** Decimal numerals read back *)

Section Numerals.
Context (U : unicode).

Lemma uint_codes_ascii (d : Decimal.uint) : Forall ascii_digit (uint_codes d).
Proof. induction d; simpl; constructor; try done; unfold ascii_digit; lia. Qed.

Lemma ascii_digit_value (c : N) : ascii_digit c → digit_value U c = Some (c - 48).
Proof.
  intros [H1 H2]. unfold digit_value.
  rewrite (proj2 (N.ltb_lt c 128)) by lia.
  rewrite (proj2 (N.leb_le 48 c)), (proj2 (N.leb_le c 57)) by done. done.
Qed.

Lemma ascii_digit_is_digit (c : N) : ascii_digit c → is_digit U c = true.
Proof. intros Hc. unfold is_digit. by rewrite ascii_digit_value. Qed.

Lemma ascii_digit_not_comma (c : N) : ascii_digit c → c ≠ comma.
Proof. intros [H1 H2] ->. unfold comma in *. lia. Qed.

(** Reading a numeral: [int(str(n)) = n]. *)
Lemma fold_digits_pos (d : Decimal.uint) (p : positive) :
  fold_left (λ acc c, 10 * acc + default 0 (digit_value U c)) (uint_codes d) (Npos p)
  = Npos (Pos.of_uint_acc d p).
Proof.
  revert p. induction d; intros p; [done|..];
    cbn [uint_codes fold_left];
    rewrite ascii_digit_value by (unfold ascii_digit; lia);
    cbn [Pos.of_uint_acc]; rewrite <- IHd; f_equal; cbn [default];
    unfold id; lia.
Qed.

Lemma fold_digits_zero (d : Decimal.uint) :
  fold_left (λ acc c, 10 * acc + default 0 (digit_value U c)) (uint_codes d) 0
  = Pos.of_uint d.
Proof.
  induction d; [done|..];
    cbn [uint_codes fold_left];
    rewrite ascii_digit_value by (unfold ascii_digit; lia);
    cbn [Pos.of_uint default];
    first [exact IHd | apply fold_digits_pos].
Qed.

Lemma int_of_digits_decimal (n : N) : int_of_digits U (decimal n) = n.
Proof.
  unfold int_of_digits, decimal. rewrite fold_digits_zero.
  apply DecimalN.Unsigned.of_to.
Qed.

End Numerals.

(** ** Amounts: digits in, digits out *)

Section Amounts.
Context (U : unicode).

Lemma findall_aux_digits (ds rest run : pystr) :
  Forall (λ c, is_digit U c = true) ds →
  findall_aux U (ds ++ rest) run = findall_aux U rest (rev ds ++ run).
Proof.
  intros Hds. revert run. induction Hds as [|c ds Hc _ IH]; intros run; [done|].
  simpl. rewrite Hc, IH. by rewrite <- app_assoc.
Qed.

Lemma findall_digits (ds : pystr) :
  Forall (λ c, is_digit U c = true) ds →
  findall_d3 U ds = if (3 <=? length ds)%nat then [ds] else [].
Proof.
  intros Hds. unfold findall_d3.
  rewrite <- (app_nil_r ds) at 1. rewrite findall_aux_digits by done.
  simpl. unfold flush. rewrite app_nil_r, length_rev, rev_involutive. done.
Qed.

Lemma decimal_is_digit (n : N) : Forall (λ c, is_digit U c = true) (decimal n).
Proof.
  eapply Forall_impl; [apply uint_codes_ascii|]. apply ascii_digit_is_digit.
Qed.

Lemma remove_commas_digits (ds : pystr) :
  Forall ascii_digit ds → remove_commas ds = ds.
Proof.
  intros Hds. unfold remove_commas. induction Hds as [|c ds Hc _ IH]; [done|].
  rewrite filter_cons_True by (by apply ascii_digit_not_comma). by rewrite IH.
Qed.

Lemma remove_commas_app (a b : pystr) :
  remove_commas (a ++ b) = remove_commas a ++ remove_commas b.
Proof. apply filter_app. Qed.

Lemma remove_commas_rev (l : pystr) : remove_commas (rev l) = rev (remove_commas l).
Proof.
  induction l as [|c l IH]; [done|]. simpl. rewrite remove_commas_app, IH.
  unfold remove_commas at 2 3. rewrite filter_cons.
  destruct (decide (c ≠ comma)); simpl.
  - by rewrite filter_cons_True, filter_nil.
  - rewrite filter_cons_False by done. by rewrite filter_nil, app_nil_r.
Qed.

Lemma remove_commas_group3 (l : pystr) : remove_commas (group3 l) = remove_commas l.
Proof.
  remember (length l) as n eqn:Hn. revert l Hn.
  induction n as [n IH] using lt_wf_ind. intros l Hn.
  destruct l as [|a [|b [|c [|d r]]]]; try done.
  change (group3 (a :: b :: c :: d :: r)) with (a :: b :: c :: comma :: group3 (d :: r)).
  unfold remove_commas in *.
  rewrite !(filter_cons _ a), !(filter_cons _ b), !(filter_cons _ c).
  rewrite (filter_cons_False _ comma) by (intros H; by apply H).
  rewrite (IH (length (d :: r))); [done| |done]. subst n. simpl. lia.
Qed.

Lemma remove_commas_thousands (n : N) : remove_commas (thousands n) = decimal n.
Proof.
  unfold thousands. rewrite remove_commas_rev, remove_commas_group3.
  rewrite <- remove_commas_rev, rev_involutive.
  apply remove_commas_digits, uint_codes_ascii.
Qed.

(** Three digits from a hundred on. *)
Lemma decimal_short (n : N) : n < 100 → (length (decimal n) < 3)%nat.
Proof.
  intros Hn.
  assert (Hall : forallb (λ k, (length (decimal (N.of_nat k)) <? 3)%nat) (seq 0 100) = true)
    by (vm_compute; reflexivity).
  rewrite forallb_forall in Hall.
  specialize (Hall (N.to_nat n)). rewrite N2Nat.id in Hall.
  apply Nat.ltb_lt, Hall, in_seq. lia.
Qed.

Lemma decimal_long (n : N) : 100 ≤ n → (3 ≤ length (decimal n))%nat.
Proof.
  intros Hn. destruct (decide (3 ≤ length (decimal n))%nat) as [|Hshort]; [done|].
  exfalso. pose proof (int_of_digits_decimal U n) as Hval.
  pose proof (uint_codes_ascii (N.to_uint n)) as Hdig. fold (decimal n) in Hdig.
  unfold int_of_digits in Hval.
  destruct (decimal n) as [|a [|b [|c r]]]; simpl in *; try lia.
  - apply Forall_cons in Hdig as [Ha _].
    rewrite (ascii_digit_value U a Ha) in Hval. unfold ascii_digit in Ha. simpl in Hval. lia.
  - apply Forall_cons in Hdig as [Ha Hr]. apply Forall_cons in Hr as [Hb _].
    rewrite (ascii_digit_value U a Ha), (ascii_digit_value U b Hb) in Hval.
    unfold ascii_digit in Ha, Hb. simpl in Hval. lia.
Qed.

Lemma findall_decimal (n : N) :
  findall_d3 U (decimal n) = if 100 <=? n then [decimal n] else [].
Proof.
  rewrite findall_digits by apply decimal_is_digit.
  destruct (N.leb_spec 100 n) as [Hn|Hn].
  - by rewrite (proj2 (Nat.leb_le _ _) (decimal_long n Hn)).
  - apply decimal_short in Hn. by rewrite (proj2 (Nat.leb_gt _ _) Hn).
Qed.

(** X1: a budget given as an int loses its sign and becomes a pound amount
    with thousands separators; an int under a hundred in absolute value
    gives null. *)
Theorem sanitize_range_number_int (z : Z) :
  sanitize_range_number U (PInt z)
  = if 100 <=? Z.abs_N z then PStr (pound :: thousands (Z.abs_N z)) else PNone.
Proof.
  unfold sanitize_range_number. destruct z as [|p|p]; [done|..].
  - simpl truthy. simpl negb. cbn [py_str py_repr decimal_Z].
    change (Z.to_N (Z.pos p)) with (N.pos p). change (Z.abs_N (Z.pos p)) with (N.pos p).
    rewrite remove_commas_digits by apply uint_codes_ascii.
    rewrite findall_decimal. destruct (100 <=? N.pos p); [|done].
    unfold pounds. by rewrite int_of_digits_decimal.
  - simpl truthy. simpl negb. cbn [py_str py_repr decimal_Z].
    change (Z.abs_N (Z.neg p)) with (N.pos p).
    unfold remove_commas. rewrite filter_cons_True by done.
    fold (remove_commas (decimal (N.pos p))).
    rewrite remove_commas_digits by apply uint_codes_ascii.
    unfold findall_d3. simpl findall_aux.
    change (findall_aux U (decimal (N.pos p)) []) with (findall_d3 U (decimal (N.pos p))).
    rewrite findall_decimal. destruct (100 <=? N.pos p); [|done].
    unfold pounds. by rewrite int_of_digits_decimal.
Qed.

End Amounts.

(** ** The sanitizer and the classifier on amounts the sanitizer wrote *)

Section ReadBack.
Context (U : unicode).

(** Neither U+00A3 nor U+2013 is a decimal digit in Unicode; the statements
    of this section hold for an interpreter table that agrees. *)
Hypothesis pound_no_digit : is_digit U pound = false.
Hypothesis dash_no_digit : is_digit U en_dash = false.

Lemma remove_commas_amount (n : N) :
  remove_commas (pound :: thousands n) = pound :: decimal n.
Proof.
  unfold remove_commas. rewrite filter_cons_True by done.
  fold (remove_commas (thousands n)). by rewrite remove_commas_thousands.
Qed.

Lemma findall_amount (n : N) (rest : pystr) :
  findall_d3 U (pound :: decimal n ++ rest)
  = findall_aux U rest (rev (decimal n)).
Proof.
  unfold findall_d3. simpl. rewrite pound_no_digit. simpl.
  rewrite (findall_aux_digits U) by apply decimal_is_digit. by rewrite app_nil_r.
Qed.

Lemma findall_aux_break (c : N) (rest run : pystr) :
  is_digit U c = false →
  findall_aux U (c :: rest) run = flush run ++ findall_d3 U rest.
Proof. intros Hc. simpl. by rewrite Hc. Qed.

Lemma findall_amount_end (n : N) :
  findall_d3 U (pound :: decimal n) = flush (rev (decimal n)).
Proof. pose proof (findall_amount n []) as H. by rewrite app_nil_r in H. Qed.

Lemma flush_decimal (n : N) :
  flush (rev (decimal n)) = if 100 <=? n then [decimal n] else [].
Proof.
  rewrite <- (findall_decimal U n), (findall_digits U) by apply decimal_is_digit.
  unfold flush. by rewrite length_rev, rev_involutive.
Qed.

Lemma findall_single (n : N) :
  findall_d3 U (remove_commas (pound :: thousands n))
  = if 100 <=? n then [decimal n] else [].
Proof.
  rewrite remove_commas_amount, findall_amount_end. apply flush_decimal.
Qed.

Lemma findall_range (a b : N) :
  findall_d3 U (remove_commas (pound :: thousands a ++ en_dash :: pound :: thousands b))
  = (if 100 <=? a then [decimal a] else []) ++ (if 100 <=? b then [decimal b] else []).
Proof.
  change (pound :: thousands a ++ en_dash :: pound :: thousands b)
    with ((pound :: thousands a) ++ [en_dash] ++ (pound :: thousands b)).
  rewrite !remove_commas_app, !remove_commas_amount.
  assert (Hd : remove_commas [en_dash] = [en_dash]) by done. rewrite Hd.
  change ((pound :: decimal a) ++ [en_dash] ++ pound :: decimal b)
    with (pound :: decimal a ++ en_dash :: pound :: decimal b).
  rewrite findall_amount, findall_aux_break, flush_decimal by done. f_equal.
  rewrite findall_amount_end. apply flush_decimal.
Qed.

(** X2: a single amount the sanitizer wrote, given to the sanitizer again,
    comes back unchanged when it is a hundred or more and gives null when
    it is less; the pound sign is no digit of the interpreter. *)
Theorem sanitize_range_number_amount (n : N) :
  sanitize_range_number U (PStr (pound :: thousands n))
  = if 100 <=? n then PStr (pound :: thousands n) else PNone.
Proof.
  unfold sanitize_range_number. simpl truthy. simpl negb. cbn [py_str].
  rewrite findall_single. destruct (100 <=? n); [|done].
  unfold pounds. by rewrite int_of_digits_decimal.
Qed.

Lemma sanitize_range_number_single (n : N) :
  100 ≤ n →
  sanitize_range_number U (PStr (pound :: thousands n)) = PStr (pound :: thousands n).
Proof.
  intros Hn. unfold sanitize_range_number. simpl truthy. simpl negb. cbn [py_str].
  rewrite findall_single, (proj2 (N.leb_le 100 n)) by done.
  unfold pounds. by rewrite int_of_digits_decimal.
Qed.

Lemma sanitize_range_number_range (a b : N) :
  100 ≤ a → 100 ≤ b →
  sanitize_range_number U (PStr (pound :: thousands a ++ en_dash :: pound :: thousands b))
  = PStr (pound :: thousands a ++ en_dash :: pound :: thousands b).
Proof.
  intros Ha Hb. unfold sanitize_range_number. simpl truthy. simpl negb. cbn [py_str].
  rewrite findall_range.
  rewrite (proj2 (N.leb_le 100 a)), (proj2 (N.leb_le 100 b)) by done. simpl.
  unfold pounds. by rewrite !int_of_digits_decimal.
Qed.

(** X3: the sanitizer on its own result gives that result again, as long
    as the numbers it found in the input are a hundred or more; neither
    the pound sign nor the dash is a digit of the interpreter. *)
Theorem sanitize_range_number_idempotent (value : pyval) :
  Forall (λ m, 100 ≤ int_of_digits U m)
         (findall_d3 U (remove_commas (py_str U value))) →
  sanitize_range_number U (sanitize_range_number U value)
  = sanitize_range_number U value.
Proof.
  intros Hbig. unfold sanitize_range_number at 2 3.
  destruct (negb (truthy value)); [done|].
  destruct (findall_d3 U _) as [|lo [|hi [|]]]; try done.
  - apply Forall_cons in Hbig as [Hlo _]. unfold pounds.
    by apply sanitize_range_number_single.
  - apply Forall_cons in Hbig as [Hlo Hhi]. apply Forall_cons in Hhi as [Hhi _].
    unfold pounds. by apply sanitize_range_number_range.
Qed.

(** X4: on a range the sanitizer wrote, the classifier scores the upper
    amount when that is a hundred or more, else the lower one when that
    is, else adds nothing. *)
Theorem classify_lead_reads_range (metadata : gmap pystr pyval) (key : pystr)
    (config : field_config) (weights : list (pystr * wval))
    (thresholds scores : list Z) (a b : N) (score : Z) :
  fc_type config = Some (u "range_number") →
  fc_weights config = Some weights →
  dict_get (u "thresholds") weights = Some (WSeq thresholds) →
  dict_get (u "scores") weights = Some (WSeq scores) →
  metadata !! key
  = Some (PStr (pound :: thousands a ++ en_dash :: pound :: thousands b)) →
  score_field U metadata score (key, config)
  = Ok (if 100 <=? b then add_threshold_scores (Z.of_N b) thresholds scores score
        else if 100 <=? a then add_threshold_scores (Z.of_N a) thresholds scores score
        else score).
Proof.
  intros Htype Hweights Hth Hsc Hval. unfold score_field.
  rewrite Hval, Hweights, Htype, Hth, Hsc. simpl default. simpl truthy. simpl negb.
  rewrite bool_decide_eq_true_2 by done.
  rewrite (bool_decide_eq_true_2 (is_Some _)) by eauto. simpl andb. cbn [py_str].
  rewrite findall_range.
  destruct (100 <=? a), (100 <=? b); simpl; by rewrite ?int_of_digits_decimal.
Qed.

(** X5: on a single amount the sanitizer wrote, the classifier scores that
    amount when it is a hundred or more and adds nothing otherwise. *)
Theorem classify_lead_reads_amount (metadata : gmap pystr pyval) (key : pystr)
    (config : field_config) (weights : list (pystr * wval))
    (thresholds scores : list Z) (n : N) (score : Z) :
  fc_type config = Some (u "range_number") →
  fc_weights config = Some weights →
  dict_get (u "thresholds") weights = Some (WSeq thresholds) →
  dict_get (u "scores") weights = Some (WSeq scores) →
  metadata !! key = Some (PStr (pound :: thousands n)) →
  score_field U metadata score (key, config)
  = Ok (if 100 <=? n then add_threshold_scores (Z.of_N n) thresholds scores score
        else score).
Proof.
  intros Htype Hweights Hth Hsc Hval. unfold score_field.
  rewrite Hval, Hweights, Htype, Hth, Hsc. simpl default. simpl truthy. simpl negb.
  rewrite bool_decide_eq_true_2 by done.
  rewrite (bool_decide_eq_true_2 (is_Some _)) by eauto. simpl andb. cbn [py_str].
  rewrite findall_single.
  destruct (100 <=? n); simpl; by rewrite ?int_of_digits_decimal.
Qed.

End ReadBack.

(** ** The list sanitizer and the choices *)

Section Sanitizers.
Context (U : unicode).

Lemma split_comma_aux_length (s cur : pystr) :
  length (split_comma_aux s cur) = S (length (filter (λ c, c = comma) s)).
Proof.
  revert cur. induction s as [|c s IH]; intros cur; simpl; [done|].
  rewrite filter_cons. destruct (N.eqb_spec c comma) as [->|Hne].
  - rewrite decide_True by done. simpl. by rewrite IH.
  - rewrite decide_False by done. apply IH.
Qed.

(** X6: the list sanitizer returns a list of strings without outer blanks,
    whatever it is given. *)
Theorem sanitize_list_strings (value : pyval) :
  ∃ l, sanitize_list U value = PList (PStr <$> l) ∧ Forall (λ s, strip s = s) l.
Proof.
  destruct value as [| | |s|l|]; try (by exists []).
  - exists (strip <$> split_comma s). simpl. split.
    + by rewrite <- list_fmap_compose.
    + apply Forall_fmap, Forall_true. intros x. apply strip_idemp.
  - exists ((λ v, strip (py_str U v)) <$> filter (λ v, truthy v = true) l). simpl. split.
    + by rewrite <- list_fmap_compose.
    + apply Forall_fmap, Forall_true. intros x. apply strip_idemp.
Qed.

(** X7: a string gives one piece more than it has commas: the empty string
    gives a list holding one empty string, not the empty list. *)
Theorem sanitize_list_pieces (s : pystr) :
  ∃ l, sanitize_list U (PStr s) = PList (PStr <$> l)
       ∧ length l = S (length (filter (λ c, c = comma) s)).
Proof.
  exists (strip <$> split_comma s). simpl. split.
  - by rewrite <- list_fmap_compose.
  - rewrite length_fmap. apply split_comma_aux_length.
Qed.

Lemma first_choice_spec (s : pystr) (choices : list pystr) :
  match first_choice U s choices with
  | PStr c => ∃ before after, choices = before ++ c :: after
                ∧ lower U (strip s) = lower U c
                ∧ Forall (λ c', lower U (strip s) ≠ lower U c') before
  | PNone => Forall (λ c', lower U (strip s) ≠ lower U c') choices
  | _ => False
  end.
Proof.
  induction choices as [|c choices IH]; simpl; [constructor|].
  case_bool_decide as Hc.
  - exists [], choices. split_and!; [done|done|constructor].
  - destruct (first_choice U s choices) as [| | |c'| |]; try done.
    + by constructor.
    + destruct IH as (before & after & -> & Heq & Hbefore).
      exists (c :: before), after. split_and!; [done|done|by constructor].
Qed.

(** X8: the choice returned is the first declared choice equal to the value
    but for case and the value's outer blanks, in its declared spelling;
    null when the value is no string or no choice is equal. *)
Theorem normalize_choice_first (value : pyval) (choices : list pystr) :
  match normalize_choice U value choices with
  | PStr c => ∃ s before after,
                value = PStr s ∧ choices = before ++ c :: after
                ∧ lower U (strip s) = lower U c
                ∧ Forall (λ c', lower U (strip s) ≠ lower U c') before
  | PNone => ∀ s, value = PStr s →
                  Forall (λ c', lower U (strip s) ≠ lower U c') choices
  | _ => False
  end.
Proof.
  destruct value as [| | |s| |]; simpl; try done.
  pose proof (first_choice_spec s choices) as H.
  destruct (first_choice U s choices) as [| | |c| |]; try done.
  - by intros s' [= <-].
  - destruct H as (before & after & H). exists s, before, after. by split.
Qed.

End Sanitizers.

(** ** The sanitized metadata, field by field *)

Section Validate.
Context (U : unicode).

Lemma validate_field_value raw metadata field config :
  validate_field U raw metadata (field, config)
  = (v ← field_value U config (default PNone (raw !! field));
     Ok (<[field := v]> metadata)).
Proof.
  unfold validate_field, field_value.
  destruct (fc_choices config); [done|]. by destruct (FIELD_SANITIZERS U _).
Qed.

Lemma sanitize_type_raise (value : pyval) (e : exn) :
  sanitize_type U value = Raise e
  ↔ e = AttributeError
    ∧ ∃ first rest, value = PList (first :: rest) ∧ ∀ s, first ≠ PStr s.
Proof.
  split.
  - destruct value as [| | |s|[|first rest]|]; simpl; try done.
    destruct first; try done; intros [= <-]; (split; [done|]);
      eexists _, _; (split; [done|]); done.
  - intros (-> & first & rest & -> & Hfirst). simpl.
    destruct first; try done. by destruct (Hfirst s).
Qed.

Lemma field_value_raise (config : field_config) (value : pyval) (e : exn) :
  field_value U config value = Raise e
  ↔ e = AttributeError ∧ bad_type_value config value.
Proof.
  unfold field_value, bad_type_value.
  destruct (fc_choices config) as [choices|]; [naive_solver|].
  unfold FIELD_SANITIZERS.
  repeat case_bool_decide; rewrite ?sanitize_type_raise;
    try (split; [done|]; intros (_ & _ & Hty & _);
         first [done
               | match goal with
                 | H : default _ _ = _ |- _ => rewrite Hty in H; by vm_compute in H
                 end]).
  naive_solver.
Qed.

Lemma validate_fields_raise raw fields : ∀ metadata e,
  validate_fields U raw metadata fields = Raise e
  ↔ e = AttributeError
    ∧ ∃ field config, (field, config) ∈ fields
        ∧ bad_type_value config (default PNone (raw !! field)).
Proof.
  induction fields as [|[field config] rest IH]; intros metadata e; cbn [validate_fields].
  - split; [done|]. intros (_ & f & c & []%elem_of_nil & _).
  - rewrite validate_field_value.
    destruct (field_value U config _) as [v|e'] eqn:Hv; simpl.
    + rewrite IH. split.
      * intros (-> & f & c & Hin & Hbad). split; [done|]. exists f, c. split; [by right|done].
      * intros (-> & f & c & Hin & Hbad). split; [done|].
        apply elem_of_cons in Hin as [[= -> ->]|Hin]; [|eauto].
        exfalso. assert (Hr : field_value U config (default PNone (raw !! field))
                              = Raise AttributeError) by (by apply field_value_raise).
        congruence.
    + apply field_value_raise in Hv as [-> Hbad]. split.
      * intros [= <-]. split; [done|]. exists field, config. split; [by left|done].
      * by intros [-> _].
Qed.

(** X9: the sanitizer raises exactly when a field of type [type] without
    choices meets a list whose first element is no string, and what it
    raises then is AttributeError. *)
Theorem validate_metadata_raises_iff (schema : field_schema)
    (raw : gmap pystr pyval) (e : exn) :
  validate_metadata U schema raw = Raise e
  ↔ e = AttributeError
    ∧ ∃ field config, (field, config) ∈ metadata_fields schema
        ∧ bad_type_value config (default PNone (raw !! field)).
Proof. apply validate_fields_raise. Qed.

Lemma validate_fields_lookup raw fields : ∀ metadata metadata',
  validate_fields U raw metadata fields = Ok metadata' →
  NoDup fields.*1 →
  (∀ field config, (field, config) ∈ fields →
     ∃ v, field_value U config (default PNone (raw !! field)) = Ok v
          ∧ metadata' !! field = Some v)
  ∧ (∀ key, key ∉ fields.*1 → metadata' !! key = metadata !! key).
Proof.
  induction fields as [|[field config] rest IH]; intros metadata metadata'; cbn [validate_fields].
  - intros [= <-] _. split; [|done]. by intros f c []%elem_of_nil.
  - rewrite validate_field_value.
    destruct (field_value U config _) as [v|e] eqn:Hv; simpl; [|done].
    intros Hrest [Hfresh Hnd]%NoDup_cons.
    destruct (IH _ _ Hrest Hnd) as [Hin Hout]. split.
    + intros f c [[= -> ->]|Hfc]%elem_of_cons.
      * exists v. split; [done|]. rewrite Hout by done. apply lookup_insert_eq.
      * by apply Hin.
    + intros key Hkey. apply not_elem_of_cons in Hkey as [Hne Hkey].
      rewrite Hout by done. by rewrite lookup_insert_ne.
Qed.

(** X10: every declared field is a key of the result, with what its
    sanitizer gives for the raw value, null standing for a field the input
    lacks; session_id, unless declared, carries the raw value unchanged. *)
Theorem validate_metadata_values (schema : field_schema)
    (raw metadata : gmap pystr pyval) :
  validate_metadata U schema raw = Ok metadata →
  NoDup (metadata_fields schema).*1 →
  (∀ field config, (field, config) ∈ metadata_fields schema →
     ∃ v, field_value U config (default PNone (raw !! field)) = Ok v
          ∧ metadata !! field = Some v)
  ∧ (u "session_id" ∉ (metadata_fields schema).*1 →
     metadata !! u "session_id" = Some (default PNone (raw !! u "session_id"))).
Proof.
  intros Hok Hnd. destruct (validate_fields_lookup _ _ _ _ Hok Hnd) as [Hin Hout].
  split; [done|]. intros Hsid. rewrite Hout by done. apply lookup_singleton_eq.
Qed.

Lemma sanitize_range_number_sanitized (value : pyval) :
  sanitized_value (sanitize_range_number U value).
Proof.
  unfold sanitize_range_number, sanitized_value. destruct (negb _); [by left|].
  destruct (findall_d3 U _) as [|lo [|hi [|]]]; eauto.
Qed.

Lemma field_value_sanitized (config : field_config) (value v : pyval) :
  registered config → field_value U config value = Ok v → sanitized_value v.
Proof.
  unfold registered, field_value, sanitized_value.
  destruct (fc_choices config) as [choices|].
  - intros _ [= <-]. destruct value as [| | |s| |]; simpl; eauto.
    pose proof (first_choice_spec U s choices) as H.
    destruct (first_choice U s choices); try done; eauto.
  - intros [[? [=]]|Hty]. unfold FIELD_SANITIZERS.
    repeat case_bool_decide.
    + intros [= <-]. apply sanitize_range_number_sanitized.
    + intros [= <-]. right. right. destruct value as [| | |s|l|]; simpl;
        try (by exists []).
      * exists (strip <$> split_comma s). by rewrite <- list_fmap_compose.
      * exists ((λ v, strip (py_str U v)) <$> filter (λ v, truthy v = true) l).
        by rewrite <- list_fmap_compose.
    + destruct value as [| | |s|[|[] ?]|]; simpl; intros [= <-]; eauto.
    + intros [= <-]. destruct value; simpl; eauto.
    + exfalso. set_solver.
Qed.

Lemma validate_fields_sanitized raw fields : ∀ metadata metadata',
  Forall (λ entry, registered entry.2) fields →
  sanitized_metadata metadata →
  validate_fields U raw metadata fields = Ok metadata' →
  sanitized_metadata metadata'.
Proof.
  induction fields as [|[field config] rest IH]; intros metadata metadata' Hreg Hm; cbn [validate_fields].
  - by intros [= <-].
  - apply Forall_cons in Hreg as [Hc Hreg]. rewrite validate_field_value.
    destruct (field_value U config _) as [v|e] eqn:Hv; simpl; [|done].
    apply IH; [done|]. intros k w.
    destruct (decide (k = field)) as [->|Hne].
    + rewrite lookup_insert_eq. intros [= <-]. by eapply field_value_sanitized.
    + rewrite lookup_insert_ne by done. apply Hm.
Qed.

(** X11: with every field registered and a session_id that is absent, null,
    a string or a list of strings, the result holds nulls, strings and
    lists of strings only: what the merge takes as sanitized metadata. *)
Theorem validate_metadata_sanitized (schema : field_schema)
    (raw metadata : gmap pystr pyval) :
  Forall (λ entry, registered entry.2) (metadata_fields schema) →
  sanitized_value (default PNone (raw !! u "session_id")) →
  validate_metadata U schema raw = Ok metadata →
  sanitized_metadata metadata.
Proof.
  intros Hreg Hsid. apply validate_fields_sanitized; [done|].
  intros k v [_ <-]%lookup_singleton_Some. done.
Qed.

End Validate.

(** ** The classifier: tags and categorical tables *)

Section Classifier.
Context (U : unicode).

Lemma tier_in_tiers (schema : field_schema) (score : Z) : tier schema score ∈ tiers.
Proof. unfold tier, tiers. repeat destruct (_ <=? _)%Z; set_solver. Qed.

Lemma classify_lead_in_tiers (metadata : gmap pystr pyval) (schema : field_schema)
    (tag : pystr) :
  classify_lead U metadata schema = Ok tag → tag ∈ tiers.
Proof.
  unfold classify_lead. destruct (score_fields U metadata 0%Z _); simpl; [|done].
  intros [= <-]. apply tier_in_tiers.
Qed.

(** X12: the tag is one of Hot, Warm and Cold, and never falls as the score
    grows, whatever cut-offs the schema declares. *)
Theorem tier_monotone (schema : field_schema) (score score' : Z) :
  (score ≤ score')%Z →
  tier schema score ∈ tiers
  ∧ (tier schema score = u "Hot" → tier schema score' = u "Hot")
  ∧ (tier schema score = u "Warm" →
     tier schema score' = u "Hot" ∨ tier schema score' = u "Warm").
Proof.
  intros Hle. unfold tier, tiers.
  set (hot := default 3%Z _). set (warm := default 1%Z _).
  destruct (Z.leb_spec hot score), (Z.leb_spec hot score'),
           (Z.leb_spec warm score), (Z.leb_spec warm score');
    split_and!; try (intros H; by vm_compute in H); try lia; auto; set_solver.
Qed.

Lemma add_option_weight_numeric (v : pystr) (weights : list (pystr * wval)) (score : Z) :
  Forall (λ entry, ∃ w, entry.2 = WNum w) weights →
  ∃ score', add_option_weight U v weights score = Ok score'.
Proof.
  induction 1 as [|[option weight] rest [w Hw] _ IH]; simpl; [eauto|].
  simpl in Hw. subst weight. case_bool_decide; eauto.
Qed.

Lemma score_field_numeric (metadata : gmap pystr pyval) (score : Z)
    (entry : pystr * field_config) :
  numeric_table entry.2 → ∃ score', score_field U metadata score entry = Ok score'.
Proof.
  destruct entry as [key config]. simpl. intros Hnum. unfold score_field.
  destruct (negb _); [eauto|].
  destruct (fc_weights config) as [weights|] eqn:Hw; [|eauto].
  destruct (Hnum weights Hw) as [Hall|[Hty Hth]].
  - destruct (_ && _).
    + destruct (last _); [|eauto].
      destruct (dict_get (u "thresholds") weights) as [[]|]; eauto.
      destruct (dict_get (u "scores") weights) as [[]|]; eauto.
    + by apply add_option_weight_numeric.
  - rewrite Hty, bool_decide_eq_true_2 by done.
    rewrite (bool_decide_eq_true_2 (is_Some _)) by done. simpl.
    destruct (last _); [|eauto].
    destruct (dict_get (u "thresholds") weights) as [[]|]; eauto.
    destruct (dict_get (u "scores") weights) as [[]|]; eauto.
Qed.

(** X13: the classifier returns a tag for every profile when the categorical
    tables of the schema hold numbers only; a table with thresholds on a
    range_number field never makes it raise, whatever it holds. *)
Theorem classify_lead_total (metadata : gmap pystr pyval) (schema : field_schema) :
  Forall (λ entry, numeric_table entry.2) (metadata_fields schema) →
  ∃ tag, classify_lead U metadata schema = Ok tag ∧ tag ∈ tiers.
Proof.
  intros Hnum. unfold classify_lead.
  assert (Hs : ∀ score, ∃ score',
             score_fields U metadata score (metadata_fields schema) = Ok score').
  { induction Hnum as [|entry rest Hentry _ IH]; intros score; simpl; [eauto|].
    destruct (score_field_numeric metadata score entry Hentry) as [s1 ->]. simpl.
    apply IH. }
  destruct (Hs 0%Z) as [score ->]. simpl. eexists. split; [done|].
  apply tier_in_tiers.
Qed.

(** X14: a categorical table adds the weight of the first option equal to
    the value but for case and outer blanks, and of no other option. *)
Theorem classify_lead_first_option (metadata : gmap pystr pyval) (key : pystr)
    (config : field_config) (value : pyval)
    (before after : list (pystr * wval)) (option : pystr) (w score : Z) :
  metadata !! key = Some value →
  truthy value = true →
  fc_type config ≠ Some (u "range_number") →
  fc_weights config = Some (before ++ (option, WNum w) :: after) →
  lower U (strip (py_str U value)) = lower U (strip option) →
  Forall (λ entry, lower U (strip (py_str U value)) ≠ lower U (strip entry.1)) before →
  score_field U metadata score (key, config) = Ok (score + w)%Z.
Proof.
  intros Hval Htruthy Hty Hw Heq Hbefore. unfold score_field.
  rewrite Hval, Hw. simpl default. rewrite Htruthy. simpl negb.
  rewrite (bool_decide_eq_false_2 (fc_type config = _)) by done. simpl andb.
  clear Hw. induction Hbefore as [|[o x] rest Ho _ IH]; simpl.
  - by rewrite bool_decide_eq_true_2.
  - simpl in Ho. rewrite bool_decide_eq_false_2 by done. exact IH.
Qed.

End Classifier.

(** ** A turn, key by key *)

Section Turn.
Context (U : unicode).

Lemma merge_value_raise (old : option pyval) (value : pyval) (e : exn) :
  merge_value old value = Raise e → e = TypeError.
Proof.
  destruct value as [| | | |l|]; simpl; try done.
  destruct (default (PList []) old) as [| | | |l0|]; simpl; try (by intros [= <-]).
  unfold list_set. destruct (forallb hashable _); simpl; [done|by intros [= <-]].
Qed.

(** X15: a turn that brings a list for a key stored as a string raises
    TypeError, and the table stays as it was. *)
Theorem merge_and_save_list_on_string (schema : field_schema) (user_id now : pystr)
    (st : store) (M : gmap pystr pyval) (k s : pystr) (l : list pyval) :
  load_metadata st !! k = Some (PStr s) →
  M !! k = Some (PList l) →
  merge_and_save U schema user_id now st M = Raise TypeError
  ∧ store_after st (merge_and_save U schema user_id now st M) = st.
Proof.
  intros Hk HM.
  assert (H : merge_and_save U schema user_id now st M = Raise TypeError);
    [|by rewrite H].
  unfold merge_and_save.
  pose proof (merge_new_metadata_lookup (load_metadata st) M) as L.
  destruct (merge_new_metadata _ _) as [m1|e]; simpl.
  - specialize (L k). by rewrite HM, Hk in L.
  - destruct L as (j & v & _ & Hr). by rewrite (merge_value_raise _ _ _ Hr).
Qed.

(** X16: after a turn that does not raise, the stored tag is the
    classification of the merged profile, one of Hot, Warm and Cold. *)
Theorem merge_and_save_stores_tag (schema : field_schema) (user_id now : pystr)
    (st st' : store) (M : gmap pystr pyval) :
  merge_and_save U schema user_id now st M = Ok st' →
  ∃ merged tag,
    merge_new_metadata (load_metadata st) M = Ok merged
    ∧ classify_lead U merged schema = Ok tag
    ∧ tag ∈ tiers
    ∧ load_metadata st' !! lead_key = Some (PStr tag).
Proof.
  intros (m1 & tag & m2 & H1 & H2 & H3 & ->)%merge_and_save_inv.
  exists m1, tag. split_and!; [done|done|by eapply classify_lead_in_tiers|].
  rewrite load_build_item, lead_key_not_control.
  pose proof (save_loop_lookup U (load_metadata st) (<[lead_key:=PStr tag]> m1)) as L.
  rewrite H3 in L. specialize (L lead_key). rewrite lookup_insert_eq in L.
  destruct (classify_lead_tag U _ _ _ H2) as [Htag Hne].
  change (save_key U (load_metadata st !! lead_key) (Some (PStr tag))
          = Ok (m2 !! lead_key)) in L.
  rewrite save_key_str in L by done. injection L as <-. simpl.
  rewrite bool_decide_eq_false_2 by done. by rewrite Htag.
Qed.

(** X17: an incoming value that is no list, not null and not blank
    replaces what the key held, a list included; it is stored as its
    string, stripped. *)
Theorem merge_and_save_replaces (schema : field_schema) (user_id now : pystr)
    (st st' : store) (M : gmap pystr pyval) (k : pystr) (v : pyval) :
  merge_and_save U schema user_id now st M = Ok st' →
  control_key k = false → k ≠ lead_key →
  M !! k = Some v →
  v ≠ PNone → (∀ l, v ≠ PList l) → blank_str v = false →
  load_metadata st' !! k = Some (PStr (strip (py_str U v))).
Proof.
  intros (m1 & tag & m2 & _ & Hm & Hs & Hl)%turn_keys Hc Hlead HM Hn Hlist Hb.
  rewrite Hl, Hc. specialize (Hm k). specialize (Hs k).
  rewrite lookup_insert_ne in Hs by done. rewrite HM in Hm.
  assert (Hm1 : m1 !! k = Some v).
  { destruct v; simpl in Hm; try (by injection Hm as <-); try done.
    by specialize (Hlist l). }
  rewrite Hm1 in Hs.
  assert (Hm2 : m2 !! k = Some (PStr (py_str U v))).
  { unfold save_key, save_value in Hs. rewrite Hb in Hs.
    destruct v; try (by injection Hs as <-); try done. by specialize (Hlist l). }
  rewrite Hm2. simpl.
  rewrite bool_decide_eq_false_2; [done|]. by apply py_str_nonblank.
Qed.

(** X18: an incoming list of strings for a key that holds a list of strings,
    or nothing, leaves the union of the two without duplicates; the key
    stays absent when the union is empty. *)
Theorem merge_and_save_list_union (schema : field_schema) (user_id now : pystr)
    (st st' : store) (M : gmap pystr pyval) (k : pystr) (p a : list pystr) :
  merge_and_save U schema user_id now st M = Ok st' →
  control_key k = false → k ≠ lead_key →
  default (PList []) (load_metadata st !! k) = PList (PStr <$> p) →
  M !! k = Some (PList (PStr <$> a)) →
  ∃ r, NoDup r ∧ (∀ x, x ∈ r ↔ x ∈ p ∨ x ∈ a)
       ∧ load_metadata st' !! k
         = if bool_decide (r = []) then None else Some (PList (PStr <$> r)).
Proof.
  intros (m1 & tag & m2 & _ & Hm & Hs & Hl)%turn_keys Hc Hlead Hp HM.
  exists (dedup (p ++ a)). split_and!.
  - apply dedup_spec.
  - intros x. rewrite elem_of_dedup. apply elem_of_app.
  - rewrite Hl, Hc. specialize (Hm k). specialize (Hs k).
    rewrite lookup_insert_ne in Hs by done. rewrite HM in Hm.
    assert (Hm1 : m1 !! k = Some (PList (PStr <$> dedup (p ++ a)))).
    { unfold merge_key, merge_value in Hm. rewrite Hp in Hm. simpl in Hm.
      rewrite <- fmap_app, list_set_strs in Hm. simpl in Hm. by injection Hm as <-. }
    rewrite Hm1, (save_key_strs U _ p) in Hs by done. injection Hs as <-.
    rewrite dedup_again, bind_some.
    case_bool_decide as E; [by rewrite E|]. by apply stored_strs.
Qed.


Lemma update_and_save_persisted (schema : field_schema) (user_id now : pystr)
    (st : store) (raw : gmap pystr pyval) :
  Forall (λ entry, registered entry.2) (metadata_fields schema) →
  sanitized_value (default PNone (raw !! u "session_id")) →
  persisted_profile (load_metadata st) →
  persisted_profile
    (load_metadata (store_after st (update_and_save_metadata U schema user_id now st raw))).
Proof.
  intros Hreg Hsid HP. unfold update_and_save_metadata.
  destruct (validate_metadata U schema raw) as [M|e] eqn:HM; simpl; [|done].
  apply merge_and_save_persisted; [|done].
  eapply validate_fields_sanitized; [done| |exact HM].
  intros j v [_ <-]%lookup_singleton_Some. done.
Qed.

(** X21: whatever the extractor returns, the table only ever holds stripped
    non-blank strings and non-empty lists of distinct strings, when every
    field of the schema has choices or a registered type and session_id
    is absent, null, a string or a list of strings. *)
Theorem reachable_persisted (schema : field_schema) (st : store) :
  Forall (λ entry, registered entry.2) (metadata_fields schema) →
  reachable U schema st →
  persisted_profile (load_metadata st).
Proof.
  intros Hreg. induction 1 as [|st user_id now raw _ IH Hsid].
  - apply persisted_profile_empty.
  - by apply update_and_save_persisted.
Qed.

End Turn.

(** ** A turn from the raw metadata, the verifier and the assembler *)

Section Assembler.
Context (U : unicode).

(** One key through a turn that brings a value other than a list. *)
Lemma key_replaced (pk m1k m2k : option pyval) (v : pyval) :
  v ≠ PNone → (∀ l, v ≠ PList l) → blank_str v = false →
  merge_key pk (Some v) = Ok m1k →
  save_key U pk m1k = Ok m2k →
  m2k ≫= stored_value U = Some (PStr (strip (py_str U v))).
Proof.
  intros Hn Hlist Hb Hm Hs.
  assert (Hm1 : m1k = Some v).
  { destruct v; simpl in Hm; try (by injection Hm as <-); try done.
    by specialize (Hlist l). }
  subst m1k.
  assert (Hm2 : m2k = Some (PStr (py_str U v))).
  { unfold save_key, save_value in Hs. rewrite Hb in Hs.
    destruct v; try (by injection Hs as <-); try done. by specialize (Hlist l). }
  subst m2k. rewrite bind_some. apply stored_str. by apply py_str_nonblank.
Qed.

(** X22: what a turn stores for a declared field whose sanitizer returns a
    string with more than blanks is that string, stripped, whatever the
    key held before. *)
Theorem update_and_save_stores_string (schema : field_schema) (user_id now : pystr)
    (st st' : store) (raw : gmap pystr pyval) (key : pystr) (config : field_config)
    (s : pystr) :
  NoDup (metadata_fields schema).*1 →
  (key, config) ∈ metadata_fields schema →
  control_key key = false → key ≠ lead_key →
  field_value U config (default PNone (raw !! key)) = Ok (PStr s) →
  strip s ≠ [] →
  update_and_save_metadata U schema user_id now st raw = Ok st' →
  load_metadata st' !! key = Some (PStr (strip s)).
Proof.
  intros Hnd Hin Hc Hlead Hv Hs. unfold update_and_save_metadata.
  destruct (validate_metadata U schema raw) as [M|e] eqn:HM; simpl; [|done].
  destruct (validate_fields_lookup U _ _ _ _ HM Hnd) as [Hfields _].
  destruct (Hfields key config Hin) as (v & Hv' & HMk).
  rewrite Hv in Hv'. injection Hv' as <-.
  intros (m1 & tag & m2 & _ & Hm & Hsave & Hl)%turn_keys.
  rewrite Hl, Hc. specialize (Hm key). specialize (Hsave key).
  rewrite lookup_insert_ne in Hsave by done. rewrite HMk in Hm.
  assert (Hb : blank_str (PStr s) = false) by (by apply bool_decide_eq_false_2).
  exact (key_replaced _ _ _ (PStr s) ltac:(done) ltac:(done) Hb Hm Hsave).
Qed.

(** ** The grounding verifier *)

Lemma lower_nil : lower U [] = [].
Proof. done. Qed.

Lemma py_in_nil (text : pystr) : py_in [] text = true.
Proof. by destruct text. Qed.

(** X23: a listing whose address or identifier is the empty string makes
    the verifier accept every reply, strict mode included. *)
Theorem is_reply_grounded_empty_address (reply_text : pystr)
    (similar_items : list fact) (must_match : bool) (h : fact) :
  h ∈ similar_items →
  address h = [] ∨ external_id h = [] →
  is_reply_grounded U reply_text similar_items must_match = true.
Proof.
  intros Hh Hempty. unfold is_reply_grounded.
  destruct similar_items as [|h0 rest]; [done|].
  destruct (py_in _ _ && py_in _ _); [done|].
  assert (Hknown :
    existsb (λ addr, py_in addr (lower U reply_text))
      ((λ h, lower U (address h)) <$> h0 :: rest)
    || existsb (λ ext_id, py_in ext_id (lower U reply_text))
         ((λ h, lower U (external_id h)) <$> h0 :: rest) = true).
  { apply mentions_known_spec. exists h. split; [done|].
    destruct Hempty as [-> | ->]; [right|left]; apply py_in_spec, py_in_nil. }
  by rewrite Hknown.
Qed.

(** ** The grounding message *)

Lemma str_items_ok_or_mixed (l : list pyval) :
  (∃ ss, str_items l = Ok ss) ∨ (∃ x, x ∈ l ∧ ∀ s, x ≠ PStr s).
Proof.
  induction l as [|v l [[ss IH]|(x & Hx & Hns)]].
  - left. by exists [].
  - destruct v; try (right; eexists; split; [apply list_elem_of_here|done]).
    left. simpl. rewrite IH. simpl. eauto.
  - right. exists x. split; [by apply list_elem_of_further|done].
Qed.

Lemma str_items_mixed (l : list pyval) (x : pyval) :
  x ∈ l → (∀ s, x ≠ PStr s) → ∃ e, str_items l = Raise e.
Proof.
  induction l as [|v l IH]; intros Hx Hns; [by apply elem_of_nil in Hx|].
  apply elem_of_cons in Hx as [->|Hx].
  - destruct v; simpl; eauto. by destruct (Hns s).
  - destruct (IH Hx Hns) as [e He]. destruct v; simpl; eauto.
    rewrite He. simpl. eauto.
Qed.

Lemma preference_text_raise (value : pyval) :
  (∃ e, preference_text U value = Raise e) ↔ mixed_list value.
Proof.
  unfold preference_text, mixed_list. split.
  - intros [e He]. destruct value as [| | | |l|]; try done.
    destruct (str_items_ok_or_mixed l) as [[ss Hss]|(x & Hx & Hns)].
    + by rewrite Hss in He.
    + by exists l, x.
  - intros (l & x & -> & Hx & Hns).
    destruct (str_items_mixed l x Hx Hns) as [e ->]. simpl. eauto.
Qed.

Lemma mixed_list_truthy (value : pyval) : mixed_list value → truthy value = true.
Proof.
  intros (l & x & -> & Hx & _). destruct l; [by apply elem_of_nil in Hx|done].
Qed.

Lemma preference_lines_raise_iff (labels : list (pystr * pystr))
    (metadata : gmap pystr pyval) :
  (∃ e, preference_lines U labels metadata = Raise e)
  ↔ ∃ key label, (key, label) ∈ labels ∧ mixed_list (default PNone (metadata !! key)).
Proof.
  induction labels as [|[key label] rest IH]; cbn [preference_lines].
  - split; [by intros [e ?]|]. by intros (k & l & []%elem_of_nil & _).
  - set (value := default PNone (metadata !! key)).
    assert (Hrest : (∃ key0 label0, (key0, label0) ∈ (key, label) :: rest
                       ∧ mixed_list (default PNone (metadata !! key0)))
                    ↔ mixed_list value
                      ∨ ∃ e, preference_lines U rest metadata = Raise e).
    { rewrite IH. split.
      - intros (k & lb & [[= -> ->]|Hin]%elem_of_cons & Hmixed); [by left|right; eauto].
      - intros [Hmixed|(k & lb & Hin & Hmixed)].
        + exists key, label. split; [by left|done].
        + exists k, lb. split; [by right|done]. }
    rewrite Hrest. clear Hrest IH.
    pose proof (preference_text_raise value) as Htext.
    pose proof (mixed_list_truthy value) as Htruthy.
    destruct (truthy value).
    + destruct (preference_text U value) as [text|e0]; simpl.
      * destruct (preference_lines U rest metadata) as [lines|e1]; simpl.
        -- split; [by intros [e ?]|]. intros [Hm|[e ?]]; [|done].
           apply Htext in Hm as [e ?]. done.
        -- split; eauto.
      * split; [|eauto]. intros _. left. apply Htext. eauto.
    + split; [eauto|]. intros [Hm|H]; [|done]. by specialize (Htruthy Hm).
Qed.

(** X24: the grounding message cannot be built exactly when a labelled key
    of the profile holds a list with an element that is no string; the
    exception then is TypeError. *)
Theorem format_metadata_context_prompt_raises (labels : field_schema)
    (metadata : gmap pystr pyval) (e : exn) :
  format_metadata_context_prompt U labels metadata = Raise e
  ↔ e = TypeError
    ∧ ∃ key label, (key, label) ∈ context_labels labels
        ∧ mixed_list (default PNone (metadata !! key)).
Proof.
  unfold format_metadata_context_prompt. case_bool_decide as Hempty.
  - split; [done|]. intros (_ & k & lb & _ & l & x & Hval & Hx & _).
    subst metadata. rewrite lookup_empty in Hval. done.
  - destruct (preference_lines U _ _) as [lines|e'] eqn:Hlines; simpl.
    + split; [done|]. intros [_ Hmixed].
      apply preference_lines_raise_iff in Hmixed as [e1 He1]. congruence.
    + split.
      * intros [= <-]. split; [by eapply preference_lines_raise|].
        apply preference_lines_raise_iff. eauto.
      * intros [-> _]. f_equal. by eapply preference_lines_raise.
Qed.

(** ** The context assembler *)

(** X25: a context that is built starts with the one system message, goes
    on with the history without its system messages, then holds user
    messages only, and ends with the current message. *)
Theorem build_prompt_or_shape (labels : field_schema)
    (system_prompt current_message : pystr) (history_messages : list message)
    (similar_items : list fact) (session_metadata : gmap pystr pyval)
    (messages : list message) :
  build_prompt_or U labels system_prompt current_message history_messages
    similar_items session_metadata = Ok messages →
  ∃ context,
    messages = Message (u "system") (strip system_prompt)
               :: filter (λ msg, role msg ≠ u "system") history_messages ++ context
    ∧ Forall (λ msg, role msg = u "user") context
    ∧ last messages = Some (Message (u "user") current_message).
Proof.
  unfold build_prompt_or.
  set (start := [Message (u "system") (strip system_prompt)]
                ++ filter (λ msg, role msg ≠ u "system") history_messages).
  assert (Hfinal : ∀ context,
    Forall (λ msg, role msg = u "user") context →
    ∀ messages,
    match last (start ++ context) with
    | Some (Message r c) =>
        if bool_decide (r = u "user") && bool_decide (c = current_message)
        then Ok (start ++ context)
        else Ok ((start ++ context) ++ [Message (u "user") current_message])
    | None => Ok ((start ++ context) ++ [Message (u "user") current_message])
    end = Ok messages →
    ∃ context',
      messages = Message (u "system") (strip system_prompt)
                 :: filter (λ msg, role msg ≠ u "system") history_messages ++ context'
      ∧ Forall (λ msg, role msg = u "user") context'
      ∧ last messages = Some (Message (u "user") current_message)).
  { intros context Huser messages'.
    destruct (last (start ++ context)) as [[r c]|] eqn:Hlast.
    - destruct (bool_decide (r = u "user") && bool_decide (c = current_message)) eqn:Hb.
      + apply andb_true_iff in Hb as [->%bool_decide_eq_true ->%bool_decide_eq_true].
        intros [= <-]. exists context. done.
      + intros [= <-]. exists (context ++ [Message (u "user") current_message]).
        split_and!.
        * unfold start. by rewrite <- !app_assoc.
        * apply Forall_app. split; [done|]. by constructor.
        * exact (last_snoc _ (start ++ context)).
    - intros [= <-]. exists (context ++ [Message (u "user") current_message]).
      split_and!.
      + unfold start. by rewrite <- !app_assoc.
      + apply Forall_app. split; [done|]. by constructor.
      + exact (last_snoc _ (start ++ context)). }
  destruct (bool_decide (session_metadata = ∅)); simpl.
  - destruct similar_items; simpl; [|done].
    apply (Hfinal [Message (u "user") no_listings]). by constructor.
  - destruct (format_metadata_context_prompt U labels session_metadata)
      as [grounding|]; simpl; [|done].
    destruct similar_items; simpl; [|done].
    rewrite <- app_assoc.
    apply (Hfinal [Message (u "user") grounding; Message (u "user") no_listings]).
    by repeat constructor.
Qed.

End Assembler.

(** * Closed examples *)

(** The sanitizer on an input with three numbers, next to what the
    specification asks there. *)
Lemma sanitize_range_number_three_numbers :
  findall_d3 ascii_only (remove_commas (py_str ascii_only (PStr (u "100 200 300"))))
  = [u "100"; u "200"; u "300"]
  ∧ sanitize_range_number_limited ascii_only 4300 (PStr (u "100 200 300")) = PNone
  ∧ spec_range_number ascii_only (PStr (u "100 200 300"))
    = PStr (pound :: u "100" ++ en_dash :: pound :: u "200").
Proof. repeat split; vm_compute; reflexivity. Qed.

(** One run of 4301 digits: its conversion raises, and the result is null. *)
Example sanitize_range_number_long_run :
  findall_d3 ascii_only (remove_commas (replicate 4301 49)) = [replicate 4301 49]
  ∧ sanitize_range_number_limited ascii_only 4300 (PStr (replicate 4301 49)) = PNone.
Proof. split; vm_compute; reflexivity. Qed.

(** The keys of a sanitized input, the fixed key among them. *)
Lemma validate_metadata_keys_example :
  validate_metadata ascii_only example_schema {[ u "budget" := PStr (u "250,000") ]}
  = Ok (<[u "property_type" := PNone]>
         (<[u "budget" := PStr (pound :: u "250,000")]>
           {[ u "session_id" := PNone ]}))
  ∧ dom (<[u "property_type" := PNone]>
          (<[u "budget" := PStr (pound :: u "250,000")]>
            ({[ u "session_id" := PNone ]} : gmap pystr pyval)))
    = {[ u "session_id" ]} ∪ list_to_set (metadata_fields example_schema).*1.
Proof.
  split; [vm_compute; reflexivity|].
  apply (validate_metadata_keys ascii_only example_schema
           {[ u "budget" := PStr (u "250,000") ]}).
  vm_compute. reflexivity.
Defined.

(** A schema without fields and an empty input: session_id is a key of the
    result, and no field of the schema. *)
Lemma validate_metadata_session_id_key :
  validate_metadata ascii_only
    {| metadata_fields := []; lead_score_thresholds := None;
       display_fields := []; context_labels := [] |} ∅
  = Ok {[ u "session_id" := PNone ]}
  ∧ u "session_id" ∉ ([] : list (pystr * field_config)).*1.
Proof. split; [reflexivity|]. simpl. apply not_elem_of_nil. Qed.

(** Thresholds 100000 and 200000 scoring 1 and 2, and a budget of 250,000
    pounds: the code adds 3, the score of the highest threshold is 2. *)
Lemma classify_lead_adds_every_threshold :
  score_field ascii_only {[ u "budget" := PStr (pound :: u "250,000") ]} 0
    (u "budget", budget_config) = Ok 3%Z
  ∧ spec_threshold_score 250000 [100000; 200000]%Z [1; 2]%Z = 2%Z.
Proof. split; vm_compute; reflexivity. Qed.

Lemma classify_lead_threshold_score_example :
  score_field ascii_only {[ u "budget" := PStr (pound :: u "250,000") ]} 0
    (u "budget", budget_config) = Ok 3%Z.
Proof.
  rewrite (classify_lead_threshold_score ascii_only _ (u "budget") budget_config
             [(u "thresholds", WSeq [100000; 200000]%Z); (u "scores", WSeq [1; 2]%Z)]
             [100000; 200000]%Z [1; 2]%Z (pound :: u "250,000") 0);
    try reflexivity.
Defined.

(** A clarifying question that names no known listing and uses a listing
    word is accepted in strict mode too. *)
Lemma is_reply_grounded_clarifying_question :
  is_reply_grounded ascii_only (u "Would a property in York also work for you?")
    [park_lane] true = true
  ∧ py_in (u "property")
      (lower ascii_only (u "Would a property in York also work for you?")) = true
  ∧ py_in (lower ascii_only (external_id park_lane))
      (lower ascii_only (u "Would a property in York also work for you?")) = false
  ∧ py_in (lower ascii_only (address park_lane))
      (lower ascii_only (u "Would a property in York also work for you?")) = false.
Proof. repeat split; vm_compute; reflexivity. Qed.

(** A reply rejected in strict mode, and why. *)
Lemma is_reply_grounded_decision_example :
  [park_lane] ≠ []
  ∧ ¬ (occurs_in (u "would a") (lower ascii_only (u "Here is a new listing"))
       ∧ occurs_in (u "also work for you") (lower ascii_only (u "Here is a new listing")))
  ∧ ¬ (∃ h, h ∈ [park_lane]
            ∧ (occurs_in (lower ascii_only (external_id h))
                 (lower ascii_only (u "Here is a new listing"))
               ∨ occurs_in (lower ascii_only (address h))
                   (lower ascii_only (u "Here is a new listing"))))
  ∧ (∃ keyword, keyword ∈ listing_keywords
                ∧ occurs_in keyword (lower ascii_only (u "Here is a new listing")))
  ∧ true = true.
Proof.
  apply (proj1 (is_reply_grounded_decision ascii_only (u "Here is a new listing")
                  [park_lane] true)).
  vm_compute. reflexivity.
Defined.

(** A profile with a location only: the context of the turn. *)
Lemma listings_only_for_complete_profile_example :
  ∃ context,
    turn_prompt_with_history ascii_only example_schema (u "You are an estate agent.")
      (u "Anything near Leeds?") (Ok []) leeds_only [park_lane] [] = Ok context
    ∧ Message (u "user") no_listings ∈ context.
Proof.
  apply (listings_only_for_complete_profile ascii_only example_schema
           (u "You are an estate agent.") (u "Anything near Leeds?") (Ok [])
           leeds_only [park_lane] []).
  intros [_ [[s [Hs _]] _]]. vm_compute in Hs. discriminate.
Defined.

(** The same turn with a stored message [format_history_or] cannot read. *)
Example turn_prompt_history_raises :
  turn_prompt_with_history ascii_only example_schema (u "You are an estate agent.")
    (u "Anything near Leeds?") (Raise AttributeError) leeds_only [park_lane] []
  = Raise AttributeError.
Proof. reflexivity. Qed.

(** A turn that extracts nothing for the location keeps it. *)
Lemma merge_and_save_monotone_example :
  ∃ v',
    load_metadata
      (store_after leeds_only
         (merge_and_save ascii_only example_schema (u "u1")
            (u "2025-04-20T12:35:10+00:00") leeds_only
            {[ u "location" := PNone ]})) !! u "location" = Some v'
    ∧ nonempty_value v'
    ∧ (u "location" ≠ lead_key
       → incoming_empty (({[ u "location" := PNone ]} : gmap pystr pyval) !! u "location")
       → same_content (PStr (u "Leeds")) v')
    ∧ (u "location" ≠ lead_key → ∀ l a,
         PStr (u "Leeds") = PList (PStr <$> l) →
         ({[ u "location" := PNone ]} : gmap pystr pyval) !! u "location"
         = Some (PList (PStr <$> a)) →
         ∃ l', v' = PList (PStr <$> l')
               ∧ (∀ x, x ∈ l → x ∈ l') ∧ (∀ x, x ∈ l' → x ∈ l ∨ x ∈ a)).
Proof.
  apply (merge_and_save_monotone ascii_only example_schema (u "u1")
           (u "2025-04-20T12:35:10+00:00") leeds_only {[ u "location" := PNone ]}
           (u "location") (PStr (u "Leeds"))).
  - vm_compute. reflexivity.
  - vm_compute. discriminate.
Defined.

(** A schema that scores the tag itself: an empty table, nothing extracted,
    and the second turn overwrites the tag of the first. *)
Lemma merge_and_save_scored_tag_alternates :
  lead_key ∈ (metadata_fields tag_schema).*1
  ∧ load_metadata
      (store_after None
         (merge_and_save_by ascii_only first_seen tag_schema (u "u1")
            (u "2025-04-20T12:35:10+00:00") None {[ u "session_id" := PNone ]}))
    = {[ lead_key := PStr (u "Cold") ]}
  ∧ load_metadata
      (store_after
         (store_after None
            (merge_and_save_by ascii_only first_seen tag_schema (u "u1")
               (u "2025-04-20T12:35:10+00:00") None {[ u "session_id" := PNone ]}))
         (merge_and_save_by ascii_only first_seen tag_schema (u "u1")
            (u "2025-04-20T12:36:40+00:00")
            (store_after None
               (merge_and_save_by ascii_only first_seen tag_schema (u "u1")
                  (u "2025-04-20T12:35:10+00:00") None {[ u "session_id" := PNone ]}))
            {[ u "session_id" := PNone ]}))
    = {[ lead_key := PStr (u "Hot") ]}.
Proof.
  split; [apply list_elem_of_here|]. split; vm_compute; reflexivity.
Qed.

(** A stored list, the same list coming in twice, and the sets of the
    first turn coming out reversed. *)
Lemma merge_and_save_idempotent_example :
  profile_equiv
    (load_metadata
       (store_after
          (store_after garden_flat
             (merge_and_save_by ascii_only reversed example_schema (u "u1")
                (u "2025-04-20T12:35:10+00:00") garden_flat
                {[ u "features" := PList (PStr <$> [u "garage"; u "garden"]) ]}))
          (merge_and_save_by ascii_only first_seen example_schema (u "u1")
             (u "2025-04-20T12:36:40+00:00")
             (store_after garden_flat
                (merge_and_save_by ascii_only reversed example_schema (u "u1")
                   (u "2025-04-20T12:35:10+00:00") garden_flat
                   {[ u "features" := PList (PStr <$> [u "garage"; u "garden"]) ]}))
             {[ u "features" := PList (PStr <$> [u "garage"; u "garden"]) ]})))
    (load_metadata
       (store_after garden_flat
          (merge_and_save_by ascii_only reversed example_schema (u "u1")
             (u "2025-04-20T12:35:10+00:00") garden_flat
             {[ u "features" := PList (PStr <$> [u "garage"; u "garden"]) ]}))).
Proof.
  assert (Hload : load_metadata garden_flat
                  = {[ u "features" := PList (PStr <$> [u "garden"]) ]}).
  { vm_compute. reflexivity. }
  apply (merge_and_save_idempotent ascii_only reversed first_seen example_schema (u "u1")
           (u "2025-04-20T12:35:10+00:00") (u "2025-04-20T12:36:40+00:00")
           garden_flat {[ u "features" := PList (PStr <$> [u "garage"; u "garden"]) ]}).
  - intros xs. apply reverse_Permutation.
  - intros xs. reflexivity.
  - intros k v [_ <-]%lookup_singleton_Some. right. right. eauto.
  - rewrite Hload. intros k v [_ <-]%lookup_singleton_Some. right.
    exists [u "garden"]. split_and!; [reflexivity|apply NoDup_singleton|discriminate].
  - simpl. rewrite !not_elem_of_cons. split_and!; [discriminate|discriminate|].
    apply not_elem_of_nil.
  - rewrite Hload. intros k config l Hin _ [Hk _]%lookup_singleton_Some. subst k.
    simpl in Hin. rewrite !elem_of_cons in Hin.
    destruct Hin as [[=]|[[=]|Hin]]. by apply elem_of_nil in Hin.
  - intros k config l Hin _ [Hk _]%lookup_singleton_Some. subst k.
    simpl in Hin. rewrite !elem_of_cons in Hin.
    destruct Hin as [[=]|[[=]|Hin]]. by apply elem_of_nil in Hin.
Defined.

(** The listing text, had the schema been passed. *)
Example format_similar_items_or_one_listing :
  format_similar_items_or ascii_only [park_lane] listing_schema
  = join [newline]
      [ u "There is 1 matching listing available:"; [];
        u "Property 1 of 1:";
        u "- Address: 12 Park Lane, Leeds";
        u "- Price: " ++ pound :: u "250,000";
        u "- Bedrooms: Unknown";
        [];
        only_these_listings ].
Proof. vm_compute. reflexivity. Qed.

(** A complete turn on the empty table: the tag is derived and stored. *)
Example merge_and_save_first_turn :
  load_metadata
    (store_after None
       (merge_and_save ascii_only example_schema (u "u1")
          (u "2025-04-20T12:35:10+00:00") None
          (<[u "budget" := PStr (pound :: u "250,000")]>
             {[ u "session_id" := PNone ]})))
  = <[u "lead_classification" := PStr (u "Hot")]>
      {[ u "budget" := PStr (pound :: u "250,000") ]}.
Proof. vm_compute. reflexivity. Qed.

(** ** Examples of the further statements *)

(** A decidable statement about closed data, by evaluation. *)
Ltac by_evaluation := refine (bool_decide_unpack _ _); vm_compute; exact I.

Lemma sanitize_range_number_amount_example :
  sanitize_range_number ascii_only (PStr (pound :: thousands 250000))
  = if 100 <=? 250000 then PStr (pound :: thousands 250000) else PNone.
Proof.
  apply (sanitize_range_number_amount ascii_only). vm_compute. reflexivity.
Defined.

Lemma sanitize_range_number_idempotent_example :
  sanitize_range_number ascii_only
    (sanitize_range_number ascii_only (PStr (u "between 250000 and 300,000")))
  = sanitize_range_number ascii_only (PStr (u "between 250000 and 300,000")).
Proof.
  apply (sanitize_range_number_idempotent ascii_only).
  - vm_compute. reflexivity.
  - vm_compute. reflexivity.
  - vm_compute. repeat constructor; discriminate.
Defined.

Lemma classify_lead_reads_range_example :
  score_field ascii_only
    {[ u "budget" := PStr (pound :: thousands 150000 ++ en_dash :: pound :: thousands 250000) ]}
    0%Z (u "budget", budget_config)
  = Ok (if 100 <=? 250000
        then add_threshold_scores (Z.of_N 250000) [100000; 200000]%Z [1; 2]%Z 0%Z
        else if 100 <=? 150000
             then add_threshold_scores (Z.of_N 150000) [100000; 200000]%Z [1; 2]%Z 0%Z
             else 0%Z).
Proof.
  apply (classify_lead_reads_range ascii_only) with
    (weights := [(u "thresholds", WSeq [100000; 200000]%Z); (u "scores", WSeq [1; 2]%Z)]);
    vm_compute; reflexivity.
Defined.

Lemma classify_lead_reads_amount_example :
  score_field ascii_only {[ u "budget" := PStr (pound :: thousands 150000) ]}
    0%Z (u "budget", budget_config)
  = Ok (if 100 <=? 150000
        then add_threshold_scores (Z.of_N 150000) [100000; 200000]%Z [1; 2]%Z 0%Z
        else 0%Z).
Proof.
  apply (classify_lead_reads_amount ascii_only) with
    (weights := [(u "thresholds", WSeq [100000; 200000]%Z); (u "scores", WSeq [1; 2]%Z)]);
    vm_compute; reflexivity.
Defined.

Lemma validate_metadata_values_example :
  (∀ field config, (field, config) ∈ metadata_fields lead_schema →
     ∃ v, field_value ascii_only config (default PNone (keen_raw !! field)) = Ok v
          ∧ keen_metadata !! field = Some v)
  ∧ (u "session_id" ∉ (metadata_fields lead_schema).*1 →
     keen_metadata !! u "session_id" = Some (default PNone (keen_raw !! u "session_id"))).
Proof.
  apply (validate_metadata_values ascii_only lead_schema keen_raw keen_metadata).
  - vm_compute. reflexivity.
  - by_evaluation.
Defined.

Lemma validate_metadata_sanitized_example : sanitized_metadata keen_metadata.
Proof.
  apply (validate_metadata_sanitized ascii_only lead_schema keen_raw keen_metadata).
  - simpl. rewrite !Forall_cons. split_and!; [| |..|apply Forall_nil_2].
    + right. by_evaluation.
    + left. simpl. eauto.
    + right. by_evaluation.
  - left. vm_compute. reflexivity.
  - vm_compute. reflexivity.
Defined.

Lemma tier_monotone_example :
  tier example_schema 1 ∈ tiers
  ∧ (tier example_schema 1 = u "Hot" → tier example_schema 3 = u "Hot")
  ∧ (tier example_schema 1 = u "Warm" →
     tier example_schema 3 = u "Hot" ∨ tier example_schema 3 = u "Warm").
Proof. apply (tier_monotone example_schema 1 3). lia. Defined.

Lemma classify_lead_total_example :
  ∃ tag, classify_lead ascii_only keen_metadata lead_schema = Ok tag ∧ tag ∈ tiers.
Proof.
  apply (classify_lead_total ascii_only keen_metadata lead_schema).
  simpl. rewrite !Forall_cons. split_and!; [| |..|apply Forall_nil_2];
    intros weights [= <-].
  - right. split; [reflexivity|]. vm_compute. eauto.
  - left. rewrite !Forall_cons. split_and!; [| |apply Forall_nil_2]; simpl; eauto.
Defined.

Lemma classify_lead_first_option_example :
  score_field ascii_only {[ u "urgency" := PStr (u "Medium") ]} 0%Z
    (u "urgency", urgency_config)
  = Ok (0 + 1)%Z.
Proof.
  apply (classify_lead_first_option ascii_only _ _ _ (PStr (u "Medium"))
           [(u "high", WNum 2)] [] (u "medium")).
  - vm_compute. reflexivity.
  - reflexivity.
  - vm_compute. discriminate.
  - reflexivity.
  - vm_compute. reflexivity.
  - repeat constructor. vm_compute. discriminate.
Defined.

Lemma merge_and_save_list_on_string_example :
  merge_and_save ascii_only example_schema (u "u1") (u "2025-04-20T12:35:10+00:00")
    leeds_only {[ u "location" := PList [PStr (u "York")] ]} = Raise TypeError
  ∧ store_after leeds_only
      (merge_and_save ascii_only example_schema (u "u1") (u "2025-04-20T12:35:10+00:00")
         leeds_only {[ u "location" := PList [PStr (u "York")] ]}) = leeds_only.
Proof.
  apply (merge_and_save_list_on_string ascii_only example_schema (u "u1")
           (u "2025-04-20T12:35:10+00:00") leeds_only
           {[ u "location" := PList [PStr (u "York")] ]} (u "location") (u "Leeds")
           [PStr (u "York")]).
  - vm_compute. reflexivity.
  - vm_compute. reflexivity.
Defined.

Lemma merge_and_save_stores_tag_example :
  ∃ merged tag,
    merge_new_metadata (load_metadata leeds_only)
      {[ u "budget" := PStr (pound :: u "250,000") ]} = Ok merged
    ∧ classify_lead ascii_only merged example_schema = Ok tag
    ∧ tag ∈ tiers
    ∧ load_metadata
        (store_after leeds_only
           (merge_and_save ascii_only example_schema (u "u1")
              (u "2025-04-20T12:35:10+00:00") leeds_only
              {[ u "budget" := PStr (pound :: u "250,000") ]})) !! lead_key
      = Some (PStr tag).
Proof.
  apply (merge_and_save_stores_tag ascii_only example_schema (u "u1")
           (u "2025-04-20T12:35:10+00:00") leeds_only _
           {[ u "budget" := PStr (pound :: u "250,000") ]}).
  vm_compute. reflexivity.
Defined.

Lemma merge_and_save_replaces_example :
  load_metadata
    (store_after leeds_only
       (merge_and_save ascii_only example_schema (u "u1")
          (u "2025-04-20T12:35:10+00:00") leeds_only
          {[ u "location" := PStr (u " York ") ]})) !! u "location"
  = Some (PStr (strip (py_str ascii_only (PStr (u " York "))))).
Proof.
  apply (merge_and_save_replaces ascii_only example_schema (u "u1")
           (u "2025-04-20T12:35:10+00:00") leeds_only _
           {[ u "location" := PStr (u " York ") ]}).
  - vm_compute. reflexivity.
  - reflexivity.
  - vm_compute. discriminate.
  - vm_compute. reflexivity.
  - discriminate.
  - discriminate.
  - vm_compute. reflexivity.
Defined.

Lemma merge_and_save_list_union_example :
  ∃ r, NoDup r
       ∧ (∀ x, x ∈ r ↔ x ∈ [u "garden"] ∨ x ∈ [u "garage"; u "garden"])
       ∧ load_metadata
           (store_after garden_flat
              (merge_and_save ascii_only example_schema (u "u1")
                 (u "2025-04-20T12:35:10+00:00") garden_flat
                 {[ u "features" := PList (PStr <$> [u "garage"; u "garden"]) ]}))
           !! u "features"
         = if bool_decide (r = []) then None else Some (PList (PStr <$> r)).
Proof.
  apply (merge_and_save_list_union ascii_only example_schema (u "u1")
           (u "2025-04-20T12:35:10+00:00") garden_flat _
           {[ u "features" := PList (PStr <$> [u "garage"; u "garden"]) ]}
           (u "features")).
  - vm_compute. reflexivity.
  - reflexivity.
  - vm_compute. discriminate.
  - vm_compute. reflexivity.
  - vm_compute. reflexivity.
Defined.


Lemma reachable_persisted_example :
  persisted_profile
    (load_metadata
       (store_after None
          (update_and_save_metadata ascii_only lead_schema (u "u1")
             (u "2025-04-20T12:35:10+00:00") None keen_raw))).
Proof.
  apply (reachable_persisted ascii_only lead_schema).
  - simpl. rewrite !Forall_cons. split_and!; [| |..|apply Forall_nil_2].
    + right. by_evaluation.
    + left. simpl. eauto.
    + right. by_evaluation.
  - apply reachable_turn; [apply reachable_empty|]. left. vm_compute. reflexivity.
Defined.

Lemma update_and_save_stores_string_example :
  load_metadata
    (store_after leeds_only
       (update_and_save_metadata ascii_only lead_schema (u "u1")
          (u "2025-04-20T12:35:10+00:00") leeds_only keen_raw)) !! u "budget"
  = Some (PStr (strip (pound :: u "250,000"))).
Proof.
  apply (update_and_save_stores_string ascii_only lead_schema (u "u1")
           (u "2025-04-20T12:35:10+00:00") leeds_only _ keen_raw (u "budget")
           budget_config).
  - by_evaluation.
  - apply list_elem_of_here.
  - reflexivity.
  - vm_compute. discriminate.
  - vm_compute. reflexivity.
  - vm_compute. discriminate.
  - vm_compute. reflexivity.
Defined.

Lemma is_reply_grounded_empty_address_example :
  is_reply_grounded ascii_only (u "A new listing: 1 Fake Street, Leeds.")
    [park_lane; no_address] true = true.
Proof.
  apply (is_reply_grounded_empty_address ascii_only _ _ _ no_address).
  - apply list_elem_of_further, list_elem_of_here.
  - left. reflexivity.
Defined.

Lemma build_prompt_or_shape_example :
  ∃ context,
    [Message (u "system") (u "You are an estate agent.");
     Message (u "user") (u "Hi");
     Message (u "assistant") (u "Hello, how can I help?");
     Message (u "user") no_listings;
     Message (u "user") (u "Anything near Leeds?")]
    = Message (u "system") (strip (u " You are an estate agent. "))
      :: filter (λ msg, role msg ≠ u "system")
           [Message (u "user") (u "Hi"); Message (u "system") (u "An older prompt.");
            Message (u "assistant") (u "Hello, how can I help?")]
         ++ context
    ∧ Forall (λ msg, role msg = u "user") context
    ∧ last [Message (u "system") (u "You are an estate agent.");
            Message (u "user") (u "Hi");
            Message (u "assistant") (u "Hello, how can I help?");
            Message (u "user") no_listings;
            Message (u "user") (u "Anything near Leeds?")]
      = Some (Message (u "user") (u "Anything near Leeds?")).
Proof.
  apply (build_prompt_or_shape ascii_only example_schema _ _ _ [] ∅).
  vm_compute. reflexivity.
Defined.
